(** * Projektet.py: a queueing-network simulation on a discrete-event kernel

    The program creates 30 client processes ([PC.request_http]) that send
    requests through randomly chosen switches ([FIFOQueue], [PriorityQueue],
    both capacity-limited resources) to HTTP servers
    ([HTTPServer.handle_request]), and collects loss, latency and delay
    figures in module-level containers.

    The embedding is shallow.  Generators become resumption functions over an
    explicit frame (the suspension point and the live locals); the event
    kernel (simpy's [Environment], [Resource], [PriorityResource]) becomes a
    schedule of time-stamped entries and the two lists [users] / [queue] of a
    resource; the [random] module becomes an abstract deterministic generator
    threaded through the state; exceptions become the [Raise] results of an
    error monad.

    Numbers.  Virtual time is kept exactly, as a whole number of ticks, one
    time unit being [10 * 2^53] ticks: [random.random()] is [k / 2^53] for a
    53-bit [k], so [a + (b - a) * random()] is a whole number of ticks as soon
    as [a] and [b] are multiples of 0.1, which holds for the ranges of the
    program (0.1-0.5 and 0.5-1.5) and for the threshold 0.1.  The rounding of
    binary floating point is not modelled: the program adds, subtracts and
    compares times in binary64, so a time, a latency or a mean of the
    program can differ from its value here in the last place.  The
    properties below are stated so as not to depend on that: they are about
    what is counted, what is raised, who holds what, and the order of
    times, not about the last digits of a time.  The times that appear in
    the examples are those of the exact clock. *)

From stdpp Require Import base numbers list strings gmap pretty sorting.
From Stdlib Require Import QArith.

Local Open Scope Z_scope.

(** ** Exceptions and the error monad *)

Inductive exn :=
  | ValueError          (* simpy: capacity <= 0, negative delay *)
  | IndexError          (* random.choice on an empty sequence *)
  | KeyError            (* switch_stats[name] on a missing name *)
  | ZeroDivisionError   (* throughput with env.now == 0 *)
  | RuntimeError        (* resuming a generator that is not suspended *)
  | ConfigurationError. (* named by the specification; never raised by the program *)

Inductive result (A : Type) :=
  | Ok (a : A)
  | Raise (e : exn).
Arguments Ok {A} a.
Arguments Raise {A} e.

Global Instance result_ret : MRet result := @Ok.
Global Instance result_bind : MBind result := λ A B f m,
  match m with Ok a => f a | Raise e => Raise e end.
Global Instance result_fmap : FMap result := λ A B f m,
  match m with Ok a => Ok (f a) | Raise e => Raise e end.

(** The exception that ended a computation. *)
Definition raised {A} (r : result A) : option exn :=
  match r with Ok _ => None | Raise e => Some e end.

Global Instance exn_eq_dec : EqDecision exn.
Proof. solve_decision. Defined.

(** ** The [random] module

    The generator is an abstract deterministic state machine.  [rng_random]
    is [random.random()], returned as the numerator [k] of [k / 2^53];
    [rng_randbelow n] is [Random._randbelow(n)]. *)

Class RandomSource := {
  rng_state : Type;
  rng_random : rng_state → Z * rng_state;
  rng_randbelow : nat → rng_state → nat * rng_state;
  rng_random_range g : 0 ≤ (rng_random g).1 < 2 ^ 53;
  rng_randbelow_range n g : (0 < n)%nat → ((rng_randbelow n g).1 < n)%nat
}.

(** A scripted generator: the raw values to deliver, then zeros. *)
Definition tape_random (g : list Z) : Z * list Z :=
  (hd 0 g `mod` 2 ^ 53, tl g).
Definition tape_randbelow (n : nat) (g : list Z) : nat * list Z :=
  (Nat.modulo (Z.to_nat (hd 0 g)) n, tl g).

Definition tape : RandomSource := {|
  rng_state := list Z;
  rng_random := tape_random;
  rng_randbelow := tape_randbelow;
  rng_random_range g := Z.mod_pos_bound (hd 0 g) (2 ^ 53) eq_refl;
  rng_randbelow_range n g H :=
    Nat.mod_upper_bound (Z.to_nat (hd 0 g)) n (proj2 (Nat.neq_0_lt_0 n) H)
|}.

(** ** Constants (lines 7-14) and the literals of the two processes

    Ranges and the loss threshold are given in tenths of a time unit, so the
    program's [uniform(0.1, 0.5)] is [(1, 5)]. *)

Record config := {
  NUM_REQUESTS : nat;
  NUM_PCS : nat;
  NUM_SERVERS : nat;
  NUM_SWITCHES : nat;
  FIFO_COUNT : nat;
  PRIORITY_COUNT : nat;
  SWITCH_CAPACITY : Z;
  THINK_TIME : Z * Z;
  SERVICE_TIME : Z * Z;
  LOSS_PROBABILITY : Z
}.

Definition deployment : config := {|
  NUM_REQUESTS := 50;
  NUM_PCS := 30;
  NUM_SERVERS := 3;
  NUM_SWITCHES := 12;
  FIFO_COUNT := 8;
  PRIORITY_COUNT := 8;
  SWITCH_CAPACITY := 1;
  THINK_TIME := (1, 5);
  SERVICE_TIME := (5, 15);
  LOSS_PROBABILITY := 1
|}.

(** The scenario of section 8 of the specification: one generator with a
    quota of one request, one FIFO queue of capacity 1, one station, no
    loss. *)
Definition scenario : config := {|
  NUM_REQUESTS := 1;
  NUM_PCS := 1;
  NUM_SERVERS := 1;
  NUM_SWITCHES := 1;
  FIFO_COUNT := 1;
  PRIORITY_COUNT := 0;
  SWITCH_CAPACITY := 1;
  THINK_TIME := (1, 5);
  SERVICE_TIME := (5, 15);
  LOSS_PROBABILITY := 0
|}.

(** Ticks in a tenth of a time unit, and in a time unit. *)
Definition TENTH : Z := 2 ^ 53.
Definition UNIT : Z := 10 * TENTH.

(** ** Data *)

Inductive discipline := FIFO | Priority.

Global Instance discipline_eq_dec : EqDecision discipline.
Proof. solve_decision. Defined.

(** The two-key dictionaries [data_loss], [latencies], [delays]. *)
Record by_discipline (A : Type) := ByDiscipline { of_FIFO : A; of_Priority : A }.
Arguments ByDiscipline {A} _ _.
Arguments of_FIFO {A} _.
Arguments of_Priority {A} _.

Definition get {A} (d : discipline) (m : by_discipline A) : A :=
  match d with FIFO => of_FIFO m | Priority => of_Priority m end.
Definition update {A} (d : discipline) (f : A → A) (m : by_discipline A) :
    by_discipline A :=
  match d with
  | FIFO => ByDiscipline (f (of_FIFO m)) (of_Priority m)
  | Priority => ByDiscipline (of_FIFO m) (f (of_Priority m))
  end.

(** A request event of a resource.  [req_id] stands for the identity of the
    Python object, [req_proc] is the PC whose generator created it, [req_key]
    is the [key] attribute that only a [PriorityRequest] has:
    [(priority, time, not preempt)]. *)
Record request := {
  req_id : nat;
  req_proc : nat;
  req_key : option (Z * Z * bool)
}.

Global Instance request_eq_dec : EqDecision request.
Proof. solve_decision. Defined.

(** The class attribute [PutQueue] of a resource: a plain [list] for
    [Resource], a [SortedQueue] for [PriorityResource]. *)
Inductive put_queue_class := PlainList | SortedQueue.

Global Instance put_queue_class_eq_dec : EqDecision put_queue_class.
Proof. solve_decision. Defined.

(** A switch: an instance of [FIFOQueue] or [PriorityQueue]. *)
Record switch := {
  sw_class : discipline;
  sw_name : string;
  sw_capacity : Z;
  sw_put_queue : put_queue_class;
  users : list request;
  queue : list request
}.

Definition set_users (u : list request) (sw : switch) : switch :=
  {| sw_class := sw_class sw; sw_name := sw_name sw;
     sw_capacity := sw_capacity sw; sw_put_queue := sw_put_queue sw;
     users := u; queue := queue sw |}.
Definition set_queue (q : list request) (sw : switch) : switch :=
  {| sw_class := sw_class sw; sw_name := sw_name sw;
     sw_capacity := sw_capacity sw; sw_put_queue := sw_put_queue sw;
     users := users sw; queue := q |}.

Global Instance switch_eq_dec : EqDecision switch.
Proof. solve_decision. Defined.

(** Where the generator [PC.request_http] is suspended, with the locals that
    are live there.  [left] counts the iterations of [range(NUM_REQUESTS)]
    still to come after the current one. *)
Inductive frame :=
  | AtStart
  | AtThink (left : nat)                                   (* line 35 *)
  | AtRequest (left : nat) (request_time : Z)
      (switch server : nat) (req : request)                 (* line 47 *)
  | AtService (left : nat) (request_time : Z)
      (switch server : nat) (req : request) (start_time : Z) (* line 57 *)
  | Finished.

Global Instance frame_eq_dec : EqDecision frame.
Proof. solve_decision. Defined.

Record PC := {
  pc_name : string;
  successful_requests : nat;
  pc_frame : frame
}.

(** Processes: the generator of PC [i], or a [handle_request] generator of
    server [srv] started by (and waited for by) PC [i]. *)
Inductive process :=
  | ProcPC (i : nat)
  | ProcHandle (srv i : nat).

Global Instance process_eq_dec : EqDecision process.
Proof. solve_decision. Defined.

(** Events of the kernel, each with the callbacks it carries in this program:
    [Initialize p] and [Timeout p] resume [p]; [Request sw r] resumes
    [req_proc r]; [Release sw r] runs [_trigger_put] of [sw];
    [Process (ProcHandle srv i)] resumes PC [i]; [Process (ProcPC i)] has no
    callback.  A [handle_request] generator has no live local worth a frame:
    it is woken by [Initialize] before its first statement and by [Timeout]
    at line 78. *)
Inductive event :=
  | Initialize (p : process)
  | Timeout (p : process)
  | Request (sw : nat) (r : request)
  | Release (sw : nat) (r : request)
  | Process (p : process).

Global Instance event_eq_dec : EqDecision event.
Proof. solve_decision. Defined.

(** An entry of [Environment._queue]: [(time, priority, eid, event)]. *)
Definition entry : Type := Z * Z * nat * event.
Definition URGENT : Z := 0.
Definition NORMAL : Z := 1.

Record stat := { queue_lengths : list nat; utilization : list Z }.

Global Instance stat_eq_dec : EqDecision stat.
Proof. solve_decision. Defined.
Definition empty_stat : stat := {| queue_lengths := []; utilization := [] |}.

(** One line of output of [handle_request]: PC name, server name, time. *)
Definition line : Type := string * string * Z.

Section Simulation.
Context `{R : RandomSource}.

Record state := {
  (* simpy.Environment *)
  env_now : Z;
  env_queue : list entry;
  env_eid : nat;
  (* the random module, and the supply of object identities *)
  rng : rng_state;
  next_id : nat;
  (* module-level objects *)
  http_servers : list string;
  switches : list switch;
  pcs : list PC;
  data_loss : by_discipline nat;
  latencies : by_discipline (list Z);
  delays : by_discipline (list Z);
  overall_latencies : list Z;
  overall_delays : list Z;
  switch_stats : gmap string stat;
  stdout : list line
}.

(** Assignment to one component of the state. *)
Definition set_env_now (v : Z) (s : state) : state :=
  {| env_now := v; env_queue := env_queue s; env_eid := env_eid s;
     rng := rng s; next_id := next_id s; http_servers := http_servers s;
     switches := switches s; pcs := pcs s; data_loss := data_loss s;
     latencies := latencies s; delays := delays s;
     overall_latencies := overall_latencies s;
     overall_delays := overall_delays s; switch_stats := switch_stats s;
     stdout := stdout s |}.
Definition set_env_queue (v : list entry) (s : state) : state :=
  {| env_now := env_now s; env_queue := v; env_eid := env_eid s;
     rng := rng s; next_id := next_id s; http_servers := http_servers s;
     switches := switches s; pcs := pcs s; data_loss := data_loss s;
     latencies := latencies s; delays := delays s;
     overall_latencies := overall_latencies s;
     overall_delays := overall_delays s; switch_stats := switch_stats s;
     stdout := stdout s |}.
Definition set_env_eid (v : nat) (s : state) : state :=
  {| env_now := env_now s; env_queue := env_queue s; env_eid := v;
     rng := rng s; next_id := next_id s; http_servers := http_servers s;
     switches := switches s; pcs := pcs s; data_loss := data_loss s;
     latencies := latencies s; delays := delays s;
     overall_latencies := overall_latencies s;
     overall_delays := overall_delays s; switch_stats := switch_stats s;
     stdout := stdout s |}.
Definition set_rng (v : rng_state) (s : state) : state :=
  {| env_now := env_now s; env_queue := env_queue s; env_eid := env_eid s;
     rng := v; next_id := next_id s; http_servers := http_servers s;
     switches := switches s; pcs := pcs s; data_loss := data_loss s;
     latencies := latencies s; delays := delays s;
     overall_latencies := overall_latencies s;
     overall_delays := overall_delays s; switch_stats := switch_stats s;
     stdout := stdout s |}.
Definition set_next_id (v : nat) (s : state) : state :=
  {| env_now := env_now s; env_queue := env_queue s; env_eid := env_eid s;
     rng := rng s; next_id := v; http_servers := http_servers s;
     switches := switches s; pcs := pcs s; data_loss := data_loss s;
     latencies := latencies s; delays := delays s;
     overall_latencies := overall_latencies s;
     overall_delays := overall_delays s; switch_stats := switch_stats s;
     stdout := stdout s |}.
Definition set_switches (v : list switch) (s : state) : state :=
  {| env_now := env_now s; env_queue := env_queue s; env_eid := env_eid s;
     rng := rng s; next_id := next_id s; http_servers := http_servers s;
     switches := v; pcs := pcs s; data_loss := data_loss s;
     latencies := latencies s; delays := delays s;
     overall_latencies := overall_latencies s;
     overall_delays := overall_delays s; switch_stats := switch_stats s;
     stdout := stdout s |}.
Definition set_pcs (v : list PC) (s : state) : state :=
  {| env_now := env_now s; env_queue := env_queue s; env_eid := env_eid s;
     rng := rng s; next_id := next_id s; http_servers := http_servers s;
     switches := switches s; pcs := v; data_loss := data_loss s;
     latencies := latencies s; delays := delays s;
     overall_latencies := overall_latencies s;
     overall_delays := overall_delays s; switch_stats := switch_stats s;
     stdout := stdout s |}.
Definition set_data_loss (v : by_discipline nat) (s : state) : state :=
  {| env_now := env_now s; env_queue := env_queue s; env_eid := env_eid s;
     rng := rng s; next_id := next_id s; http_servers := http_servers s;
     switches := switches s; pcs := pcs s; data_loss := v;
     latencies := latencies s; delays := delays s;
     overall_latencies := overall_latencies s;
     overall_delays := overall_delays s; switch_stats := switch_stats s;
     stdout := stdout s |}.
Definition set_latencies (v : by_discipline (list Z)) (s : state) : state :=
  {| env_now := env_now s; env_queue := env_queue s; env_eid := env_eid s;
     rng := rng s; next_id := next_id s; http_servers := http_servers s;
     switches := switches s; pcs := pcs s; data_loss := data_loss s;
     latencies := v; delays := delays s;
     overall_latencies := overall_latencies s;
     overall_delays := overall_delays s; switch_stats := switch_stats s;
     stdout := stdout s |}.
Definition set_delays (v : by_discipline (list Z)) (s : state) : state :=
  {| env_now := env_now s; env_queue := env_queue s; env_eid := env_eid s;
     rng := rng s; next_id := next_id s; http_servers := http_servers s;
     switches := switches s; pcs := pcs s; data_loss := data_loss s;
     latencies := latencies s; delays := v;
     overall_latencies := overall_latencies s;
     overall_delays := overall_delays s; switch_stats := switch_stats s;
     stdout := stdout s |}.
Definition set_overall_latencies (v : list Z) (s : state) : state :=
  {| env_now := env_now s; env_queue := env_queue s; env_eid := env_eid s;
     rng := rng s; next_id := next_id s; http_servers := http_servers s;
     switches := switches s; pcs := pcs s; data_loss := data_loss s;
     latencies := latencies s; delays := delays s; overall_latencies := v;
     overall_delays := overall_delays s; switch_stats := switch_stats s;
     stdout := stdout s |}.
Definition set_overall_delays (v : list Z) (s : state) : state :=
  {| env_now := env_now s; env_queue := env_queue s; env_eid := env_eid s;
     rng := rng s; next_id := next_id s; http_servers := http_servers s;
     switches := switches s; pcs := pcs s; data_loss := data_loss s;
     latencies := latencies s; delays := delays s;
     overall_latencies := overall_latencies s; overall_delays := v;
     switch_stats := switch_stats s; stdout := stdout s |}.
Definition set_switch_stats (v : gmap string stat) (s : state) : state :=
  {| env_now := env_now s; env_queue := env_queue s; env_eid := env_eid s;
     rng := rng s; next_id := next_id s; http_servers := http_servers s;
     switches := switches s; pcs := pcs s; data_loss := data_loss s;
     latencies := latencies s; delays := delays s;
     overall_latencies := overall_latencies s;
     overall_delays := overall_delays s; switch_stats := v;
     stdout := stdout s |}.
Definition set_stdout (v : list line) (s : state) : state :=
  {| env_now := env_now s; env_queue := env_queue s; env_eid := env_eid s;
     rng := rng s; next_id := next_id s; http_servers := http_servers s;
     switches := switches s; pcs := pcs s; data_loss := data_loss s;
     latencies := latencies s; delays := delays s;
     overall_latencies := overall_latencies s;
     overall_delays := overall_delays s; switch_stats := switch_stats s;
     stdout := v |}.

(** ** The kernel: [simpy.Environment] *)

(** [Environment.schedule(event, priority, delay)]: push
    [(now + delay, priority, next(eid), event)]. *)
Definition schedule (ev : event) (priority delay : Z) (s : state) : state :=
  set_env_eid (S (env_eid s))
    (set_env_queue
       (env_queue s ++ [(env_now s + delay, priority, env_eid s, ev)]) s).

(** Order of the tuples [(time, priority, eid)]. *)
Definition entry_leb (a b : entry) : bool :=
  let '(ta, pa, ia, _) := a in
  let '(tb, pb, ib, _) := b in
  (ta <? tb) || ((ta =? tb) && ((pa <? pb) || ((pa =? pb) && (ia <=? ib)%nat))).

(** [heappop]: the least entry and the remaining ones.  The layout of the
    binary heap is not modelled: the entries are kept in the order of their
    insertion. *)
Fixpoint heappop (q : list entry) : option (entry * list entry) :=
  match q with
  | [] => None
  | x :: q' =>
      match heappop q' with
      | None => Some (x, [])
      | Some (m, rest) =>
          if entry_leb x m then Some (x, q') else Some (m, x :: rest)
      end
  end.

(** [env.timeout(delay)], yielded by process [p]. *)
Definition timeout (p : process) (delay : Z) (s : state) : result state :=
  if decide (delay < 0) then Raise ValueError
  else Ok (schedule (Timeout p) NORMAL delay s).

(** ** The [random] functions the program calls *)

Definition random (s : state) : Z * state :=
  let '(k, g) := rng_random (rng s) in (k, set_rng g s).

(** [random.uniform(a, b)] is [a + (b - a) * random()]; in ticks, without
    the rounding of the product and of the sum (see Numbers above). *)
Definition uniform (ab : Z * Z) (s : state) : Z * state :=
  let '(k, s) := random s in (ab.1 * TENTH + (ab.2 - ab.1) * k, s).

(** [random.choice(seq)], returning the position of the chosen element. *)
Definition choice {A} (seq : list A) (s : state) : result (nat * state) :=
  match seq with
  | [] => Raise IndexError
  | _ =>
      let '(i, g) := rng_randbelow (length seq) (rng s) in
      match seq !! i with
      | Some _ => Ok (i, set_rng g s)
      | None => Raise IndexError
      end
  end.

(** ** Resources: [simpy.Resource] and [simpy.PriorityResource] *)

(** Comparison of the keys [(priority, time, not preempt)]. *)
Definition key_leb (a b : Z * Z * bool) : bool :=
  let '(pa, ta, fa) := a in
  let '(pb, tb, fb) := b in
  (pa <? pb) || ((pa =? pb) && ((ta <? tb) || ((ta =? tb) && implb fa fb))).

(** A [SortedQueue] only ever holds [PriorityRequest]s, which have a key. *)
Definition sort_key (r : request) : Z * Z * bool :=
  default (0, 0, false) (req_key r).

(** [list.sort(key=...)] is stable: insertion sort, an element going before
    the first one that is not smaller. *)
Fixpoint insort (r : request) (l : list request) : list request :=
  match l with
  | [] => [r]
  | x :: l' =>
      if key_leb (sort_key r) (sort_key x) then r :: l else x :: insort r l'
  end.
Definition sort_by_key (l : list request) : list request := foldr insort [] l.

(** [put_queue.append(request)]; [SortedQueue.append] appends and sorts. *)
Definition put_queue_append (c : put_queue_class) (q : list request)
    (r : request) : list request :=
  match c with
  | PlainList => q ++ [r]
  | SortedQueue => sort_by_key (q ++ [r])
  end.

(** [list.remove(x)]: drop the first occurrence (no change when absent; the
    two callers ignore or exclude the [ValueError]). *)
Fixpoint list_remove (r : request) (l : list request) : list request :=
  match l with
  | [] => []
  | x :: l' => if decide (x = r) then l' else x :: list_remove r l'
  end.

(** [BaseResource._trigger_put] with [Resource._do_put]: only the head of
    the put queue is examined ([_do_put] returns [None], so the loop breaks
    after one round); it is granted when a slot is free. *)
Definition trigger_put (i : nat) (s : state) : state :=
  match switches s !! i with
  | None => s
  | Some sw =>
      match queue sw with
      | [] => s
      | r :: q' =>
          if decide (Z.of_nat (length (users sw)) < sw_capacity sw) then
            schedule (Request i r) NORMAL 0
              (set_switches
                 (<[i := set_queue q' (set_users (users sw ++ [r]) sw)]>
                    (switches s)) s)
          else s
      end
  end.

(** [switch.request()]: a [Request], or for a [PriorityQueue] a
    [PriorityRequest] with the defaults [priority=0, preempt=True]. *)
Definition new_request (sw : switch) (pc : nat) (s : state) : request :=
  {| req_id := next_id s;
     req_proc := pc;
     req_key := match sw_class sw with
                | FIFO => None
                | Priority => Some (0, env_now s, false)
                end |}.

Definition switch_request (i pc : nat) (s : state) : result (request * state) :=
  match switches s !! i with
  | None => Raise RuntimeError
  | Some sw =>
      let r := new_request sw pc s in
      let sw := set_queue (put_queue_append (sw_put_queue sw) (queue sw) r) sw in
      Ok (r, trigger_put i
               (set_next_id (S (next_id s))
                  (set_switches (<[i := sw]> (switches s)) s)))
  end.

(** [Put.cancel]: an untriggered request is still in the put queue and is
    taken out of it. *)
Definition cancel (i : nat) (r : request) (s : state) : state :=
  set_switches (alter (λ sw, set_queue (list_remove r (queue sw)) sw) i (switches s)) s.

(** [switch.release(request)]: [Resource._do_get] removes the request from
    [users] and the [Release] event succeeds at once. *)
Definition switch_release (i : nat) (r : request) (s : state) : state :=
  schedule (Release i r) NORMAL 0
    (set_switches (alter (λ sw, set_users (list_remove r (users sw)) sw) i (switches s)) s).

(** Leaving the [with] block: [Request.__exit__]. *)
Definition request_exit (i : nat) (r : request) (s : state) : state :=
  switch_release i r (cancel i r s).

(** ** [PC.request_http] *)

Section Processes.
Variable cfg : config.

Definition set_frame (f : frame) (p : PC) : PC :=
  {| pc_name := pc_name p; successful_requests := successful_requests p;
     pc_frame := f |}.
Definition set_pc_frame (i : nat) (f : frame) (s : state) : state :=
  set_pcs (alter (set_frame f) i (pcs s)) s.
Definition count_success (p : PC) : PC :=
  {| pc_name := pc_name p; successful_requests := S (successful_requests p);
     pc_frame := pc_frame p |}.

(** [isinstance(switch, FIFOQueue)] / [isinstance(switch, PriorityQueue)]. *)
Definition class_of (sw : nat) (s : state) : option discipline :=
  sw_class <$> switches s !! sw.

(** Line 44. *)
Definition record_queue_length (name : string) (n : nat) (s : state) :
    result state :=
  match switch_stats s !! name with
  | None => Raise KeyError
  | Some st =>
      Ok (set_switch_stats
            (<[name := {| queue_lengths := queue_lengths st ++ [n];
                          utilization := utilization st |}]> (switch_stats s)) s)
  end.

(** Lines 34-35: the head of the loop with [n] iterations to go. *)
Definition request_http_loop (i n : nat) (s : state) : result state :=
  match n with
  | O => Ok (schedule (Process (ProcPC i)) NORMAL 0 (set_pc_frame i Finished s))
  | S n' =>
      let '(think, s) := uniform (THINK_TIME cfg) s in
      s ← timeout (ProcPC i) think s;
      Ok (set_pc_frame i (AtThink n') s)
  end.

(** Lines 36-47: after the think time, up to [yield request]. *)
Definition request_http_issue (i n : nat) (s : state) : result state :=
  let request_time := env_now s in
  '(sw, s) ← choice (switches s) s;
  '(srv, s) ← choice (http_servers s) s;
  match switches s !! sw with
  | None => Raise IndexError
  | Some switch =>
      let queue_length := length (queue switch) in
      s ← record_queue_length (sw_name switch) queue_length s;
      '(r, s) ← switch_request sw i s;
      Ok (set_pc_frame i (AtRequest n request_time sw srv r) s)
  end.

(** Lines 50-52. *)
Definition count_loss (sw : nat) (s : state) : state :=
  match class_of sw s with
  | Some d => set_data_loss (update d S (data_loss s)) s
  | None => s
  end.

(** Lines 48-57: the slot is granted; loss check, else the server is asked. *)
Definition request_http_granted (i n : nat) (request_time : Z) (sw srv : nat)
    (r : request) (s : state) : result state :=
  let '(k, s) := random s in
  if decide (10 * k < LOSS_PROBABILITY cfg * TENTH) then
    request_http_loop i n (request_exit sw r (count_loss sw s))
  else
    let start_time := env_now s in
    Ok (set_pc_frame i (AtService n request_time sw srv r start_time)
          (schedule (Initialize (ProcHandle srv i)) URGENT 0 s)).

(** Lines 63-68. *)
Definition record_sample (sw : nat) (latency delay : Z) (s : state) : state :=
  let d := match class_of sw s with Some FIFO => FIFO | _ => Priority end in
  set_delays (update d (λ l, l ++ [delay]) (delays s))
    (set_latencies (update d (λ l, l ++ [latency]) (latencies s)) s).

(** Lines 58-68 and the end of the [with] block. *)
Definition request_http_served (i n : nat) (request_time : Z) (sw srv : nat)
    (r : request) (start_time : Z) (s : state) : result state :=
  let end_time := env_now s in
  let s := set_pcs (alter count_success i (pcs s)) s in
  let s := set_overall_latencies
             (overall_latencies s ++ [end_time - start_time]) s in
  let s := set_overall_delays
             (overall_delays s ++ [end_time - request_time]) s in
  let s := record_sample sw (end_time - start_time) (end_time - request_time) s in
  request_http_loop i n (request_exit sw r s).

(** Resuming the generator of PC [i]. *)
Definition request_http (i : nat) (s : state) : result state :=
  match pcs s !! i with
  | None => Raise RuntimeError
  | Some p =>
      match pc_frame p with
      | AtStart => request_http_loop i (NUM_REQUESTS cfg) s
      | AtThink n => request_http_issue i n s
      | AtRequest n request_time sw srv r =>
          request_http_granted i n request_time sw srv r s
      | AtService n request_time sw srv r start_time =>
          request_http_served i n request_time sw srv r start_time s
      | Finished => Raise RuntimeError
      end
  end.

(** ** [HTTPServer.handle_request] *)

(** Lines 77-78. *)
Definition handle_request_begin (srv i : nat) (s : state) : result state :=
  let '(service_time, s) := uniform (SERVICE_TIME cfg) s in
  timeout (ProcHandle srv i) service_time s.

(** Line 79, and the end of the generator. *)
Definition handle_request_end (srv i : nat) (s : state) : state :=
  let pc_name := default "" (pc_name <$> pcs s !! i) in
  let name := default "" (http_servers s !! srv) in
  schedule (Process (ProcHandle srv i)) NORMAL 0
    (set_stdout (stdout s ++ [(pc_name, name, env_now s)]) s).

(** ** [Environment.step] and [Environment.run] *)

(** The callbacks of an event. *)
Definition callbacks (ev : event) (s : state) : result state :=
  match ev with
  | Initialize (ProcPC i) | Timeout (ProcPC i) => request_http i s
  | Initialize (ProcHandle srv i) => handle_request_begin srv i s
  | Timeout (ProcHandle srv i) => Ok (handle_request_end srv i s)
  | Request _ r => request_http (req_proc r) s
  | Release sw _ => Ok (trigger_put sw s)
  | Process (ProcHandle _ i) => request_http i s
  | Process (ProcPC _) => Ok s
  end.

(** One [step]; [None] is [EmptySchedule].  An exception raised in a
    generator ends the run: simpy hands it to [run] through the event of the
    failed process, which is scheduled at the current time. *)
Definition step (s : state) : option (result state) :=
  match heappop (env_queue s) with
  | None => None
  | Some ((t, _, _, ev), rest) =>
      Some (callbacks ev (set_env_now t (set_env_queue rest s)))
  end.

(** [env.run()]: steps until the schedule is empty.  The outer [None] means
    that the fuel did not suffice. *)
Fixpoint run (fuel : nat) (s : state) : option (result state) :=
  match fuel with
  | O => None
  | S fuel =>
      match step s with
      | None => Some (Ok s)
      | Some (Raise e) => Some (Raise e)
      | Some (Ok s') => run fuel s'
      end
  end.

(** ** Module level: lines 93-116 *)

Definition new_switch (c : discipline) (name : string) (capacity : Z) :
    result switch :=
  if decide (capacity ≤ 0) then Raise ValueError
  else Ok {| sw_class := c; sw_name := name; sw_capacity := capacity;
             sw_put_queue := match c with
                             | FIFO => PlainList
                             | Priority => SortedQueue
                             end;
             users := []; queue := [] |}.

Definition FIFOQueue (i : nat) : result switch :=
  new_switch FIFO ("FIFO Switch " +:+ pretty (S i)) (SWITCH_CAPACITY cfg).
Definition PriorityQueue (i : nat) : result switch :=
  new_switch Priority ("Priority Switch " +:+ pretty (S i)) (SWITCH_CAPACITY cfg).

(** Line 22. *)
Definition placeholder_stats : gmap string stat :=
  foldl (λ m i, <["Switch " +:+ pretty (S i) := empty_stat]> m) ∅
    (seq 0 (NUM_SWITCHES cfg)).

(** Lines 108-109. *)
Definition initial_stats (sws : list switch) : gmap string stat :=
  foldl (λ m sw, <[sw_name sw := empty_stat]> m) placeholder_stats sws.

Definition new_PC (i : nat) : PC :=
  {| pc_name := "PC" +:+ pretty (S i); successful_requests := 0;
     pc_frame := AtStart |}.

(** Lines 113-116: each PC is created and its process registered
    ([Initialize] is scheduled as urgent). *)
Definition create_pcs (s : state) : state :=
  foldl (λ s i, schedule (Initialize (ProcPC i)) URGENT 0
                  (set_pcs (pcs s ++ [new_PC i]) s))
    s (seq 0 (NUM_PCS cfg)).

Definition setup (g : rng_state) : result state :=
  fifos ← mapM FIFOQueue (seq 0 (FIFO_COUNT cfg));
  prios ← mapM PriorityQueue (seq 0 (PRIORITY_COUNT cfg));
  let sws := fifos ++ prios in
  Ok (create_pcs
        {| env_now := 0; env_queue := []; env_eid := 0;
           rng := g; next_id := 0;
           http_servers :=
             (λ i, "Server" +:+ pretty (S i)) <$> seq 0 (NUM_SERVERS cfg);
           switches := sws; pcs := [];
           data_loss := ByDiscipline 0%nat 0%nat;
           latencies := ByDiscipline [] [];
           delays := ByDiscipline [] [];
           overall_latencies := []; overall_delays := [];
           switch_stats := initial_stats sws;
           stdout := [] |}).

End Processes.

(** ** The figures computed after the run: lines 122-126 *)

(** A figure of lines 123-126: a number, or the [nan] that [np.mean] returns
    (with a [RuntimeWarning]) for an empty list. *)
Inductive figure :=
  | Mean (q : Q)
  | Nan.

(** [np.mean] of a list of times, in time units.  The quotient is exact (see
    Numbers above). *)
Definition np_mean (l : list Z) : figure :=
  match l with
  | [] => Nan
  | _ => Mean (Qdiv (inject_Z (foldr Z.add 0 l))
                 (Qmult (inject_Z (Z.of_nat (length l))) (inject_Z UNIT)))
  end.

(** [np.mean(x) if x else 0]. *)
Definition average (l : list Z) : figure :=
  match l with
  | [] => Mean 0
  | _ => np_mean l
  end.

Definition total_successes (s : state) : nat :=
  foldr Nat.add 0%nat (successful_requests <$> pcs s).

(** Line 122; [env.now] is still the integer 0 when nothing was scheduled
    with a delay. *)
Definition throughput_value (s : state) : result Q :=
  if decide (env_now s = 0) then Raise ZeroDivisionError
  else Ok (Qdiv (inject_Z (Z.of_nat (total_successes s) * UNIT))
             (inject_Z (env_now s))).

Record report := {
  throughput : Q;
  loss : by_discipline nat;
  average_latency_fifo : figure;
  average_latency_priority : figure;
  average_delay_fifo : figure;
  average_delay_priority : figure
}.

Definition summary (s : state) : result report :=
  t ← throughput_value s;
  Ok {| throughput := t;
        loss := data_loss s;
        average_latency_fifo := average (get FIFO (latencies s));
        average_latency_priority := average (get Priority (latencies s));
        average_delay_fifo := average (get FIFO (delays s));
        average_delay_priority := average (get Priority (delays s)) |}.

(** ** Reachable states *)

Inductive reachable (cfg : config) : state → Prop :=
  | reachable_setup g s :
      setup cfg g = Ok s → reachable cfg s
  | reachable_step s s' :
      reachable cfg s → step cfg s = Some (Ok s') → reachable cfg s'.

(** ** Predicates used in the statements *)

(** ** The schedule *)
Definition entry_key (e : entry) : Z * Z * nat := (e.1.1.1, e.1.1.2, e.1.2).

(** ** The state after lines 93-116 *)
Definition built (c : discipline) (prefix : string) (C : Z) (i : nat) : switch :=
  {| sw_class := c; sw_name := prefix +:+ pretty (S i); sw_capacity := C;
     sw_put_queue := match c with FIFO => PlainList | Priority => SortedQueue end;
     users := []; queue := [] |}.

Definition switch_list (cfg : config) : list switch :=
  (built FIFO "FIFO Switch " (SWITCH_CAPACITY cfg) <$> seq 0 (FIFO_COUNT cfg)) ++
  (built Priority "Priority Switch " (SWITCH_CAPACITY cfg) <$> seq 0 (PRIORITY_COUNT cfg)).

Definition initial_state (cfg : config) (g : rng_state) : state :=
  {| env_now := 0;
     env_queue := (λ i, (0, URGENT, i, Initialize (ProcPC i))) <$> seq 0 (NUM_PCS cfg);
     env_eid := NUM_PCS cfg;
     rng := g; next_id := 0;
     http_servers := (λ i, "Server" +:+ pretty (S i)) <$> seq 0 (NUM_SERVERS cfg);
     switches := switch_list cfg;
     pcs := new_PC <$> seq 0 (NUM_PCS cfg);
     data_loss := ByDiscipline 0%nat 0%nat;
     latencies := ByDiscipline [] [];
     delays := ByDiscipline [] [];
     overall_latencies := []; overall_delays := [];
     switch_stats := initial_stats cfg (switch_list cfg);
     stdout := [] |}.

(** ** What a callback leaves alone

    [extends s s']: the clock is the same, the schedule has only grown, by
    entries stamped with the next ids and not earlier than now; the names
    and the construction-time fields of the objects are the same; the
    statistics have only grown, and only under names of switches. *)
Definition blueprint (sw : switch) : switch := set_queue [] (set_users [] sw).

Definition evolves (sw sw' : switch) : Prop :=
  blueprint sw' = blueprint sw ∧
  (Z.of_nat (length (users sw)) ≤ sw_capacity sw →
   Z.of_nat (length (users sw')) ≤ sw_capacity sw').

Definition stat_extends (names : list string) (m m' : gmap string stat) : Prop :=
  ∀ name,
    match m !! name with
    | None => m' !! name = None
    | Some st =>
        ∃ st', m' !! name = Some st' ∧ utilization st' = utilization st ∧
               queue_lengths st `prefix_of` queue_lengths st' ∧
               (st' ≠ st → name ∈ names)
    end.

Definition entry_time (e : entry) : Z := e.1.1.1.

Definition entry_eid (e : entry) : nat := e.1.2.

Definition entry_event (e : entry) : event := e.2.

Record extends (s s' : state) : Prop := Extends {
  ext_now : env_now s' = env_now s;
  ext_queue : ∃ new,
    env_queue s' = env_queue s ++ new ∧
    env_eid s' = (env_eid s + length new)%nat ∧
    entry_eid <$> new = seq (env_eid s) (length new) ∧
    Forall (λ e, env_now s ≤ entry_time e) new;
  ext_servers : http_servers s' = http_servers s;
  ext_pcs : pc_name <$> pcs s' = pc_name <$> pcs s;
  ext_switches : Forall2 evolves (switches s) (switches s');
  ext_stats :
    stat_extends (sw_name <$> switches s) (switch_stats s) (switch_stats s')
}.

(** ** The basic invariant of the run *)
Record invariant (cfg : config) (s : state) : Prop := Invariant {
  inv_servers :
    http_servers s = (λ i, "Server" +:+ pretty (S i)) <$> seq 0 (NUM_SERVERS cfg);
  inv_pcs : pc_name <$> pcs s = (pc_name ∘ new_PC) <$> seq 0 (NUM_PCS cfg);
  inv_switches : Forall2 evolves (switch_list cfg) (switches s);
  inv_stats :
    stat_extends (sw_name <$> switch_list cfg)
      (initial_stats cfg (switch_list cfg)) (switch_stats s);
  inv_now : 0 ≤ env_now s;
  inv_time : Forall (λ e, env_now s ≤ entry_time e) (env_queue s);
  inv_eids : StronglySorted lt (entry_eid <$> env_queue s);
  inv_eid : Forall (λ e, (entry_eid e < env_eid s)%nat) (env_queue s)
}.

(** ** A bound on the length of the run

    Every event and every suspended generator is given the number of steps
    it can still cause: an iteration of [request_http] costs at most six
    steps (think time, grant, start of the handler, its timeout, its end,
    release). *)

Definition event_weight (ev : event) : nat :=
  match ev with
  | Initialize (ProcHandle _ _) => 3
  | Timeout (ProcHandle _ _) => 2
  | _ => 1
  end.

Definition frame_weight (cfg : config) (f : frame) : nat :=
  match f with
  | AtStart => 6 * NUM_REQUESTS cfg + 1
  | AtThink n => 6 * n + 6
  | AtRequest n _ _ _ _ => 6 * n + 5
  | AtService n _ _ _ _ _ => 6 * n + 2
  | Finished => 0
  end.

Definition potential (cfg : config) (s : state) : nat :=
  sum_list_with (event_weight ∘ entry_event) (env_queue s) +
  sum_list_with (length ∘ queue) (switches s) +
  sum_list_with (frame_weight cfg ∘ pc_frame) (pcs s).

(** [env.run()] with fuel that always suffices ([run_total]), followed by
    lines 122-126. *)
Definition env_run (cfg : config) (s : state) : result state :=
  match run cfg (S (potential cfg s)) s with
  | Some r => r
  | None => Raise RuntimeError
  end.

Definition main (cfg : config) (g : rng_state) : result (state * report) :=
  s ← setup cfg g;
  s ← env_run cfg s;
  r ← summary s;
  Ok (s, r).

(** ** Generators and the events that wake them

    [owner ev] is the PC whose generator the event will resume, now or
    through the events of the handler that follow it. *)
Definition owner (ev : event) : option nat :=
  match ev with
  | Initialize (ProcPC i) | Timeout (ProcPC i) => Some i
  | Initialize (ProcHandle _ i) | Timeout (ProcHandle _ i)
  | Process (ProcHandle _ i) => Some i
  | Request _ r => Some (req_proc r)
  | Release _ _ | Process (ProcPC _) => None
  end.

Definition owned (i : nat) (q : list entry) : list event :=
  filter (λ ev, owner ev = Some i) (entry_event <$> q).

Definition pending (i : nat) (s : state) : list event := owned i (env_queue s).

(** The request holds a slot of the switch / waits in its queue. *)
Definition held (sw : nat) (r : request) (s : state) : Prop :=
  ∃ switch, switches s !! sw = Some switch ∧ r ∈ users switch ∧ r ∉ queue switch.

Definition waiting (sw : nat) (r : request) (s : state) : Prop :=
  ∃ switch, switches s !! sw = Some switch ∧ r ∈ queue switch.

Definition frame_ok (i : nat) (f : frame) (s : state) : Prop :=
  match f with
  | AtStart => pending i s = [Initialize (ProcPC i)]
  | AtThink _ => pending i s = [Timeout (ProcPC i)]
  | AtRequest _ _ sw _ r =>
      req_proc r = i ∧
      ((pending i s = [Request sw r] ∧ held sw r s) ∨
       (pending i s = [] ∧ waiting sw r s))
  | AtService _ _ sw srv r _ =>
      req_proc r = i ∧ held sw r s ∧
      (pending i s = [Initialize (ProcHandle srv i)] ∨
       pending i s = [Timeout (ProcHandle srv i)] ∨
       pending i s = [Process (ProcHandle srv i)])
  | Finished => pending i s = []
  end.

Definition frames (s : state) : list frame := pc_frame <$> pcs s.

(** Every generator is suspended where the schedule and the switches say;
    every waiting request is the one its PC is suspended on. *)
Record consistent (s : state) : Prop := Consistent {
  con_frames : ∀ i f, frames s !! i = Some f → frame_ok i f s;
  con_owner : ∀ i, (length (frames s) ≤ i)%nat → pending i s = [];
  con_queue : ∀ sw switch r,
    switches s !! sw = Some switch → r ∈ queue switch →
    ∃ n rt srv, frames s !! req_proc r = Some (AtRequest n rt sw srv r);
  con_nodup : ∀ sw switch, switches s !! sw = Some switch → NoDup (queue switch)
}.

(** The generator of PC [i] is running: none of its requests waits, and the
    other generators are consistent. *)
Record running (i : nat) (s : state) : Prop := Running {
  run_frames : ∀ j f, j ≠ i → frames s !! j = Some f → frame_ok j f s;
  run_lt : (i < length (frames s))%nat;
  run_owner : ∀ j, (length (frames s) ≤ j)%nat → pending j s = [];
  run_queue : ∀ sw switch r,
    switches s !! sw = Some switch → r ∈ queue switch →
    req_proc r ≠ i ∧
    ∃ n rt srv, frames s !! req_proc r = Some (AtRequest n rt sw srv r);
  run_nodup : ∀ sw switch, switches s !! sw = Some switch → NoDup (queue switch)
}.

(** ** Runs that raise nothing *)
(** A configuration under which no statement of the run can raise. *)
Definition valid (cfg : config) : Prop :=
  (0 < FIFO_COUNT cfg + PRIORITY_COUNT cfg)%nat ∧ (0 < NUM_SERVERS cfg)%nat ∧
  0 ≤ (THINK_TIME cfg).1 ≤ (THINK_TIME cfg).2 ∧
  0 ≤ (SERVICE_TIME cfg).1 ≤ (SERVICE_TIME cfg).2.

(** A state of the run and a later one. *)
Inductive later (cfg : config) : state → state → Prop :=
  | later_now s : later cfg s s
  | later_step s s1 s2 :
      step cfg s = Some (Ok s1) → later cfg s1 s2 → later cfg s s2.

(** ** The run as a relation

    [Step] takes any entry of the schedule that no other entry precedes;
    [Run] repeats it until the schedule is empty or an exception is raised;
    [Simulation] is the program from line 93 to the return of line 119. *)
Definition least (e : entry) (q : list entry) : Prop :=
  ∀ x, x ∈ q → entry_leb e x = true.

Inductive Step (cfg : config) (s : state) : result state → Prop :=
  | Step_pop l1 e l2 :
      env_queue s = l1 ++ e :: l2 → least e (env_queue s) →
      Step cfg s
        (callbacks cfg (entry_event e)
           (set_env_now (entry_time e) (set_env_queue (l1 ++ l2) s))).

Inductive Run (cfg : config) : state → result state → Prop :=
  | Run_empty s : env_queue s = [] → Run cfg s (Ok s)
  | Run_raise s e : Step cfg s (Raise e) → Run cfg s (Raise e)
  | Run_step s s' r : Step cfg s (Ok s') → Run cfg s' r → Run cfg s r.

Definition Simulation (cfg : config) (g : rng_state) (r : result state) : Prop :=
  match setup cfg g with
  | Raise e => r = Raise e
  | Ok s => Run cfg s r
  end.

(** ** Exceptions of the program *)
Definition raised_by_program (e : exn) : Prop :=
  e = ValueError ∨ e = IndexError ∨ e = KeyError ∨ e = RuntimeError.

(** The configurations the specification calls invalid. *)
Definition invalid (cfg : config) : Prop :=
  (FIFO_COUNT cfg + PRIORITY_COUNT cfg = 0)%nat ∨ SWITCH_CAPACITY cfg ≤ 0 ∨
  (THINK_TIME cfg).1 < 0 ∨ (THINK_TIME cfg).2 < (THINK_TIME cfg).1 ∨
  (SERVICE_TIME cfg).1 < 0 ∨ (SERVICE_TIME cfg).2 < (SERVICE_TIME cfg).1.

(** The think time that [request_http] draws first in a run from [g]. *)
Definition first_think_time (cfg : config) (g : rng_state) : Z :=
  (THINK_TIME cfg).1 * TENTH +
  ((THINK_TIME cfg).2 - (THINK_TIME cfg).1) * (rng_random g).1.

(** C9 as the specification states it: one success, a latency in
    [0.5, 1.5), a delay that is at least the latency and includes the think
    time that preceded the request. *)
Definition scenario_as_stated (g : rng_state) : Prop :=
  ∃ s latency delay,
    env_run scenario (initial_state scenario g) = Ok s ∧
    total_successes s = 1%nat ∧
    overall_latencies s = [latency] ∧ overall_delays s = [delay] ∧
    5 * TENTH ≤ latency < 15 * TENTH ∧
    latency ≤ delay ∧
    first_think_time scenario g + latency ≤ delay.

(** ** The order of the put queues *)
(** The [key] of a request is not after that of another. *)
Definition key_le (a b : request) : Prop :=
  key_leb (sort_key a) (sort_key b) = true.

(** The request was made with the defaults [priority=0, preempt=True], not
    after [now]. *)
Definition default_key (now : Z) (r : request) : Prop :=
  ∃ t, req_key r = Some (0, t, false) ∧ t ≤ now.

(** The requests were made in the order of their ids. *)
Definition arrived_before (a b : request) : Prop := (req_id a < req_id b)%nat.

(** The put queue of a switch at the time [now], [next] being the id of the
    next request: the waiting requests are in the order in which they were
    made, and those of a [PriorityQueue] have default keys, in order. *)
Record arrival_order (now : Z) (next : nat) (sw : switch) : Prop := ArrivalOrder {
  arr_class :
    sw_put_queue sw =
    match sw_class sw with FIFO => PlainList | Priority => SortedQueue end;
  arr_keys : sw_class sw = Priority → Forall (default_key now) (queue sw);
  arr_sorted : sw_class sw = Priority → StronglySorted key_le (queue sw);
  arr_ids : StronglySorted arrived_before (queue sw);
  arr_next : Forall (λ r, (req_id r < next)%nat) (queue sw)
}.

Definition ordered (s : state) : Prop :=
  Forall (arrival_order (env_now s) (next_id s)) (switches s).

(** The waiter that FIFO order grants: the one whose request was made
    first. *)
Definition first_arrival (q : list request) : option request :=
  foldr (λ r acc,
           match acc with
           | Some r' => if decide (req_id r' < req_id r)%nat then Some r' else Some r
           | None => Some r
           end) None q.

(** The waiter that priority order grants: the one of the smallest priority,
    the earlier request among equal priorities. *)
Definition priority_of (r : request) : Z := (sort_key r).1.1.

Definition priority_choice (q : list request) : option request :=
  foldr (λ r acc,
           match acc with
           | Some r' =>
               if decide (priority_of r' < priority_of r ∨
                          (priority_of r' = priority_of r ∧
                           (req_id r' < req_id r)%nat))
               then Some r' else Some r
           | None => Some r
           end) None q.

(** The state after [k] steps, when none of them raises and the schedule
    does not run empty before. *)
Fixpoint steps (cfg : config) (k : nat) (s : state) : option state :=
  match k with
  | O => Some s
  | S k =>
      match step cfg s with
      | Some (Ok s') => steps cfg k s'
      | _ => None
      end
  end.

(** The state [k] steps after lines 93-116 (the state after these lines when
    the run does not get that far). *)
Definition state_after (cfg : config) (g : rng_state) (k : nat) : state :=
  default (initial_state cfg g) (steps cfg k (initial_state cfg g)).

(** C7 as the specification states it: an invalid configuration is refused
    when the simulation is constructed. *)
Definition construction_as_stated (cfg : config) (g : rng_state) : Prop :=
  invalid cfg → setup cfg g = Raise ConfigurationError.

(** ** The figures of the run

    The counters and the sample lists that lines 50-52 and 60-68 update. *)
Definition metrics (s : state) :
    by_discipline nat * by_discipline (list Z) * by_discipline (list Z) *
    list Z * list Z * list nat :=
  (data_loss s, latencies s, delays s, overall_latencies s, overall_delays s,
   successful_requests <$> pcs s).

(** A time drawn by [uniform] from the range [ab], given in tenths. *)
Definition in_range (ab : Z * Z) (t : Z) : Prop :=
  ab.1 * TENTH ≤ t ≤ ab.2 * TENTH ∧ (ab.1 < ab.2 → t < ab.2 * TENTH).

(** ** Where the generators go

    The frame in which [request_http] is suspended at the head of the loop
    with [n] iterations to go (line 35), or after the loop. *)
Definition next_frame (n : nat) : frame :=
  match n with O => Finished | S n' => AtThink n' end.

(** The entry is not an event of a [handle_request] process. *)
Definition outside_handler (e : entry) : Prop :=
  match entry_event e with
  | Initialize (ProcHandle _ _) | Timeout (ProcHandle _ _)
  | Process (ProcHandle _ _) => False
  | _ => True
  end.

(** ** The times of the samples

    An entry of the handler that PC [i] started at [st]: its start is
    scheduled at [st], its timeout and its end a service time later. *)
Definition handler_entry (cfg : config) (i : nat) (st : Z) (e : entry) : Prop :=
  match entry_event e with
  | Initialize (ProcHandle _ j) => j = i → entry_time e = st
  | Timeout (ProcHandle _ j) | Process (ProcHandle _ j) =>
      j = i → in_range (SERVICE_TIME cfg) (entry_time e - st)
  | _ => True
  end.

Record timed (cfg : config) (s : state) : Prop := Timed {
  tim_request : ∀ i n rt sw srv r,
    frames s !! i = Some (AtRequest n rt sw srv r) → rt ≤ env_now s;
  tim_service : ∀ i n rt sw srv r st,
    frames s !! i = Some (AtService n rt sw srv r st) →
    rt ≤ st ∧ Forall (handler_entry cfg i st) (env_queue s)
}.

(** The recorded samples: every latency is a service time, and no delay is
    shorter than its latency. *)
Definition sampled (cfg : config) (latency delay : list Z) : Prop :=
  Forall (in_range (SERVICE_TIME cfg)) latency ∧ Forall2 Z.le latency delay.

Record bounded (cfg : config) (s : state) : Prop := Bounded {
  bnd_overall : sampled cfg (overall_latencies s) (overall_delays s);
  bnd_class : ∀ d, sampled cfg (get d (latencies s)) (get d (delays s))
}.

(** No generator is in the handler. *)
Definition no_service (s : state) : Prop :=
  ∀ i n rt sw srv r st, frames s !! i ≠ Some (AtService n rt sw srv r st).

(** ** How the program ends *)
(** Every generator is before its first request: the schedule holds the
    starts of the generators and their first think times, which satisfy
    [P]. *)
Definition thinking (P : Z → Prop) (s : state) : Prop :=
  Forall (λ f, f = AtStart ∨ ∃ n, f = AtThink n) (frames s) ∧
  Forall (λ e, (∃ i, entry_event e = Initialize (ProcPC i)) ∨
               ((∃ i, entry_event e = Timeout (ProcPC i)) ∧ P (entry_time e)))
    (env_queue s).

(** Nothing has been scheduled with a delay, and nothing will be: the
    schedule holds starts and ends of generators at time 0. *)
Definition idle (cfg : config) (s : state) : Prop :=
  env_now s = 0 ∧
  (NUM_REQUESTS cfg = 0%nat ∨ env_queue s = []) ∧
  Forall (λ e, entry_time e = 0 ∧
               ∃ i, entry_event e = Initialize (ProcPC i) ∨
                    entry_event e = Process (ProcPC i))
    (env_queue s).

(** ** The account of the requests *)
(** The requests that a generator has still to resolve, the one it is
    working on included. *)
Definition remaining (cfg : config) (f : frame) : nat :=
  match f with
  | AtStart => NUM_REQUESTS cfg
  | AtThink n | AtRequest n _ _ _ _ | AtService n _ _ _ _ _ => S n
  | Finished => 0
  end.

(** The requests counted as lost, of both disciplines. *)
Definition total_losses (s : state) : nat :=
  (get FIFO (data_loss s) + get Priority (data_loss s))%nat.

(** ** The slots of the switches *)
(** [_trigger_put] on the switches [l]: the head of the put queue of switch
    [sw] is granted a slot when one is free, and its [Request] is scheduled
    at [t]. *)
Definition grant (sw : nat) (t : Z) (eid : nat) (l l' : list switch)
    (new : list entry) : Prop :=
  (l' = l ∧ new = [] ∧
   ∀ switch, l !! sw = Some switch →
     queue switch = [] ∨ sw_capacity switch ≤ Z.of_nat (length (users switch))) ∨
  (∃ switch r q,
     l !! sw = Some switch ∧ queue switch = r :: q ∧
     Z.of_nat (length (users switch)) < sw_capacity switch ∧
     l' = <[sw := set_queue q (set_users (users switch ++ [r]) switch)]> l ∧
     new = [(t + 0, NORMAL, eid, Request sw r)]).

(** The end of the [with] block of a request that holds a slot. *)
Definition release (sw : nat) (r : request) (l l' : list switch) : Prop :=
  ∃ switch,
    l !! sw = Some switch ∧ r ∈ users switch ∧ (r ∉ queue switch) ∧
    l' = <[sw := set_users (list_remove r (users switch)) switch]> l.

(** The generator suspended in the frame has asked switch [sw] for a slot
    with the request [r]. *)
Definition holds (f : frame) (sw : nat) (r : request) : Prop :=
  match f with
  | AtRequest _ _ sw' _ r' | AtService _ _ sw' _ r' _ => sw' = sw ∧ r' = r
  | _ => False
  end.

(** The users of a switch are requests of suspended generators, each once
    and none of them waiting as well; where a request waits, a slot is held
    or a release is still to be processed. *)
Record occupied (s : state) : Prop := Occupied {
  occ_owner : ∀ sw switch r,
    switches s !! sw = Some switch → r ∈ users switch →
    (r ∉ queue switch) ∧ ∃ f, frames s !! req_proc r = Some f ∧ holds f sw r;
  occ_nodup : ∀ sw switch,
    switches s !! sw = Some switch → NoDup (users switch);
  occ_busy : ∀ sw switch,
    switches s !! sw = Some switch → queue switch ≠ [] →
    users switch ≠ [] ∨
    ∃ e r, e ∈ env_queue s ∧ entry_event e = Release sw r
}.

(** ** The response lines *)
(** The handlers that have printed their line and whose PC has not resumed
    yet. *)
Definition response_of (e : entry) : nat :=
  match entry_event e with
  | Process (ProcHandle _ _) => 1
  | _ => 0
  end.

Definition responses_due (s : state) : nat :=
  sum_list_with response_of (env_queue s).

(** The time printed in a response line. *)
Definition line_time (l : line) : Z := l.2.

(** C8 as the specification states it: the summarization returns, with the
    mean of each sample sequence, 0 for an empty one. *)
Definition summarization_as_stated (s : state) : Prop :=
  ∃ rep, summary s = Ok rep ∧
    average_latency_fifo rep = average (get FIFO (latencies s)) ∧
    average_latency_priority rep = average (get Priority (latencies s)) ∧
    average_delay_fifo rep = average (get FIFO (delays s)) ∧
    average_delay_priority rep = average (get Priority (delays s)).

(** No handler has got past its start, and no request has succeeded. *)
Definition before_service (e : entry) : Prop :=
  match entry_event e with
  | Timeout (ProcHandle _ _) | Process (ProcHandle _ _) => False
  | _ => True
  end.

Definition unserved (s : state) : Prop :=
  Forall before_service (env_queue s) ∧ total_successes s = 0%nat.

End Simulation.

(** ** Configurations and seeds used in the examples *)

(** The scenario with the loss probability of the program, 0.1. *)
Definition lossy : config := {|
  NUM_REQUESTS := 1; NUM_PCS := 1; NUM_SERVERS := 1; NUM_SWITCHES := 1;
  FIFO_COUNT := 1; PRIORITY_COUNT := 0; SWITCH_CAPACITY := 1;
  THINK_TIME := (1, 5); SERVICE_TIME := (5, 15); LOSS_PROBABILITY := 1
|}.

(** Three PCs that share one priority switch. *)
Definition contended : config := {|
  NUM_REQUESTS := 1; NUM_PCS := 3; NUM_SERVERS := 1; NUM_SWITCHES := 1;
  FIFO_COUNT := 0; PRIORITY_COUNT := 1; SWITCH_CAPACITY := 1;
  THINK_TIME := (1, 5); SERVICE_TIME := (5, 15); LOSS_PROBABILITY := 1
|}.

(** The program with other constants in lines 12-14 and other literals in
    line 35. *)
Definition no_queues : config := {|
  NUM_REQUESTS := 50; NUM_PCS := 30; NUM_SERVERS := 3; NUM_SWITCHES := 12;
  FIFO_COUNT := 0; PRIORITY_COUNT := 0; SWITCH_CAPACITY := 1;
  THINK_TIME := (1, 5); SERVICE_TIME := (5, 15); LOSS_PROBABILITY := 1
|}.

Definition no_capacity : config := {|
  NUM_REQUESTS := 50; NUM_PCS := 30; NUM_SERVERS := 3; NUM_SWITCHES := 12;
  FIFO_COUNT := 8; PRIORITY_COUNT := 8; SWITCH_CAPACITY := 0;
  THINK_TIME := (1, 5); SERVICE_TIME := (5, 15); LOSS_PROBABILITY := 1
|}.

Definition negative_think : config := {|
  NUM_REQUESTS := 50; NUM_PCS := 30; NUM_SERVERS := 3; NUM_SWITCHES := 12;
  FIFO_COUNT := 8; PRIORITY_COUNT := 8; SWITCH_CAPACITY := 1;
  THINK_TIME := (-5, -1); SERVICE_TIME := (5, 15); LOSS_PROBABILITY := 1
|}.

(** The scenario with a loss probability of 1, and the program with a quota
    of no request. *)
Definition all_lost : config := {|
  NUM_REQUESTS := 1; NUM_PCS := 1; NUM_SERVERS := 1; NUM_SWITCHES := 1;
  FIFO_COUNT := 1; PRIORITY_COUNT := 0; SWITCH_CAPACITY := 1;
  THINK_TIME := (1, 5); SERVICE_TIME := (5, 15); LOSS_PROBABILITY := 10
|}.

Definition no_requests : config := {|
  NUM_REQUESTS := 0; NUM_PCS := 30; NUM_SERVERS := 3; NUM_SWITCHES := 12;
  FIFO_COUNT := 8; PRIORITY_COUNT := 8; SWITCH_CAPACITY := 1;
  THINK_TIME := (1, 5); SERVICE_TIME := (5, 15); LOSS_PROBABILITY := 1
|}.

(** The program with a service-time range below 0. *)
Definition negative_service : config := {|
  NUM_REQUESTS := 50; NUM_PCS := 30; NUM_SERVERS := 3; NUM_SWITCHES := 12;
  FIFO_COUNT := 8; PRIORITY_COUNT := 8; SWITCH_CAPACITY := 1;
  THINK_TIME := (1, 5); SERVICE_TIME := (-15, -5); LOSS_PROBABILITY := 1
|}.

(** Raw values of the generator.  [seed]: a think time of 0.3, switch 0,
    server 0, a loss draw of 0.5 and a service time of 1.0.  [seed_lost]:
    the same think time, then zeros, so that the loss draw is 0.
    [seed_contended]: three think times of 0.3. *)
Definition seed : list Z := [2 ^ 52; 0; 0; 2 ^ 52; 2 ^ 52].
Definition seed_lost : list Z := [2 ^ 52].
Definition seed_contended : list Z := [2 ^ 52; 2 ^ 52; 2 ^ 52].

(** For the 30 PCs of the program: think times of 0.1, switch 0 and server 0
    for everyone, then a loss draw of 0.5 for the first request. *)
Definition seed_served : list Z := replicate 90 0 ++ [2 ^ 52].

(** The requests of the examples. *)
Definition request0 : request :=
  {| req_id := 0; req_proc := 0; req_key := None |}.
Definition waiter (i : nat) : request :=
  {| req_id := i; req_proc := i; req_key := Some (0, 3 * TENTH, false) |}.

(** * Properties *)

Section Properties.
Context `{R : RandomSource}.

Lemma entry_leb_true a b :
  entry_leb a b = true ↔
  a.1.1.1 < b.1.1.1 ∨
  (a.1.1.1 = b.1.1.1 ∧
   (a.1.1.2 < b.1.1.2 ∨ (a.1.1.2 = b.1.1.2 ∧ (a.1.2 ≤ b.1.2)%nat))).
Proof.
  destruct a as [[[ta pa] ia] ea], b as [[[tb pb] ib] eb]; simpl.
  rewrite !orb_true_iff, !andb_true_iff, !orb_true_iff, !andb_true_iff.
  rewrite !Z.ltb_lt, !Z.eqb_eq, Nat.leb_le. tauto.
Qed.

Lemma entry_leb_false a b : entry_leb a b = false → entry_leb b a = true.
Proof.
  intros H. apply entry_leb_true.
  destruct (entry_leb a b) eqn:E; [done|].
  assert (¬ entry_leb a b = true) as N by (rewrite E; done).
  rewrite entry_leb_true in N. lia.
Qed.

Lemma entry_leb_trans a b c :
  entry_leb a b = true → entry_leb b c = true → entry_leb a c = true.
Proof. rewrite !entry_leb_true. lia. Qed.

Lemma entry_leb_refl a : entry_leb a a = true.
Proof. rewrite entry_leb_true. lia. Qed.

Lemma heappop_None q : heappop q = None ↔ q = [].
Proof.
  destruct q as [|x q]; simpl; [done|].
  destruct (heappop q) as [[m rest]|]; [|done].
  destruct (entry_leb x m); done.
Qed.

Lemma heappop_Some q m rest :
  heappop q = Some (m, rest) →
  ∃ l1 l2, q = l1 ++ m :: l2 ∧ rest = l1 ++ l2 ∧
           ∀ x, x ∈ q → entry_leb m x = true.
Proof.
  revert m rest. induction q as [|x q IH]; intros m rest; simpl; [done|].
  destruct (heappop q) as [[m' rest']|] eqn:E.
  - destruct (IH _ _ eq_refl) as (l1 & l2 & -> & -> & Hmin).
    destruct (entry_leb x m') eqn:Hx; intros [= <- <-].
    + exists [], (l1 ++ m' :: l2). split_and!; [done..|].
      intros y [->|Hy]%elem_of_cons; [apply entry_leb_refl|].
      eapply entry_leb_trans; [exact Hx|]. by apply Hmin.
    + exists (x :: l1), l2. split_and!; [done..|].
      intros y [->|Hy]%elem_of_cons; [by apply entry_leb_false|].
      by apply Hmin.
  - apply heappop_None in E as ->. intros [= <- <-].
    exists [], []. split_and!; [done..|].
    intros y ->%list_elem_of_singleton. apply entry_leb_refl.
Qed.

(** Inversion of the error monad. *)
Lemma bind_Ok {A B} (m : result A) (f : A → result B) b :
  m ≫= f = Ok b → ∃ a, m = Ok a ∧ f a = Ok b.
Proof. destruct m; simpl; [eauto|done]. Qed.

Ltac inv_bind H :=
  let a := fresh "a" in let Ha := fresh "Ha" in
  apply bind_Ok in H as (a & Ha & H).

Lemma length_list_remove r l : (length (list_remove r l) ≤ length l)%nat.
Proof. induction l as [|x l IH]; simpl; [lia|]. case_decide; simpl; lia. Qed.

Lemma choice_Ok {A} (l : list A) s i s' :
  choice l s = Ok (i, s') →
  is_Some (l !! i) ∧ s' = set_rng (rng_randbelow (length l) (rng s)).2 s.
Proof.
  unfold choice. destruct l as [|x l]; [done|].
  destruct (rng_randbelow _ _) as [j g]. 
  destruct (_ !! j) eqn:E; [|done]. intros [= <- <-]. eauto.
Qed.

Lemma mapM_new_switch c prefix C l :
  mapM (λ i, new_switch c (prefix +:+ pretty (S i)) C) l =
  if decide (C ≤ 0 ∧ l ≠ []) then Raise ValueError
  else Ok (built c prefix C <$> l).
Proof.
  induction l as [|i l IH]; simpl.
  - case_decide as H; [by destruct H as [_ []]|reflexivity].
  - rewrite IH. unfold new_switch.
    destruct (decide (C ≤ 0)) as [HC|HC].
    + rewrite (decide_True (P := C ≤ 0 ∧ i :: l ≠ [])) by done. reflexivity.
    + rewrite (decide_False (P := C ≤ 0 ∧ l ≠ [])) by tauto.
      rewrite (decide_False (P := C ≤ 0 ∧ i :: l ≠ [])) by tauto. reflexivity.
Qed.

Lemma create_pcs_eq cfg s :
  create_pcs cfg s =
  set_env_eid (env_eid s + NUM_PCS cfg)%nat
    (set_env_queue
       (env_queue s ++
        ((λ i, (env_now s + 0, URGENT, (env_eid s + i)%nat, Initialize (ProcPC i)))
           <$> seq 0 (NUM_PCS cfg)))
       (set_pcs (pcs s ++ (new_PC <$> seq 0 (NUM_PCS cfg))) s)).
Proof.
  unfold create_pcs. induction (NUM_PCS cfg) as [|n IH].
  - destruct s; unfold set_env_eid, set_env_queue, set_pcs; simpl.
    rewrite !app_nil_r, Nat.add_0_r. done.
  - rewrite seq_S, foldl_app, IH. simpl.
    unfold schedule, set_env_eid, set_env_queue, set_pcs; simpl.
    rewrite !fmap_app, !app_assoc. simpl. f_equal. lia.
Qed.

Lemma seq_nil_iff n : seq 0 n = [] ↔ n = 0%nat.
Proof. destruct n; simpl; split; done. Qed.

Lemma setup_eq cfg g :
  setup cfg g =
  if decide (SWITCH_CAPACITY cfg ≤ 0 ∧ (0 < FIFO_COUNT cfg + PRIORITY_COUNT cfg)%nat)
  then Raise ValueError else Ok (initial_state cfg g).
Proof.
  unfold setup, FIFOQueue, PriorityQueue.
  rewrite !mapM_new_switch.
  pose proof (seq_nil_iff (FIFO_COUNT cfg)) as Hf.
  pose proof (seq_nil_iff (PRIORITY_COUNT cfg)) as Hp.
  destruct (decide (SWITCH_CAPACITY cfg ≤ 0 ∧ seq 0 (FIFO_COUNT cfg) ≠ []))
    as [[HC Hne]|Hn1]; simpl.
  { rewrite decide_True; [done|]. split; [done|]. rewrite Hf in Hne. lia. }
  destruct (decide (SWITCH_CAPACITY cfg ≤ 0 ∧ seq 0 (PRIORITY_COUNT cfg) ≠ []))
    as [[HC Hne]|Hn2]; simpl.
  { rewrite decide_True; [done|]. split; [done|]. rewrite Hp in Hne. lia. }
  rewrite decide_False.
  2:{ intros [HC Hpos]. destruct (decide (FIFO_COUNT cfg = 0%nat)) as [E|E].
      - apply Hn2. split; [done|]. rewrite Hp. lia.
      - apply Hn1. split; [done|]. by rewrite Hf. }
  rewrite create_pcs_eq. reflexivity.
Qed.

Lemma evolves_refl sw : evolves sw sw.
Proof. by split. Qed.

Lemma evolves_trans a b c : evolves a b → evolves b c → evolves a c.
Proof.
  intros [E1 H1] [E2 H2]. split; [congruence|]. auto.
Qed.

Lemma evolves_name a b : evolves a b → sw_name b = sw_name a.
Proof. intros [E _]. by injection E. Qed.

Lemma Forall2_evolves_refl l : Forall2 evolves l l.
Proof. induction l; constructor; auto using evolves_refl. Qed.

Lemma Forall2_evolves_trans l1 l2 l3 :
  Forall2 evolves l1 l2 → Forall2 evolves l2 l3 → Forall2 evolves l1 l3.
Proof.
  intros H. revert l3. induction H; inversion 1; subst; constructor;
    eauto using evolves_trans.
Qed.

Lemma Forall2_evolves_names l l' :
  Forall2 evolves l l' → sw_name <$> l' = sw_name <$> l.
Proof. induction 1; simpl; [done|]. f_equal; auto using evolves_name. Qed.

Lemma evolves_insert l i sw sw' :
  l !! i = Some sw → evolves sw sw' → Forall2 evolves l (<[i:=sw']> l).
Proof.
  revert i. induction l as [|x l IH]; intros [|i]; simpl; try done.
  - intros [= ->] H. constructor; auto using Forall2_evolves_refl.
  - intros Hi H. constructor; auto using evolves_refl.
Qed.

Lemma evolves_alter l i f :
  (∀ sw, evolves sw (f sw)) → Forall2 evolves l (alter f i l).
Proof.
  intros Hf. revert i. induction l as [|x l IH]; intros [|i].
  - constructor.
  - constructor.
  - constructor; auto using Forall2_evolves_refl.
  - constructor; [apply evolves_refl|apply IH].
Qed.

Lemma stat_extends_refl names m : stat_extends names m m.
Proof.
  intros name. destruct (m !! name) as [st|] eqn:E; [|done].
  exists st. split_and!; done.
Qed.

Lemma stat_extends_trans names m1 m2 m3 :
  stat_extends names m1 m2 → stat_extends names m2 m3 →
  stat_extends names m1 m3.
Proof.
  intros H1 H2 name. specialize (H1 name). specialize (H2 name).
  destruct (m1 !! name) as [st1|].
  - destruct H1 as (st2 & E2 & U2 & P2 & N2). rewrite E2 in H2.
    destruct H2 as (st3 & E3 & U3 & P3 & N3).
    exists st3. split_and!; [done|congruence|by etrans|].
    intros Hne. destruct (decide (st2 = st1)) as [->|]; auto.
  - by rewrite H1 in H2.
Qed.

Lemma extends_refl s : extends s s.
Proof.
  split; try done.
  - exists []. rewrite app_nil_r, Nat.add_0_r. by split_and!.
  - apply Forall2_evolves_refl.
  - apply stat_extends_refl.
Qed.

Lemma extends_trans s1 s2 s3 : extends s1 s2 → extends s2 s3 → extends s1 s3.
Proof.
  intros [N1 (n1 & Q1 & I1 & S1 & T1) H1 P1 W1 M1]
         [N2 (n2 & Q2 & I2 & S2 & T2) H2 P2 W2 M2].
  split; try congruence.
  - exists (n1 ++ n2). rewrite Q2, Q1, I2, I1, length_app, fmap_app, seq_app.
    rewrite S1, S2, I1, <-!app_assoc. split_and!; [done|lia|done|].
    apply Forall_app. split; [done|]. by rewrite <-N1.
  - by eapply Forall2_evolves_trans.
  - eapply stat_extends_trans; [done|].
    by rewrite <-(Forall2_evolves_names _ _ W1).
Qed.

Lemma extends_same s s' :
  env_now s' = env_now s → env_queue s' = env_queue s →
  env_eid s' = env_eid s → http_servers s' = http_servers s →
  pc_name <$> pcs s' = pc_name <$> pcs s → switches s' = switches s →
  switch_stats s' = switch_stats s → extends s s'.
Proof.
  intros N Q I H P W M. split; try done.
  - exists []. rewrite app_nil_r, Nat.add_0_r. by split_and!.
  - rewrite W. apply Forall2_evolves_refl.
  - rewrite M. apply stat_extends_refl.
Qed.

Lemma extends_switches s l :
  Forall2 evolves (switches s) l → extends s (set_switches l s).
Proof.
  intros H. split; try done.
  - exists []. simpl. rewrite app_nil_r, Nat.add_0_r. by split_and!.
  - apply stat_extends_refl.
Qed.

Lemma extends_rng g s : extends s (set_rng g s).
Proof. by apply extends_same. Qed.

Lemma extends_next_id n s : extends s (set_next_id n s).
Proof. by apply extends_same. Qed.

Lemma extends_data_loss v s : extends s (set_data_loss v s).
Proof. by apply extends_same. Qed.

Lemma extends_latencies v s : extends s (set_latencies v s).
Proof. by apply extends_same. Qed.

Lemma extends_delays v s : extends s (set_delays v s).
Proof. by apply extends_same. Qed.

Lemma extends_overall_latencies v s : extends s (set_overall_latencies v s).
Proof. by apply extends_same. Qed.

Lemma extends_overall_delays v s : extends s (set_overall_delays v s).
Proof. by apply extends_same. Qed.

Lemma extends_stdout v s : extends s (set_stdout v s).
Proof. by apply extends_same. Qed.

Lemma schedule_extends ev p d s : 0 ≤ d → extends s (schedule ev p d s).
Proof.
  intros Hd. split; try done.
  - exists [(env_now s + d, p, env_eid s, ev)]. simpl.
    split_and!; [done|lia|done|]. constructor; [|done].
    unfold entry_time. simpl. lia.
  - apply Forall2_evolves_refl.
  - apply stat_extends_refl.
Qed.

Lemma pc_name_alter f i (l : list PC) :
  (∀ p, pc_name (f p) = pc_name p) → pc_name <$> alter f i l = pc_name <$> l.
Proof.
  intros Hf. revert i. induction l as [|x l IH]; intros [|i]; simpl; try done.
  - by rewrite Hf.
  - f_equal. apply IH.
Qed.

Lemma set_pc_frame_extends i f s : extends s (set_pc_frame i f s).
Proof. apply extends_same; try done. by apply pc_name_alter. Qed.

Lemma trigger_put_extends i s : extends s (trigger_put i s).
Proof.
  unfold trigger_put.
  destruct (switches s !! i) as [sw|] eqn:Hi; [|apply extends_refl].
  destruct (queue sw) as [|r q]; [apply extends_refl|].
  case_decide as Hlt; [|apply extends_refl].
  eapply extends_trans; [|by apply schedule_extends].
  apply extends_switches. eapply evolves_insert; [done|].
  split; [done|]. simpl. rewrite length_app. simpl. lia.
Qed.

Lemma switch_request_extends i pc s r s' :
  switch_request i pc s = Ok (r, s') → extends s s'.
Proof.
  unfold switch_request.
  destruct (switches s !! i) as [sw|] eqn:Hi; [|done]. intros [= <- <-].
  eapply extends_trans; [|apply trigger_put_extends].
  eapply extends_trans;
    [|apply extends_next_id].
  apply extends_switches. eapply evolves_insert; [done|by split].
Qed.

Lemma request_exit_extends i r s : extends s (request_exit i r s).
Proof.
  unfold request_exit, switch_release, cancel.
  eapply extends_trans; [|by apply schedule_extends].
  eapply extends_trans; apply extends_switches; apply evolves_alter.
  - by split.
  - intros sw. split; [done|]. simpl.
    pose proof (length_list_remove r (users sw)). lia.
Qed.

Lemma record_queue_length_extends name n s s' :
  record_queue_length name n s = Ok s' →
  name ∈ sw_name <$> switches s → extends s s'.
Proof.
  unfold record_queue_length.
  destruct (switch_stats s !! name) as [st|] eqn:E; [|done].
  intros [= <-] Hname. split; try done.
  - exists []. simpl. rewrite app_nil_r, Nat.add_0_r. by split_and!.
  - apply Forall2_evolves_refl.
  - intros k. simpl. destruct (decide (k = name)) as [->|Hk].
    + rewrite E, lookup_insert_eq. eexists. split_and!; [done|done| |done].
      simpl. by apply prefix_app_r.
    + rewrite lookup_insert_ne by done.
      destruct (switch_stats s !! k) as [st'|]; [|done].
      exists st'. by split_and!.
Qed.

Lemma uniform_rng ab s : (uniform ab s).2 = set_rng (rng_random (rng s)).2 s.
Proof. unfold uniform, random. by destruct (rng_random (rng s)). Qed.

Lemma random_rng s : (random s).2 = set_rng (rng_random (rng s)).2 s.
Proof. unfold random. by destruct (rng_random (rng s)). Qed.

Lemma timeout_extends p d s s' : timeout p d s = Ok s' → extends s s'.
Proof.
  unfold timeout. case_decide; [done|]. intros [= <-].
  apply schedule_extends. lia.
Qed.

Lemma request_http_loop_extends cfg i n s s' :
  request_http_loop cfg i n s = Ok s' → extends s s'.
Proof.
  unfold request_http_loop. destruct n as [|n].
  - intros [= <-]. eapply extends_trans; [|by apply schedule_extends].
    apply set_pc_frame_extends.
  - pose proof (uniform_rng (THINK_TIME cfg) s) as Hu.
    destruct (uniform (THINK_TIME cfg) s) as [d s1]. simpl in Hu. subst s1.
    intros H. inv_bind H. injection H as <-.
    eapply extends_trans; [|apply set_pc_frame_extends].
    eapply extends_trans; [|by eapply timeout_extends].
    apply extends_rng.
Qed.

Lemma request_http_issue_extends i n s s' :
  request_http_issue i n s = Ok s' → extends s s'.
Proof.
  unfold request_http_issue. intros H.
  inv_bind H. destruct a as [sw s1]. apply choice_Ok in Ha as [_ ->].
  inv_bind H. destruct a as [srv s2]. apply choice_Ok in Ha as [_ ->].
  simpl in H. destruct (switches s !! sw) as [switch|] eqn:Hsw; [|done].
  inv_bind H. inv_bind H. destruct a0 as [r s3]. injection H as <-.
  eapply extends_trans; [|apply set_pc_frame_extends].
  eapply extends_trans; [|by eapply switch_request_extends].
  eapply extends_trans; [|eapply record_queue_length_extends; [done|]].
  - eapply extends_trans; apply extends_rng.
  - simpl. apply list_elem_of_fmap. exists switch. split; [done|].
    by eapply list_elem_of_lookup_2.
Qed.

Lemma count_loss_extends sw s : extends s (count_loss sw s).
Proof.
  unfold count_loss. destruct (class_of sw s); [|apply extends_refl].
  apply extends_data_loss.
Qed.

Lemma request_http_extends cfg i s s' :
  request_http cfg i s = Ok s' → extends s s'.
Proof.
  unfold request_http. destruct (pcs s !! i) as [p|]; [|done].
  destruct (pc_frame p) as [|n|n rt sw srv r|n rt sw srv r st|]; [| | | |done].
  - apply request_http_loop_extends.
  - apply request_http_issue_extends.
  - unfold request_http_granted.
    pose proof (random_rng s) as Hr. destruct (random s) as [k s1].
    simpl in Hr. subst s1. case_decide as Hloss.
    + intros H. eapply extends_trans; [|by eapply request_http_loop_extends].
      eapply extends_trans; [|apply request_exit_extends].
      eapply extends_trans; [|apply count_loss_extends].
      apply extends_rng.
    + intros [= <-]. eapply extends_trans; [|apply set_pc_frame_extends].
      eapply extends_trans; [|by apply schedule_extends].
      apply extends_rng.
  - unfold request_http_served. intros H.
    eapply extends_trans; [|by eapply request_http_loop_extends].
    eapply extends_trans; [|apply request_exit_extends].
    unfold record_sample.
    eapply extends_trans; [|apply extends_delays].
    eapply extends_trans; [|apply extends_latencies].
    eapply extends_trans; [|apply extends_overall_delays].
    eapply extends_trans; [|apply extends_overall_latencies].
    apply extends_same; try done. simpl. by apply pc_name_alter.
Qed.

Lemma callbacks_extends cfg ev s s' :
  callbacks cfg ev s = Ok s' → extends s s'.
Proof.
  destruct ev as [[i|srv i]|[i|srv i]|sw r|sw r|[i|srv i]]; simpl;
    try apply request_http_extends.
  - unfold handle_request_begin.
    pose proof (uniform_rng (SERVICE_TIME cfg) s) as Hu.
    destruct (uniform (SERVICE_TIME cfg) s) as [d s1]. simpl in Hu. subst s1.
    intros H. eapply extends_trans; [|by eapply timeout_extends].
    apply extends_rng.
  - intros [= <-]. unfold handle_request_end.
    eapply extends_trans; [|by apply schedule_extends].
    apply extends_stdout.
  - intros [= <-]. apply trigger_put_extends.
  - intros [= <-]. apply extends_refl.
Qed.

(** A step: the least entry leaves the schedule, the clock moves to its
    time, its callbacks run. *)
Lemma step_Ok cfg s s' :
  step cfg s = Some (Ok s') →
  ∃ e l1 l2,
    env_queue s = l1 ++ e :: l2 ∧
    (∀ x, x ∈ env_queue s → entry_leb e x = true) ∧
    callbacks cfg (entry_event e)
      (set_env_now (entry_time e) (set_env_queue (l1 ++ l2) s)) = Ok s'.
Proof.
  unfold step. destruct (heappop (env_queue s)) as [[e rest]|] eqn:E; [|done].
  apply heappop_Some in E as (l1 & l2 & Hq & -> & Hmin).
  destruct e as [[[t p] id] ev]. intros [= H]. by exists (t, p, id, ev), l1, l2.
Qed.

Lemma StronglySorted_seq a n : StronglySorted lt (seq a n).
Proof.
  revert a. induction n as [|n IH]; intros a; simpl; constructor; [apply IH|].
  apply Forall_forall. intros x Hx%list_elem_of_In%in_seq. lia.
Qed.

Lemma StronglySorted_lt_app l1 l2 :
  StronglySorted lt l1 → StronglySorted lt l2 →
  (∀ x y, x ∈ l1 → y ∈ l2 → (x < y)%nat) →
  StronglySorted lt (l1 ++ l2).
Proof.
  induction 1 as [|x l1 H1 IH Hx]; simpl; intros H2 H; [done|].
  constructor.
  - apply IH; [done|]. intros a b Ha Hb. apply H; [by right|done].
  - apply Forall_app. split; [done|]. apply Forall_forall.
    intros y Hy. apply H; [by left|done].
Qed.

Lemma StronglySorted_lt_remove (l1 : list nat) x l2 :
  StronglySorted lt (l1 ++ x :: l2) → StronglySorted lt (l1 ++ l2).
Proof.
  induction l1 as [|a l1 IH]; simpl; inversion 1 as [|?? H1 H2]; subst; [done|].
  constructor; [by apply IH|].
  rewrite Forall_app in H2 |- *. destruct H2 as [? H2]. split; [done|].
  by inversion H2.
Qed.

Lemma invariant_initial cfg g : invariant cfg (initial_state cfg g).
Proof.
  split; simpl; try done.
  - by rewrite <-list_fmap_compose.
  - apply Forall2_evolves_refl.
  - apply stat_extends_refl.
  - apply Forall_fmap, Forall_forall. by intros.
  - rewrite <-list_fmap_compose.
    erewrite (list_fmap_ext _ id), list_fmap_id by done.
    apply StronglySorted_seq.
  - apply Forall_fmap, Forall_forall.
    intros i Hi%list_elem_of_In%in_seq. unfold entry_eid. simpl. lia.
Qed.

Lemma entry_leb_time a b : entry_leb a b = true → entry_time a ≤ entry_time b.
Proof. rewrite entry_leb_true. unfold entry_time. lia. Qed.

Lemma invariant_step cfg s s' :
  invariant cfg s → step cfg s = Some (Ok s') → invariant cfg s'.
Proof.
  intros [Hsrv Hpcs Hsw Hst Hnow Htime Hsorted Heid] Hstep.
  apply step_Ok in Hstep as (e & l1 & l2 & Hq & Hmin & Hcb).
  apply callbacks_extends in Hcb
    as [N (new & Q & I & S & T) Hsrv' Hpcs' Hsw' Hst'].
  simpl in *.
  assert (env_now s ≤ entry_time e) as Hle.
  { eapply (proj1 (Forall_forall _ _) Htime). rewrite Hq.
    apply elem_of_app. right. by left. }
  rewrite Hq in Htime, Hsorted, Heid.
  split.
  - congruence.
  - congruence.
  - by eapply Forall2_evolves_trans.
  - eapply stat_extends_trans; [done|].
    by rewrite (Forall2_evolves_names _ _ Hsw) in Hst'.
  - lia.
  - rewrite N, Q. apply Forall_app. split; [|done].
    apply Forall_forall. intros x Hx. apply entry_leb_time, Hmin.
    rewrite Hq. rewrite !elem_of_app in Hx |- *.
    destruct Hx; [by left|]. right. by right.
  - rewrite Q, fmap_app, S. rewrite !fmap_app in *. simpl in Hsorted.
    apply StronglySorted_lt_app.
    + by eapply StronglySorted_lt_remove.
    + apply StronglySorted_seq.
    + intros x y Hx Hy%list_elem_of_In%in_seq.
      assert (x < env_eid s)%nat; [|lia].
      rewrite <-fmap_app in Hx. apply list_elem_of_fmap in Hx as (z & -> & Hz).
      eapply (proj1 (Forall_forall _ _) Heid).
      rewrite !elem_of_app in Hz |- *.
      destruct Hz; [by left|]. right. by right.
  - rewrite Q, I. apply Forall_app. split.
    + apply Forall_forall. intros x Hx.
      assert (entry_eid x < env_eid s)%nat; [|lia].
      eapply (proj1 (Forall_forall _ _) Heid).
      rewrite !elem_of_app in Hx |- *.
      destruct Hx; [by left|]. right. by right.
    + apply Forall_forall. intros x Hx.
      assert (entry_eid x ∈ seq (env_eid s) (length new)) as Hin.
      { rewrite <-S. by apply list_elem_of_fmap_2. }
      apply list_elem_of_In, in_seq in Hin. lia.
Qed.

Lemma reachable_invariant cfg s : reachable cfg s → invariant cfg s.
Proof.
  induction 1 as [g s Hs|s s' _ IH Hstep].
  - rewrite setup_eq in Hs. case_decide; [done|]. injection Hs as <-.
    apply invariant_initial.
  - by eapply invariant_step.
Qed.

(** ** Termination *)
Lemma sum_list_alter {A} (w : A → nat) (f : A → A) i (l : list A) x :
  l !! i = Some x →
  (sum_list_with w (alter f i l) + w x = sum_list_with w l + w (f x))%nat.
Proof.
  revert i. induction l as [|y l IH]; intros [|i]; simpl; try done.
  - intros [= ->]. lia.
  - intros Hi. rewrite <-!Nat.add_assoc. f_equal. exact (IH _ Hi).
Qed.

Lemma sum_list_insert {A} (w : A → nat) i (l : list A) x y :
  l !! i = Some x →
  (sum_list_with w (<[i:=y]> l) + w x = sum_list_with w l + w y)%nat.
Proof.
  revert i. induction l as [|z l IH]; intros [|i]; simpl; try done.
  - intros [= ->]. lia.
  - intros Hi. rewrite <-!Nat.add_assoc. f_equal. exact (IH _ Hi).
Qed.

Lemma sum_list_alter_le {A} (w : A → nat) (f : A → A) i (l : list A) :
  (∀ x, w (f x) ≤ w x)%nat →
  (sum_list_with w (alter f i l) ≤ sum_list_with w l)%nat.
Proof.
  intros Hf. revert i. induction l as [|y l IH]; intros [|i]; simpl; try done.
  - specialize (Hf y). lia.
  - apply Nat.add_le_mono_l, IH.
Qed.

Lemma potential_schedule cfg ev p d s :
  potential cfg (schedule ev p d s) = (potential cfg s + event_weight ev)%nat.
Proof.
  unfold potential. simpl. rewrite sum_list_with_app. simpl. lia.
Qed.

Lemma potential_set_pc_frame cfg i f s p :
  pcs s !! i = Some p →
  (potential cfg (set_pc_frame i f s) + frame_weight cfg (pc_frame p) =
   potential cfg s + frame_weight cfg f)%nat.
Proof.
  intros Hi. unfold potential. simpl.
  pose proof (sum_list_alter (frame_weight cfg ∘ pc_frame) (set_frame f) i _ _ Hi) as H.
  simpl in H. lia.
Qed.

Lemma potential_trigger_put cfg i s :
  potential cfg (trigger_put i s) = potential cfg s.
Proof.
  unfold trigger_put.
  destruct (switches s !! i) as [sw|] eqn:Hi; [|done].
  destruct (queue sw) as [|r q] eqn:Hq; [done|].
  case_decide as Hlt; [|done]. rewrite potential_schedule. unfold potential. simpl.
  pose proof (sum_list_insert (length ∘ queue) i (switches s) sw
    (set_queue q (set_users (users sw ++ [r]) sw)) Hi) as H.
  simpl in H. rewrite Hq in H. simpl in H. lia.
Qed.

Lemma length_insort r l : length (insort r l) = S (length l).
Proof. induction l as [|x l IH]; simpl; [done|]. case_match; simpl; lia. Qed.

Lemma length_sort_by_key l : length (sort_by_key l) = length l.
Proof.
  induction l as [|x l IH]; simpl; [done|]. by rewrite length_insort, IH.
Qed.

Lemma length_put_queue_append c q r :
  length (put_queue_append c q r) = S (length q).
Proof.
  destruct c; simpl; [|rewrite length_sort_by_key]; rewrite length_app; simpl; lia.
Qed.

Lemma potential_switch_request cfg i pc s r s' :
  switch_request i pc s = Ok (r, s') →
  potential cfg s' = S (potential cfg s).
Proof.
  unfold switch_request.
  destruct (switches s !! i) as [sw|] eqn:Hi; [|done]. intros [= <- <-].
  rewrite potential_trigger_put. unfold potential. simpl.
  pose proof (sum_list_insert (length ∘ queue) i (switches s) sw
    (set_queue (put_queue_append (sw_put_queue sw) (queue sw)
       (new_request sw pc s)) sw) Hi) as H.
  simpl in H. rewrite length_put_queue_append in H. lia.
Qed.

Lemma potential_request_exit cfg i r s :
  (potential cfg (request_exit i r s) ≤ S (potential cfg s))%nat.
Proof.
  unfold request_exit, switch_release. rewrite potential_schedule.
  unfold potential, cancel. simpl.
  pose proof (sum_list_alter_le (length ∘ queue)
    (λ sw, set_users (list_remove r (users sw)) sw) i
    (alter (λ sw, set_queue (list_remove r (queue sw)) sw) i (switches s))) as H1.
  pose proof (sum_list_alter_le (length ∘ queue)
    (λ sw, set_queue (list_remove r (queue sw)) sw) i (switches s)) as H2.
  simpl in *.
  assert (∀ x, length (list_remove r (queue x)) ≤ length (queue x))%nat as Hr
    by (intros; apply length_list_remove).
  specialize (H2 Hr). specialize (H1 (λ _, le_n _)). lia.
Qed.

Lemma potential_loop cfg i n s s' p :
  pcs s !! i = Some p →
  request_http_loop cfg i n s = Ok s' →
  (potential cfg s' + frame_weight cfg (pc_frame p) =
   potential cfg s + (6 * n + 1))%nat.
Proof.
  intros Hi. unfold request_http_loop. destruct n as [|n].
  - intros [= <-]. rewrite potential_schedule. simpl.
    pose proof (potential_set_pc_frame cfg i Finished s p Hi). simpl in *. lia.
  - pose proof (uniform_rng (THINK_TIME cfg) s) as Hu.
    destruct (uniform (THINK_TIME cfg) s) as [d s1]. simpl in Hu. subst s1.
    intros H. inv_bind H. injection H as <-.
    unfold timeout in Ha. case_decide as Hneg; [done|]. injection Ha as <-.
    pose proof (potential_set_pc_frame cfg i (AtThink n)
      (schedule (Timeout (ProcPC i)) NORMAL d (set_rng (rng_random (rng s)).2 s))
      p Hi) as H1.
    rewrite potential_schedule in H1. simpl in H1.
    change (potential cfg (set_rng (rng_random (rng s)).2 s)) with (potential cfg s) in H1.
    lia.
Qed.

Lemma switch_request_pcs i pc s r s' :
  switch_request i pc s = Ok (r, s') → pcs s' = pcs s.
Proof.
  unfold switch_request, trigger_put. destruct (switches s !! i); [|done].
  intros [= <- <-]. simpl. repeat case_match; done.
Qed.

Lemma record_queue_length_Ok name n s s' :
  record_queue_length name n s = Ok s' →
  ∃ st, switch_stats s !! name = Some st ∧
        s' = set_switch_stats
               (<[name := {| queue_lengths := queue_lengths st ++ [n];
                             utilization := utilization st |}]> (switch_stats s)) s.
Proof.
  unfold record_queue_length. destruct (switch_stats s !! name) as [st|]; [|done].
  intros [= <-]. eauto.
Qed.

Lemma potential_issue cfg i n s s' p :
  pcs s !! i = Some p →
  request_http_issue i n s = Ok s' →
  (potential cfg s' + frame_weight cfg (pc_frame p) =
   potential cfg s + (6 * n + 6))%nat.
Proof.
  intros Hi. unfold request_http_issue. intros H.
  inv_bind H. destruct a as [sw s1]. apply choice_Ok in Ha as [_ ->].
  inv_bind H. destruct a as [srv s2]. apply choice_Ok in Ha as [_ ->].
  simpl in H. destruct (switches s !! sw) as [switch|] eqn:Hsw; [|done].
  inv_bind H. apply record_queue_length_Ok in Ha as (st & _ & ->).
  inv_bind H. destruct a as [r s3]. injection H as <-.
  pose proof (switch_request_pcs _ _ _ _ _ Ha) as Hp. simpl in Hp.
  pose proof (potential_switch_request cfg _ _ _ _ _ Ha) as Hq.
  rewrite <-Hp in Hi.
  pose proof (potential_set_pc_frame cfg i
    (AtRequest n (env_now s) sw srv r) s3 p Hi) as H1.
  simpl in H1. rewrite Hq in H1. unfold potential in *. simpl in *. lia.
Qed.

Lemma potential_request_http cfg i s s' :
  request_http cfg i s = Ok s' → (potential cfg s' ≤ potential cfg s)%nat.
Proof.
  unfold request_http. destruct (pcs s !! i) as [p|] eqn:Hi; [|done].
  destruct (pc_frame p) as [|n|n rt sw srv r|n rt sw srv r st|] eqn:Hf;
    [| | | |done]; intros H.
  - apply (potential_loop cfg _ _ _ _ p Hi) in H. rewrite Hf in H. simpl in H. lia.
  - apply (potential_issue cfg _ _ _ _ p Hi) in H. rewrite Hf in H. simpl in H. lia.
  - unfold request_http_granted in H.
    pose proof (random_rng s) as Hr. destruct (random s) as [k s1].
    simpl in Hr. subst s1. case_decide as Hloss.
    + apply (potential_loop cfg _ _ _ _ p) in H.
      2:{ unfold count_loss. simpl. destruct (class_of _ _); exact Hi. }
      rewrite Hf in H. simpl in H.
      pose proof (potential_request_exit cfg sw r
        (count_loss sw (set_rng (rng_random (rng s)).2 s))) as H1.
      assert (potential cfg (count_loss sw (set_rng (rng_random (rng s)).2 s))
              = potential cfg s) as H2.
      { unfold count_loss. destruct (class_of _ _); reflexivity. }
      lia.
    + injection H as <-.
      pose proof (potential_set_pc_frame cfg i
        (AtService n rt sw srv r (env_now (set_rng (rng_random (rng s)).2 s)))
        (schedule (Initialize (ProcHandle srv i)) URGENT 0
           (set_rng (rng_random (rng s)).2 s)) p Hi) as H1.
      rewrite potential_schedule, Hf in H1. simpl in H1.
      change (potential cfg (set_rng (rng_random (rng s)).2 s))
        with (potential cfg s) in H1. lia.
  - unfold request_http_served in H.
    match type of H with request_http_loop _ _ _ (request_exit _ _ ?x) = _ =>
      set (s1 := x) in * end.
    assert (pcs s1 = alter count_success i (pcs s)) as Hp1 by reflexivity.
    assert (potential cfg s1 = potential cfg s) as H2.
    { unfold potential. rewrite Hp1.
      change (env_queue s1) with (env_queue s).
      change (switches s1) with (switches s).
      pose proof (sum_list_alter (frame_weight cfg ∘ pc_frame) count_success
        i _ _ Hi) as H3. simpl in H3. apply Nat.add_cancel_r in H3.
      by rewrite H3. }
    pose proof (potential_request_exit cfg sw r s1) as H1.
    apply (potential_loop cfg _ _ _ _ (count_success p)) in H.
    2:{ change (pcs (request_exit sw r s1)) with (pcs s1).
        by rewrite Hp1, list_lookup_alter_eq, Hi. }
    change (pc_frame (count_success p)) with (pc_frame p) in H.
    rewrite Hf in H. simpl frame_weight in H. clearbody s1. lia.
Qed.

Lemma potential_callbacks cfg ev s s' :
  callbacks cfg ev s = Ok s' →
  (potential cfg s' < potential cfg s + event_weight ev)%nat.
Proof.
  destruct ev as [[i|srv i]|[i|srv i]|sw r|sw r|[i|srv i]]; simpl; intros H;
    try (apply potential_request_http in H; lia).
  - unfold handle_request_begin in H.
    pose proof (uniform_rng (SERVICE_TIME cfg) s) as Hu.
    destruct (uniform (SERVICE_TIME cfg) s) as [d s1]. simpl in Hu. subst s1.
    unfold timeout in H. case_decide; [done|]. injection H as <-.
    rewrite potential_schedule. simpl.
    change (potential cfg (set_rng (rng_random (rng s)).2 s))
      with (potential cfg s). lia.
  - injection H as <-. unfold handle_request_end.
    rewrite potential_schedule. simpl.
    match goal with |- (potential cfg ?x + _ < _)%nat =>
      change (potential cfg x) with (potential cfg s) end. lia.
  - injection H as <-. rewrite potential_trigger_put. lia.
  - injection H as <-. lia.
Qed.

Lemma potential_step cfg s s' :
  step cfg s = Some (Ok s') → (potential cfg s' < potential cfg s)%nat.
Proof.
  intros (e & l1 & l2 & Hq & _ & H)%step_Ok.
  apply potential_callbacks in H. unfold potential in *. simpl in H.
  rewrite Hq. rewrite !sum_list_with_app in *. simpl. lia.
Qed.

(** [env.run()] returns: fuel beyond the potential is never used up. *)
Lemma run_total cfg fuel s :
  (potential cfg s < fuel)%nat → ∃ r, run cfg fuel s = Some r.
Proof.
  revert s. induction fuel as [|fuel IH]; intros s Hp; [lia|]. simpl.
  destruct (step cfg s) as [[s'|e]|] eqn:Hstep; eauto.
  apply IH. apply potential_step in Hstep. lia.
Qed.

Lemma env_run_run cfg s : run cfg (S (potential cfg s)) s = Some (env_run cfg s).
Proof.
  unfold env_run. destruct (run_total cfg (S (potential cfg s)) s) as [r ->]; [lia|done].
Qed.

Lemma owned_app i q1 q2 : owned i (q1 ++ q2) = owned i q1 ++ owned i q2.
Proof. unfold owned. by rewrite fmap_app, filter_app. Qed.

Lemma owned_cons i e q :
  owned i (e :: q) =
  (if decide (owner (entry_event e) = Some i) then [entry_event e] else []) ++ owned i q.
Proof. unfold owned. simpl. rewrite filter_cons. by case_decide. Qed.

Lemma pending_schedule i ev p d s :
  pending i (schedule ev p d s) =
  pending i s ++ (if decide (owner ev = Some i) then [ev] else []).
Proof.
  unfold pending. simpl. rewrite owned_app, owned_cons. simpl.
  by rewrite app_nil_r.
Qed.

(** Taking an entry out of the schedule. *)
Lemma owned_pop_self i l1 e l2 x :
  owner (entry_event e) = Some i →
  owned i (l1 ++ e :: l2) = [x] →
  x = entry_event e ∧ owned i (l1 ++ l2) = [].
Proof.
  intros Ho. rewrite !owned_app, owned_cons, decide_True by done. simpl.
  intros H. destruct (owned i l1) as [|a l]; simpl in *.
  - injection H as <- ->. done.
  - injection H as -> H. by destruct l.
Qed.

Lemma owned_pop_nil i l1 e l2 :
  owner (entry_event e) = Some i → owned i (l1 ++ e :: l2) ≠ [].
Proof.
  intros Ho. rewrite !owned_app, owned_cons, decide_True by done. simpl.
  by destruct (owned i l1).
Qed.

Lemma owned_pop_other i l1 e l2 :
  owner (entry_event e) ≠ Some i →
  owned i (l1 ++ l2) = owned i (l1 ++ e :: l2).
Proof.
  intros Ho. by rewrite !owned_app, owned_cons, decide_False.
Qed.

(** The predicates look at the schedule, the switches and the frames only. *)
Lemma frame_ok_view i f s s' :
  env_queue s' = env_queue s → switches s' = switches s →
  frame_ok i f s → frame_ok i f s'.
Proof.
  intros Hq Hw. unfold frame_ok, pending, held, waiting. by rewrite Hq, Hw.
Qed.

Lemma consistent_view s s' :
  env_queue s' = env_queue s → switches s' = switches s →
  frames s' = frames s → consistent s → consistent s'.
Proof.
  intros Hq Hw Hf [H1 H2 H3 H4]. split; unfold pending in *;
    rewrite ?Hq, ?Hw, ?Hf; eauto using frame_ok_view.
Qed.

Lemma running_view i s s' :
  env_queue s' = env_queue s → switches s' = switches s →
  frames s' = frames s → running i s → running i s'.
Proof.
  intros Hq Hw Hf [H1 H2 H3 H4 H5]. split; unfold pending in *;
    rewrite ?Hq, ?Hw, ?Hf; eauto using frame_ok_view.
Qed.

(** How [held] and [waiting] of a request move with its switch. *)
Lemma frame_ok_mono i f s s' :
  pending i s' = pending i s →
  (∀ sw r, req_proc r = i → held sw r s → held sw r s') →
  (∀ sw r, req_proc r = i → waiting sw r s → waiting sw r s') →
  frame_ok i f s → frame_ok i f s'.
Proof.
  intros Hp Hh Hw. destruct f; simpl; rewrite ?Hp; try done.
  - intros [? [[? ?]|[? ?]]]; eauto 6.
  - intros (? & ? & ?); eauto.
Qed.

Lemma list_remove_subseteq r l x : x ∈ list_remove r l → x ∈ l.
Proof.
  induction l as [|y l IH]; simpl; [done|]. case_decide.
  - by right.
  - intros [->|?]%elem_of_cons; [by left|right; auto].
Qed.

Lemma list_remove_other r l x : x ≠ r → x ∈ l → x ∈ list_remove r l.
Proof.
  intros Hne. induction l as [|y l IH]; simpl; [done|].
  intros [->|?]%elem_of_cons.
  - rewrite decide_False by done. by left.
  - case_decide; [done|]. right. auto.
Qed.

Lemma list_remove_NoDup r l : NoDup l → NoDup (list_remove r l).
Proof.
  induction 1 as [|y l Hy Hl IH]; simpl; [constructor|]. case_decide; [done|].
  constructor; [|done]. intros ?%list_remove_subseteq. done.
Qed.

Lemma insort_Permutation r l : insort r l ≡ₚ r :: l.
Proof.
  induction l as [|x l IH]; simpl; [done|]. case_match; [done|].
  rewrite IH. apply Permutation_swap.
Qed.

Lemma sort_by_key_Permutation l : sort_by_key l ≡ₚ l.
Proof.
  induction l as [|x l IH]; simpl; [done|]. by rewrite insort_Permutation, IH.
Qed.

Lemma put_queue_append_Permutation c q r : put_queue_append c q r ≡ₚ r :: q.
Proof.
  destruct c; simpl; rewrite ?sort_by_key_Permutation;
    exact (Permutation_app_comm q [r]).
Qed.

Lemma frames_set_frame i f (l : list PC) :
  pc_frame <$> alter (set_frame f) i l = alter (λ _, f) i (pc_frame <$> l).
Proof. apply list_fmap_alter, Forall_forall. by intros. Qed.

Lemma frames_count_success i (l : list PC) :
  pc_frame <$> alter count_success i l = pc_frame <$> l.
Proof.
  rewrite (list_fmap_alter pc_frame count_success id)
    by (apply Forall_forall; by intros).
  by apply list_alter_id.
Qed.

Lemma frame_ok_pending i f s :
  frame_ok i f s → pending i s = [] ∨ ∃ x, pending i s = [x].
Proof.
  destruct f; simpl; eauto.
  - intros [_ [[-> _]|[-> _]]]; eauto.
  - intros (_ & _ & [->|[->| ->]]); eauto.
Qed.

Lemma running_consistent i s f :
  running i s → frames s !! i = Some f → frame_ok i f s → consistent s.
Proof.
  intros [H1 H2 H3 H4 H5] Hi Hf. split; [|done| |done].
  - intros j f' Hj. destruct (decide (j = i)) as [->|Hne]; [|by eauto].
    by replace f' with f by congruence.
  - intros sw switch r Hsw Hr. by destruct (H4 _ _ _ Hsw Hr).
Qed.

Lemma consistent_pop_none s l1 e l2 t :
  consistent s → env_queue s = l1 ++ e :: l2 →
  owner (entry_event e) = None →
  consistent (set_env_now t (set_env_queue (l1 ++ l2) s)).
Proof.
  intros [H1 H2 H3 H4] Hq Ho.
  assert (∀ j, pending j (set_env_now t (set_env_queue (l1 ++ l2) s))
               = pending j s) as Hp.
  { intros j. unfold pending. simpl. rewrite Hq. apply owned_pop_other. congruence. }
  split; try done.
  - intros j f Hj. eapply frame_ok_mono; [apply Hp|done..|by apply H1].
  - intros j Hj. rewrite Hp. by apply H2.
Qed.

Lemma consistent_pop_owner s l1 e l2 t i :
  consistent s → env_queue s = l1 ++ e :: l2 →
  owner (entry_event e) = Some i →
  running i (set_env_now t (set_env_queue (l1 ++ l2) s)) ∧
  pending i (set_env_now t (set_env_queue (l1 ++ l2) s)) = [] ∧
  ∃ f, frames s !! i = Some f ∧ frame_ok i f s ∧
       pending i s = [entry_event e].
Proof.
  intros [H1 H2 H3 H4] Hq Ho.
  assert (pending i s ≠ []) as Hne.
  { unfold pending. rewrite Hq. by apply owned_pop_nil. }
  destruct (frames s !! i) as [f|] eqn:Hi.
  2:{ apply lookup_ge_None in Hi. by apply H2 in Hi. }
  pose proof (H1 _ _ Hi) as Hf.
  destruct (frame_ok_pending _ _ _ Hf) as [?|[x Hx]]; [done|].
  pose proof Hx as Hx'. unfold pending in Hx'. rewrite Hq in Hx'.
  apply owned_pop_self in Hx' as [-> Hnil]; [|done].
  assert (∀ j, j ≠ i → pending j (set_env_now t (set_env_queue (l1 ++ l2) s))
               = pending j s) as Hp.
  { intros j Hj. unfold pending. simpl. rewrite Hq. apply owned_pop_other. congruence. }
  split_and!; [|done|by eauto].
  split; simpl.
  - intros j fj Hj Hfj. eapply frame_ok_mono; [by apply Hp|done..|by apply H1].
  - by eapply lookup_lt_Some.
  - intros j Hj. rewrite Hp; [by apply H2|].
    apply lookup_lt_Some in Hi. unfold frames in *. simpl in *. lia.
  - intros sw switch r Hsw Hr. destruct (H3 _ _ _ Hsw Hr) as (n & rt & srv & Hfr).
    split; [|by eauto]. intros <-.
    rewrite Hi in Hfr. injection Hfr as ->. simpl in Hf.
    destruct Hf as [_ [[_ (sw' & Hsw' & _ & Hnq)]|[? _]]]; [|congruence].
    rewrite Hsw in Hsw'. by injection Hsw' as <-.
  - done.
Qed.

Lemma consistent_schedule s ev p d :
  consistent s → owner ev = None → consistent (schedule ev p d s).
Proof.
  intros [H1 H2 H3 H4] Ho.
  assert (∀ j, pending j (schedule ev p d s) = pending j s) as Hp.
  { intros j. rewrite pending_schedule, decide_False by congruence.
    by rewrite app_nil_r. }
  split; try done.
  - intros j f Hj. eapply frame_ok_mono; [apply Hp|done..|by apply H1].
  - intros j Hj. rewrite Hp. by apply H2.
Qed.

Lemma running_schedule i s ev p d :
  running i s → owner ev = None ∨ owner ev = Some i →
  running i (schedule ev p d s).
Proof.
  intros [H1 H2 H3 H4 H5] Ho.
  assert (∀ j, j ≠ i → pending j (schedule ev p d s) = pending j s) as Hp.
  { intros j Hj. assert (owner ev ≠ Some j) as Hn
      by (destruct Ho as [E|E]; rewrite E; congruence).
    by rewrite pending_schedule, decide_False, app_nil_r. }
  split; try done.
  - intros j f Hj Hfj. eapply frame_ok_mono; [by apply Hp|done..|by apply H1].
  - intros j Hj. rewrite Hp; [by apply H3|].
    unfold frames in *. simpl in *. lia.
Qed.

Lemma frames_set_pc_frame i f s :
  frames (set_pc_frame i f s) = alter (λ _, f) i (frames s).
Proof. apply frames_set_frame. Qed.

Lemma running_set_frame i f s : running i s → running i (set_pc_frame i f s).
Proof.
  intros [H1 H2 H3 H4 H5]. split; rewrite ?frames_set_pc_frame, ?length_alter;
    try done.
  - intros j fj Hj. rewrite list_lookup_alter_ne by done. intros Hfj.
    eapply frame_ok_view; [| |by apply H1]; done.
  - intros sw switch r Hsw Hr. destruct (H4 _ _ _ Hsw Hr) as [Hne Hfr].
    split; [done|]. by rewrite list_lookup_alter_ne.
Qed.

Lemma held_alter sw r s f i :
  (∀ switch, r ∈ users switch → r ∈ users (f switch)) →
  (∀ switch, r ∈ queue (f switch) → r ∈ queue switch) →
  held sw r s → held sw r (set_switches (alter f i (switches s)) s).
Proof.
  intros Hu Hq (switch & Hsw & Hin & Hnq). unfold held. simpl.
  destruct (decide (i = sw)) as [->|Hne].
  - exists (f switch). rewrite list_lookup_alter_eq, Hsw. naive_solver.
  - exists switch. by rewrite list_lookup_alter_ne.
Qed.

Lemma waiting_alter sw r s f i :
  (∀ switch, r ∈ queue switch → r ∈ queue (f switch)) →
  waiting sw r s → waiting sw r (set_switches (alter f i (switches s)) s).
Proof.
  intros Hq (switch & Hsw & Hin). unfold waiting. simpl.
  destruct (decide (i = sw)) as [->|Hne].
  - exists (f switch). rewrite list_lookup_alter_eq, Hsw. naive_solver.
  - exists switch. by rewrite list_lookup_alter_ne.
Qed.

Lemma running_alter i s f k :
  (∀ switch r, req_proc r ≠ i → r ∈ users switch → r ∈ users (f switch)) →
  (∀ switch r, r ∈ queue (f switch) → r ∈ queue switch) →
  (∀ switch r, req_proc r ≠ i → r ∈ queue switch → r ∈ queue (f switch)) →
  (∀ switch, NoDup (queue switch) → NoDup (queue (f switch))) →
  running i s → running i (set_switches (alter f k (switches s)) s).
Proof.
  intros Hu Hq Hq' Hnd [H1 H2 H3 H4 H5]. split; try done.
  - intros j fj Hj Hfj. specialize (H1 _ _ Hj Hfj).
    apply (frame_ok_mono j fj s); [reflexivity| | |exact H1].
    + intros sw r <-. apply held_alter; eauto.
    + intros sw r <-. apply waiting_alter; eauto.
  - simpl. intros sw switch r Hsw Hr.
    destruct (decide (k = sw)) as [->|Hne].
    + rewrite list_lookup_alter_eq in Hsw.
      destruct (switches s !! sw) as [switch'|] eqn:E; [|done].
      injection Hsw as <-. eauto.
    + rewrite list_lookup_alter_ne in Hsw by done. eauto.
  - simpl. intros sw switch Hsw.
    destruct (decide (k = sw)) as [->|Hne].
    + rewrite list_lookup_alter_eq in Hsw.
      destruct (switches s !! sw) as [switch'|] eqn:E; [|done].
      injection Hsw as <-. eauto.
    + rewrite list_lookup_alter_ne in Hsw by done. eauto.
Qed.

Lemma running_exit i s sw r :
  running i s → req_proc r = i → running i (request_exit sw r s).
Proof.
  intros Hrun Hr. unfold request_exit, switch_release, cancel.
  apply running_schedule; [|by left].
  apply (running_alter i _ (λ sw, set_users (list_remove r (users sw)) sw)).
  { simpl. intros ? r' ? ?. apply list_remove_other; [congruence|done]. }
  { done. } { done. } { done. }
  apply (running_alter i _ (λ sw, set_queue (list_remove r (queue sw)) sw)).
  { done. }
  { simpl. intros ? r'. apply list_remove_subseteq. }
  { simpl. intros ? r' ? ?. apply list_remove_other; [congruence|done]. }
  { simpl. intros ?. apply list_remove_NoDup. }
  done.
Qed.

Lemma list_insert_alter {A} (l : list A) i y :
  <[i:=y]> l = alter (λ _, y) i l.
Proof. revert i. induction l as [|x l IH]; intros [|i]; simpl; f_equal; auto. Qed.

Lemma held_insert sw r s i switch switch' :
  switches s !! i = Some switch →
  (r ∈ users switch → r ∈ users switch') →
  (r ∈ queue switch' → r ∈ queue switch) →
  held sw r s → held sw r (set_switches (<[i:=switch']> (switches s)) s).
Proof.
  intros Hi Hu Hq (x & Hsw & Hin & Hnq). unfold held. simpl.
  destruct (decide (i = sw)) as [->|Hne].
  - exists switch'. rewrite list_lookup_insert_eq by (by eapply lookup_lt_Some).
    replace x with switch in * by congruence.
    split_and!; [done|auto|]. intros ?. apply Hnq. auto.
  - exists x. by rewrite list_lookup_insert_ne.
Qed.

Lemma waiting_insert sw r s i switch switch' :
  switches s !! i = Some switch →
  (r ∈ queue switch → r ∈ queue switch') →
  waiting sw r s → waiting sw r (set_switches (<[i:=switch']> (switches s)) s).
Proof.
  intros Hi Hq (x & Hsw & Hin). unfold waiting. simpl.
  destruct (decide (i = sw)) as [->|Hne].
  - exists switch'. rewrite list_lookup_insert_eq by (by eapply lookup_lt_Some).
    replace x with switch in * by congruence. split; [done|auto].
  - exists x. by rewrite list_lookup_insert_ne.
Qed.

Lemma lookup_insert_switch (l : list switch) i j x y :
  <[i:=x]> l !! j = Some y →
  (i = j ∧ y = x ∧ is_Some (l !! i)) ∨ (i ≠ j ∧ l !! j = Some y).
Proof.
  destruct (decide (i = j)) as [->|Hne].
  - destruct (decide (j < length l)%nat) as [Hlt|Hge].
    + rewrite list_lookup_insert_eq by done. intros [= <-]. left.
      split_and!; [done..|]. by apply lookup_lt_is_Some.
    + rewrite list_insert_ge by lia. intros H%lookup_lt_Some. lia.
  - rewrite list_lookup_insert_ne by done. auto.
Qed.

(** Granting the head of a queue. *)
Lemma trigger_put_consistent sw s : consistent s → consistent (trigger_put sw s).
Proof.
  intros Hc. unfold trigger_put.
  destruct (switches s !! sw) as [switch|] eqn:Hsw; [|done].
  destruct (queue switch) as [|r0 q] eqn:Hq; [done|].
  case_decide as Hlt; [|done].
  destruct Hc as [H1 H2 H3 H4].
  assert (r0 ∈ queue switch) as Hr0 by (rewrite Hq; by left).
  destruct (H3 _ _ _ Hsw Hr0) as (n & rt & srv & Hf0).
  pose proof (H4 _ _ Hsw) as Hnd. rewrite Hq in Hnd.
  apply NoDup_cons in Hnd as [Hnin Hnd].
  assert (pending (req_proc r0) s = []) as Hp0.
  { pose proof (H1 _ _ Hf0) as [_ [[_ (x & Hx & _ & Hnq)]|[? _]]]; [|done].
    rewrite Hsw in Hx. injection Hx as <-. done. }
  set (switch' := set_queue q (set_users (users switch ++ [r0]) switch)).
  set (s1 := set_switches (<[sw:=switch']> (switches s)) s).
  assert (∀ j, pending j (schedule (Request sw r0) NORMAL 0 s1) =
               pending j s ++
               (if decide (req_proc r0 = j) then [Request sw r0] else [])) as Hp.
  { intros j. rewrite pending_schedule. simpl.
    destruct (decide (req_proc r0 = j)) as [->|Hne].
    - by rewrite decide_True.
    - rewrite decide_False; [done|congruence]. }
  split.
  - intros j f Hj. change (frames s !! j = Some f) in Hj.
    destruct (decide (req_proc r0 = j)) as [<-|Hne].
    + rewrite Hf0 in Hj. injection Hj as <-. split; [done|]. left.
      rewrite Hp, Hp0, decide_True by done. split; [done|].
      exists switch'. simpl.
      rewrite list_lookup_insert_eq by (by eapply lookup_lt_Some).
      split_and!; [done| |done]. apply elem_of_app. right. by left.
    + apply (frame_ok_mono j f s); [| | |by apply H1].
      * rewrite Hp, decide_False by done. by rewrite app_nil_r.
      * intros sw' r <- Hh.
        apply (held_insert sw' r s sw switch switch') in Hh; try done.
        -- simpl. intros ?. apply elem_of_app. by left.
        -- simpl. rewrite Hq. intros ?. by right.
      * intros sw' r <- Hw.
        apply (waiting_insert sw' r s sw switch switch') in Hw; try done.
        simpl. rewrite Hq. intros [->|?]%elem_of_cons; done.
  - intros j Hj. change (length (frames s) ≤ j)%nat in Hj.
    rewrite Hp, decide_False, app_nil_r; [by apply H2|].
    apply lookup_lt_Some in Hf0. lia.
  - intros sw' x r Hx Hr. change (frames s !! req_proc r = _) with
      (frames s !! req_proc r = Some (AtRequest n rt sw' srv r)).
    simpl in Hx. apply lookup_insert_switch in Hx as [(<- & -> & _)|[Hne Hx]].
    + apply (H3 _ _ _ Hsw). rewrite Hq. by right.
    + by eapply H3.
  - intros sw' x Hx. simpl in Hx.
    apply lookup_insert_switch in Hx as [(<- & -> & _)|[Hne Hx]]; [done|].
    by eapply H4.
Qed.

(** A new request joins the queue of its switch. *)
Lemma enqueue_consistent i s sw switch r q' n rt srv :
  running i s → pending i s = [] →
  switches s !! sw = Some switch → req_proc r = i →
  q' ≡ₚ r :: queue switch →
  consistent
    (set_pc_frame i (AtRequest n rt sw srv r)
       (set_switches (<[sw:=set_queue q' switch]> (switches s)) s)).
Proof.
  intros [H1 H2 H3 H4 H5] Hp Hsw Hr Hq.
  set (F := AtRequest n rt sw srv r).
  set (s1 := set_switches (<[sw:=set_queue q' switch]> (switches s)) s).
  assert (frames (set_pc_frame i F s1) = alter (λ _, F) i (frames s)) as Hfr
    by exact (frames_set_pc_frame i F s1).
  assert (r ∉ queue switch) as Hnin.
  { intros Hin. by destruct (H4 _ _ _ Hsw Hin). }
  split; rewrite ?Hfr, ?length_alter.
  - intros j f. destruct (decide (i = j)) as [<-|Hne].
    + rewrite list_lookup_alter_eq.
      destruct (frames s !! i) eqn:E; [|done]. intros [= <-].
      split; [done|]. right. split; [done|].
      exists (set_queue q' switch). simpl.
      rewrite list_lookup_insert_eq by (by eapply lookup_lt_Some).
      split; [done|]. rewrite Hq. by left.
    + rewrite list_lookup_alter_ne by done. intros Hj.
      apply (frame_ok_mono j f s); [done| | |by apply H1].
      * intros sw' r' Hr' Hh.
        apply (held_insert sw' r' s sw switch (set_queue q' switch)) in Hh;
          try done.
        simpl. rewrite Hq. intros [->|?]%elem_of_cons; [congruence|done].
      * intros sw' r' Hr' Hw.
        apply (waiting_insert sw' r' s sw switch (set_queue q' switch)) in Hw;
          try done.
        simpl. rewrite Hq. intros ?. by right.
  - done.
  - intros sw' x r' Hx Hr'. simpl in Hx.
    apply lookup_insert_switch in Hx as [(<- & -> & _)|[Hne Hx]].
    + simpl in Hr'. rewrite Hq in Hr'.
      apply elem_of_cons in Hr' as [->|Hr'].
      * exists n, rt, srv. rewrite Hr, list_lookup_alter_eq.
        destruct (frames s !! i) eqn:E; [done|].
        apply lookup_ge_None in E. lia.
      * destruct (H4 _ _ _ Hsw Hr') as [Hne Hf].
        by rewrite list_lookup_alter_ne.
    + destruct (H4 _ _ _ Hx Hr') as [Hne' Hf].
      by rewrite list_lookup_alter_ne.
  - intros sw' x Hx. simpl in Hx.
    apply lookup_insert_switch in Hx as [(<- & -> & _)|[Hne Hx]]; [|by eauto].
    simpl. rewrite Hq. apply NoDup_cons. split; [done|by eauto].
Qed.

Lemma trigger_put_set_pc_frame sw i f s :
  trigger_put sw (set_pc_frame i f s) = set_pc_frame i f (trigger_put sw s).
Proof. unfold trigger_put. simpl. repeat case_match; done. Qed.

Lemma request_http_issue_consistent i n s s' :
  running i s → pending i s = [] →
  request_http_issue i n s = Ok s' → consistent s'.
Proof.
  intros Hrun Hp. unfold request_http_issue. intros H.
  inv_bind H. destruct a as [sw s1]. apply choice_Ok in Ha as [_ ->].
  inv_bind H. destruct a as [srv s2]. apply choice_Ok in Ha as [_ ->].
  simpl in H. destruct (switches s !! sw) as [switch|] eqn:Hsw; [|done].
  inv_bind H. apply record_queue_length_Ok in Ha as (st & _ & ->).
  inv_bind H. destruct a as [r s3]. injection H as <-.
  unfold switch_request in Ha. simpl in Ha. rewrite Hsw in Ha.
  injection Ha as <- <-. rewrite <-trigger_put_set_pc_frame.
  apply trigger_put_consistent.
  match goal with
  | |- consistent (set_pc_frame i ?F (set_next_id _ (set_switches ?L _))) =>
      apply (consistent_view (set_pc_frame i F (set_switches L s)));
        [reflexivity..|]
  end.
  apply (enqueue_consistent i s sw switch); try done.
  apply put_queue_append_Permutation.
Qed.

Lemma request_http_loop_consistent cfg i n s s' :
  running i s → pending i s = [] →
  request_http_loop cfg i n s = Ok s' → consistent s'.
Proof.
  intros Hrun Hp. unfold request_http_loop. destruct n as [|n].
  - intros [= <-]. apply consistent_schedule; [|done].
    apply (running_consistent i _ Finished).
    + by apply running_set_frame.
    + rewrite frames_set_pc_frame, list_lookup_alter_eq.
      destruct (frames s !! i) eqn:E; [done|].
      apply lookup_ge_None in E. destruct Hrun. lia.
    + done.
  - pose proof (uniform_rng (THINK_TIME cfg) s) as Hu.
    destruct (uniform (THINK_TIME cfg) s) as [d s1]. simpl in Hu. subst s1.
    intros H. inv_bind H. injection H as <-.
    unfold timeout in Ha. case_decide as Hneg; [done|]. injection Ha as <-.
    apply (running_consistent i _ (AtThink n)).
    + apply running_set_frame, running_schedule; [|by right].
      by eapply running_view; [| | |exact Hrun].
    + rewrite frames_set_pc_frame, list_lookup_alter_eq.
      change (frames (schedule _ _ _ _)) with (frames s).
      destruct (frames s !! i) eqn:E; [done|].
      apply lookup_ge_None in E. destruct Hrun. lia.
    + simpl. change (pending i (set_pc_frame _ _ ?x)) with (pending i x).
      rewrite pending_schedule, decide_True by done.
      change (pending i (set_rng _ s)) with (pending i s). by rewrite Hp.
Qed.

Lemma held_view sw r s s' : switches s' = switches s → held sw r s → held sw r s'.
Proof. unfold held. by intros ->. Qed.

Lemma count_loss_running i sw s : running i s → running i (count_loss sw s).
Proof.
  unfold count_loss. destruct (class_of sw s); [|done].
  by apply running_view.
Qed.

Lemma lookup_frames s i f :
  frames s !! i = Some f → ∃ p, pcs s !! i = Some p ∧ pc_frame p = f.
Proof.
  unfold frames. rewrite list_lookup_fmap.
  destruct (pcs s !! i) as [p|]; [|done]. intros [= <-]. eauto.
Qed.

(** Resuming the generator of a PC for which the schedule holds nothing
    else. *)
Lemma request_http_consistent cfg i s s' f :
  running i s → pending i s = [] → frames s !! i = Some f →
  (∀ n rt sw srv r, f = AtRequest n rt sw srv r → req_proc r = i ∧ held sw r s) →
  (∀ n rt sw srv r st, f = AtService n rt sw srv r st → req_proc r = i) →
  request_http cfg i s = Ok s' → consistent s'.
Proof.
  intros Hrun Hp Hf Hreq Hsrv. unfold request_http.
  destruct (lookup_frames _ _ _ Hf) as (p & -> & Hpf). rewrite Hpf.
  destruct f as [|n|n rt sw srv r|n rt sw srv r st|]; [| | | |done].
  - by apply request_http_loop_consistent.
  - by apply request_http_issue_consistent.
  - destruct (Hreq _ _ _ _ _ eq_refl) as [Hr Hh].
    unfold request_http_granted.
    pose proof (random_rng s) as Hrng. destruct (random s) as [k s1].
    simpl in Hrng. subst s1. case_decide as Hloss.
    + apply request_http_loop_consistent.
      * apply running_exit; [|done]. apply count_loss_running.
        by eapply running_view; [| | |exact Hrun].
      * unfold request_exit, switch_release. rewrite pending_schedule.
        rewrite decide_False, app_nil_r by done.
        unfold count_loss. destruct (class_of _ _); exact Hp.
    + intros [= <-].
      apply (running_consistent i _ (AtService n rt sw srv r (env_now s))).
      * apply running_set_frame, running_schedule; [|by right].
        by eapply running_view; [| | |exact Hrun].
      * rewrite frames_set_pc_frame, list_lookup_alter_eq.
        change (frames (schedule _ _ _ _)) with (frames s). by rewrite Hf.
      * split; [done|]. split; [by eapply held_view; [|exact Hh]|].
        left. change (pending i (set_pc_frame _ _ ?x)) with (pending i x).
        rewrite pending_schedule, decide_True by done.
        change (pending i (set_rng _ s)) with (pending i s). by rewrite Hp.
  - specialize (Hsrv _ _ _ _ _ _ eq_refl). unfold request_http_served.
    apply request_http_loop_consistent.
    + apply running_exit; [|done].
      eapply running_view; [| | |exact Hrun]; try done.
      apply frames_count_success.
    + unfold request_exit, switch_release. rewrite pending_schedule.
      rewrite decide_False, app_nil_r by done. exact Hp.
Qed.

(** What the popped event says about the frame of its owner. *)
Lemma frame_ok_event i f s ev :
  frame_ok i f s → pending i s = [ev] →
  match ev with
  | Initialize (ProcPC _) => f = AtStart
  | Timeout (ProcPC _) => ∃ n, f = AtThink n
  | Request sw r =>
      ∃ n rt srv, f = AtRequest n rt sw srv r ∧ req_proc r = i ∧ held sw r s
  | Initialize (ProcHandle srv _) | Timeout (ProcHandle srv _)
  | Process (ProcHandle srv _) =>
      ∃ n rt sw r st, f = AtService n rt sw srv r st ∧ req_proc r = i ∧
                      held sw r s
  | _ => False
  end.
Proof.
  intros Hf Hp. destruct f; simpl in Hf; rewrite Hp in Hf.
  - by injection Hf as ->.
  - injection Hf as ->. eauto.
  - destruct Hf as [Hr [[[= ->] Hh]|[? _]]]; [|done]. eauto 8.
  - destruct Hf as (Hr & Hh & [[= ->]|[[= ->]|[= ->]]]); eauto 10.
  - done.
Qed.

Lemma consistent_callbacks cfg s s' l1 e l2 :
  consistent s → env_queue s = l1 ++ e :: l2 →
  callbacks cfg (entry_event e)
    (set_env_now (entry_time e) (set_env_queue (l1 ++ l2) s)) = Ok s' →
  consistent s'.
Proof.
  intros Hc Hq.
  set (s0 := set_env_now (entry_time e) (set_env_queue (l1 ++ l2) s)).
  destruct (owner (entry_event e)) as [i|] eqn:Ho.
  - destruct (consistent_pop_owner s l1 e l2 (entry_time e) i Hc Hq Ho)
      as (Hrun & Hp0 & f & Hf & Hok & Hp).
    fold s0 in Hrun, Hp0.
    pose proof (frame_ok_event _ _ _ _ Hok Hp) as Hev.
    assert (∀ sw r, held sw r s → held sw r s0) as Hheld
      by (intros; by eapply held_view).
    destruct (entry_event e) as [[j|srv j]|[j|srv j]|sw r|sw r|[j|srv j]];
      simpl in Ho; try done; injection Ho as <-; simpl.
    + subst f. apply (request_http_consistent cfg _ _ _ AtStart); done.
    + destruct Hev as (n & rt & sw & r & st & -> & Hr & Hh).
      unfold handle_request_begin.
      pose proof (uniform_rng (SERVICE_TIME cfg) s0) as Hu.
      destruct (uniform (SERVICE_TIME cfg) s0) as [d s1]. simpl in Hu. subst s1.
      unfold timeout. case_decide as Hneg; [done|]. intros [= <-].
      apply (running_consistent j _ (AtService n rt sw srv r st)).
      * apply running_schedule; [|by right].
        by eapply running_view; [| | |exact Hrun].
      * done.
      * split; [done|]. split; [by eapply held_view; [|exact Hh]|].
        right. left. rewrite pending_schedule, decide_True by done.
        change (pending j (set_rng _ s0)) with (pending j s0). by rewrite Hp0.
    + destruct Hev as [n ->].
      apply (request_http_consistent cfg _ _ _ (AtThink n)); done.
    + destruct Hev as (n & rt & sw & r & st & -> & Hr & Hh).
      intros [= <-]. unfold handle_request_end.
      apply (running_consistent j _ (AtService n rt sw srv r st)).
      * apply running_schedule; [|by right].
        by eapply running_view; [| | |exact Hrun].
      * done.
      * split; [done|]. split; [by eapply held_view; [|exact Hh]|].
        right. right. rewrite pending_schedule, decide_True by done.
        change (pending j (set_stdout _ s0)) with (pending j s0). by rewrite Hp0.
    + destruct Hev as (n & rt & srv & -> & Hr & Hh).
      apply (request_http_consistent cfg _ _ _ (AtRequest n rt sw srv r));
        try done.
      intros ????? [= <- <- <- <- <-]. auto.
    + destruct Hev as (n & rt & sw & r & st & -> & Hr & Hh).
      apply (request_http_consistent cfg _ _ _ (AtService n rt sw srv r st));
        try done.
      intros ?????? [= <- <- <- <- <- <-]. auto.
  - pose proof (consistent_pop_none s l1 e l2 (entry_time e) Hc Hq Ho) as Hc0.
    fold s0 in Hc0.
    destruct (entry_event e) as [[j|srv j]|[j|srv j]|sw r|sw r|[j|srv j]];
      simpl in Ho; try done; simpl; intros [= <-]; [|done].
    by apply trigger_put_consistent.
Qed.

Lemma consistent_step cfg s s' :
  consistent s → step cfg s = Some (Ok s') → consistent s'.
Proof.
  intros Hc (e & l1 & l2 & Hq & _ & H)%step_Ok.
  by eapply consistent_callbacks.
Qed.

Lemma owned_initial i n :
  owned i ((λ j, (0, URGENT, j, Initialize (ProcPC j))) <$> seq 0 n) =
  if decide (i < n)%nat then [Initialize (ProcPC i)] else [].
Proof.
  induction n as [|n IH]; [done|].
  rewrite seq_S, fmap_app, owned_app, IH. simpl. rewrite owned_cons. simpl.
  destruct (decide (n = i)) as [->|Hne].
  - rewrite (decide_True (P := Some i = Some i)) by done.
    rewrite (decide_False (P := (i < i)%nat)) by lia.
    rewrite (decide_True (P := (i < S i)%nat)) by lia. reflexivity.
  - rewrite (decide_False (P := Some n = Some i)) by congruence.
    change (owned i []) with (@nil event). rewrite !app_nil_r.
    repeat case_decide; try done; lia.
Qed.

Lemma consistent_initial cfg g :
  (0 < SWITCH_CAPACITY cfg ∨ (FIFO_COUNT cfg + PRIORITY_COUNT cfg = 0)%nat) →
  consistent (initial_state cfg g).
Proof.
  intros _.
  assert (∀ sw switch, switch_list cfg !! sw = Some switch → queue switch = [])
    as Hempty.
  { intros sw switch Hsw. apply list_elem_of_lookup_2 in Hsw.
    unfold switch_list in Hsw.
    apply elem_of_app in Hsw as [Hsw|Hsw];
      apply list_elem_of_fmap in Hsw as (k & -> & _); done. }
  split.
  - intros i f. unfold frames. simpl. rewrite <-list_fmap_compose.
    rewrite list_lookup_fmap. intros Hi.
    destruct (seq 0 (NUM_PCS cfg) !! i) as [k|] eqn:E; [|done].
    injection Hi as <-. apply lookup_seq in E as [-> Hlt]. simpl.
    unfold pending. simpl. rewrite owned_initial. by rewrite decide_True.
  - intros i. unfold frames, pending. simpl.
    rewrite !length_fmap, length_seq. intros Hi.
    rewrite owned_initial. by rewrite decide_False by lia.
  - intros sw switch r Hsw Hr. simpl in Hsw.
    rewrite (Hempty _ _ Hsw) in Hr. by apply elem_of_nil in Hr.
  - intros sw switch Hsw. simpl in Hsw. rewrite (Hempty _ _ Hsw). constructor.
Qed.

Lemma reachable_consistent cfg s : reachable cfg s → consistent s.
Proof.
  induction 1 as [g s Hs|s s' _ IH Hstep].
  - rewrite setup_eq in Hs. case_decide as Hc; [done|]. injection Hs as <-.
    apply consistent_initial. destruct (decide (0 < SWITCH_CAPACITY cfg)); [auto|].
    right. destruct (decide (FIFO_COUNT cfg + PRIORITY_COUNT cfg = 0)%nat); [done|].
    exfalso. apply Hc. split; lia.
  - by eapply consistent_step.
Qed.

(** ** Claims *)
Lemma reachable_config cfg s :
  reachable cfg s →
  0 < SWITCH_CAPACITY cfg ∨ (FIFO_COUNT cfg + PRIORITY_COUNT cfg = 0)%nat.
Proof.
  induction 1 as [g s Hs|]; [|done].
  rewrite setup_eq in Hs. case_decide as Hc; [done|].
  destruct (decide (0 < SWITCH_CAPACITY cfg)); [auto|]. right.
  destruct (decide (FIFO_COUNT cfg + PRIORITY_COUNT cfg = 0)%nat); [done|].
  exfalso. apply Hc. split; lia.
Qed.

Lemma switch_list_lookup cfg i sw :
  switch_list cfg !! i = Some sw →
  sw_capacity sw = SWITCH_CAPACITY cfg ∧ users sw = [] ∧ queue sw = [] ∧
  sw_put_queue sw =
    match sw_class sw with FIFO => PlainList | Priority => SortedQueue end.
Proof.
  intros H%list_elem_of_lookup_2. unfold switch_list in H.
  apply elem_of_app in H as [H|H];
    apply list_elem_of_fmap in H as (k & -> & _); done.
Qed.

Lemma reachable_switch cfg s i sw :
  reachable cfg s → switches s !! i = Some sw →
  ∃ sw0, switch_list cfg !! i = Some sw0 ∧ evolves sw0 sw.
Proof.
  intros Hr Hi. apply reachable_invariant in Hr as [_ _ Hsw _ _ _ _ _].
  destruct (Forall2_lookup_r _ _ _ _ _ Hsw Hi) as (sw0 & ? & ?). eauto.
Qed.

(** C2.  In every state of the run, at whatever virtual time, a switch of
    capacity C has at most C users (requests holding a slot); the capacity
    is the constant SWITCH_CAPACITY, which is 1 in the deployment. *)
Theorem C2_held_slots_never_exceed_capacity cfg s i sw :
  reachable cfg s → switches s !! i = Some sw →
  sw_capacity sw = SWITCH_CAPACITY cfg ∧
  Z.of_nat (length (users sw)) ≤ sw_capacity sw ∧
  (cfg = deployment → (length (users sw) ≤ 1)%nat).
Proof.
  intros Hr Hi.
  destruct (reachable_switch _ _ _ _ Hr Hi) as (sw0 & H0 & [Hb Hcap]).
  destruct (switch_list_lookup _ _ _ H0) as (HC & Hu & _).
  assert (sw_capacity sw = SWITCH_CAPACITY cfg) as Hc.
  { rewrite <-HC. by injection Hb. }
  assert (Z.of_nat (length (users sw)) ≤ sw_capacity sw) as Hle.
  { apply Hcap. rewrite Hu, HC. simpl.
    destruct (reachable_config _ _ Hr) as [?|Hz]; [lia|].
    apply lookup_lt_Some in H0. unfold switch_list in H0.
    rewrite length_app, !length_fmap, !length_seq in H0. lia. }
  split_and!; [done..|]. intros ->. rewrite Hc in Hle. simpl in Hle. lia.
Qed.

(** The explicit result of the head of the loop. *)
Lemma request_http_loop_Ok cfg i n s s' :
  request_http_loop cfg i n s = Ok s' →
  match n with
  | O => s' = schedule (Process (ProcPC i)) NORMAL 0 (set_pc_frame i Finished s)
  | S n' =>
      let k := (rng_random (rng s)).1 in
      let think := (THINK_TIME cfg).1 * TENTH +
                   ((THINK_TIME cfg).2 - (THINK_TIME cfg).1) * k in
      0 ≤ think ∧
      s' = set_pc_frame i (AtThink n')
             (schedule (Timeout (ProcPC i)) NORMAL think
                (set_rng (rng_random (rng s)).2 s))
  end.
Proof.
  unfold request_http_loop. destruct n as [|n]; [by intros [= <-]|].
  unfold uniform, random. destruct (rng_random (rng s)) as [k g]. simpl.
  unfold timeout. case_decide as Hneg; [done|]. simpl. intros [= <-].
  split; [lia|done].
Qed.

Lemma request_http_loop_pcs cfg i n s s' :
  request_http_loop cfg i n s = Ok s' →
  ∃ f, pcs s' = alter (set_frame f) i (pcs s).
Proof.
  intros H%request_http_loop_Ok. destruct n as [|n].
  - subst s'. by eexists.
  - destruct H as [_ ->]. by eexists.
Qed.

(** The explicit result of lines 36-47. *)
Lemma request_http_issue_Ok i n s s' :
  request_http_issue i n s = Ok s' →
  let sw := (rng_randbelow (length (switches s)) (rng s)).1 in
  let g1 := (rng_randbelow (length (switches s)) (rng s)).2 in
  let srv := (rng_randbelow (length (http_servers s)) g1).1 in
  let g2 := (rng_randbelow (length (http_servers s)) g1).2 in
  ∃ switch st,
    switches s !! sw = Some switch ∧ is_Some (http_servers s !! srv) ∧
    switch_stats s !! sw_name switch = Some st ∧
    let s1 := set_switch_stats
                (<[sw_name switch :=
                     {| queue_lengths := queue_lengths st ++ [length (queue switch)];
                        utilization := utilization st |}]> (switch_stats s))
                (set_rng g2 s) in
    let r := new_request switch i s in
    s' = set_pc_frame i (AtRequest n (env_now s) sw srv r)
           (trigger_put sw
              (set_next_id (S (next_id s))
                 (set_switches
                    (<[sw := set_queue
                               (put_queue_append (sw_put_queue switch)
                                  (queue switch) r) switch]> (switches s))
                    s1))).
Proof.
  unfold request_http_issue, choice. intros H.
  destruct (switches s) as [|sw0 sws] eqn:Esw; [done|]. rewrite <-Esw in *.
  simpl in H.
  destruct (rng_randbelow (length (switches s)) (rng s)) as [sw g1] eqn:E1.
  simpl in *.
  destruct (switches s !! sw) as [switch|] eqn:Hsw; [|done]. simpl in H.
  destruct (http_servers s) as [|srv0 srvs] eqn:Esrv; [done|]. rewrite <-Esrv in *.
  destruct (rng_randbelow (length (http_servers s)) g1) as [srv g2] eqn:E2.
  simpl in *.
  destruct (http_servers s !! srv) as [name|] eqn:Hsrv; [|done]. simpl in H.
  rewrite Hsw in H. unfold record_queue_length in H. simpl in H.
  destruct (switch_stats s !! sw_name switch) as [st|] eqn:Hst; [|done].
  simpl in H. unfold switch_request in H. simpl in H. rewrite Hsw in H.
  simpl in H. injection H as <-.
  exists switch, st. split_and!; [done|by eexists|done|done].
Qed.

Lemma request_http_pcs cfg i s s' :
  request_http cfg i s = Ok s' → ∃ f, pcs s' = alter f i (pcs s).
Proof.
  unfold request_http. destruct (pcs s !! i) as [p|]; [|done].
  destruct (pc_frame p) as [|n|n rt sw srv r|n rt sw srv r st|]; [| | | |done].
  - intros [f Hf]%request_http_loop_pcs. eauto.
  - intros H%request_http_issue_Ok. simpl in H.
    destruct H as (switch & st & _ & _ & _ & ->).
    rewrite <-trigger_put_set_pc_frame.
    match goal with |- ∃ f, pcs (trigger_put ?i ?x) = _ =>
      assert (pcs (trigger_put i x) = pcs x) as ->
        by (unfold trigger_put; repeat case_match; done) end.
    by eexists.
  - unfold request_http_granted, random.
    destruct (rng_random (rng s)) as [k g]. case_decide as Hloss.
    + intros [f Hf]%request_http_loop_pcs. exists (set_frame f). rewrite Hf.
      unfold count_loss. by destruct (class_of _ _).
    + intros [= <-]. by eexists.
  - unfold request_http_served. intros [f Hf]%request_http_loop_pcs.
    exists (set_frame f ∘ count_success). rewrite Hf. simpl.
    by rewrite list_alter_alter_eq.
Qed.

Lemma callbacks_pcs cfg ev s s' i :
  callbacks cfg ev s = Ok s' → owner ev ≠ Some i → pcs s' !! i = pcs s !! i.
Proof.
  intros H Ho.
  assert (∀ j, j ≠ i → request_http cfg j s = Ok s' → pcs s' !! i = pcs s !! i)
    as Hreq.
  { intros j Hj [f ->]%request_http_pcs. by rewrite list_lookup_alter_ne. }
  destruct ev as [[j|srv j]|[j|srv j]|sw r|sw r|[j|srv j]];
    cbv beta iota delta [callbacks owner] in H, Ho;
    try (eapply Hreq; [|exact H]; congruence).
  - unfold handle_request_begin in H.
    pose proof (uniform_rng (SERVICE_TIME cfg) s) as Hu.
    destruct (uniform (SERVICE_TIME cfg) s) as [d s1]. simpl in Hu. subst s1.
    unfold timeout in H. case_decide; [done|]. by injection H as <-.
  - by injection H as <-.
  - injection H as <-. unfold trigger_put. repeat case_match; done.
  - by injection H as <-.
Qed.

(** C3.  While the generator of a PC is suspended on the service of a
    request (line 57: from the start of the service to the resumption that
    reads [end_time]), that request is among the users of its switch: the
    slot is held for the whole service.  And a step leaves the generator
    suspended on that service unless it is the one that processes the end of
    the handler, [Process (ProcHandle srv i)]: the release waits for the
    completion of the service. *)
Theorem C3_slot_held_during_service cfg s i p n rt sw srv r st :
  reachable cfg s → pcs s !! i = Some p →
  pc_frame p = AtService n rt sw srv r st →
  (∃ switch, switches s !! sw = Some switch ∧ r ∈ users switch) ∧
  ∀ s', step cfg s = Some (Ok s') →
    pcs s' !! i = Some p ∨
    ∃ e rest, heappop (env_queue s) = Some (e, rest) ∧
              entry_event e = Process (ProcHandle srv i).
Proof.
  intros Hr Hi Hf. apply reachable_consistent in Hr as Hc.
  destruct Hc as [H1 _ _ _].
  assert (frames s !! i = Some (AtService n rt sw srv r st)) as Hfr.
  { unfold frames. by rewrite list_lookup_fmap, Hi, <-Hf. }
  destruct (H1 _ _ Hfr) as (_ & (switch & ? & ? & _) & Hp).
  split; [by eauto|]. intros s' Hstep. unfold step in Hstep.
  destruct (heappop (env_queue s)) as [[e rest]|] eqn:Hpop; [|done].
  pose proof (heappop_Some _ _ _ Hpop) as (l1 & l2 & Hq & -> & _).
  destruct e as [[[t pr] id] ev]. injection Hstep as Hcb.
  destruct (decide (owner ev = Some i)) as [Ho|Ho].
  - assert (pending i s = [ev]) as Hev.
    { unfold pending in *. rewrite Hq in *.
      destruct Hp as [Hp|[Hp|Hp]];
        destruct (owned_pop_self i l1 (t, pr, id, ev) l2 _ Ho Hp) as [E _];
        simpl in E; by rewrite Hp, E. }
    rewrite Hev in Hp. destruct Hp as [[= ->]|[[= ->]|[= ->]]].
    + left. cbv beta iota delta [callbacks] in Hcb.
      unfold handle_request_begin in Hcb.
      match type of Hcb with context [uniform ?a ?x] =>
        pose proof (uniform_rng a x) as Hu; destruct (uniform a x) as [d s1] end.
      simpl in Hu. subst s1.
      unfold timeout in Hcb. case_decide; [done|]. by injection Hcb as <-.
    + left. simpl in Hcb. by injection Hcb as <-.
    + right. by exists (t, pr, id, Process (ProcHandle srv i)), (l1 ++ l2).
  - left. by rewrite (callbacks_pcs _ _ _ _ _ Hcb Ho).
Qed.

(** ** The statistics of the switches *)
Lemma foldl_insert_lookup {A} (key : A → string) (v : stat) (l : list A)
    (m : gmap string stat) k :
  foldl (λ m x, <[key x := v]> m) m l !! k =
  if decide (k ∈ key <$> l) then Some v else m !! k.
Proof.
  revert m. induction l as [|x l IH]; intros m.
  - destruct (decide (k ∈ key <$> [])) as [H|H]; [by apply elem_of_nil in H|done].
  - rewrite fmap_cons. simpl foldl.
    rewrite IH. destruct (decide (k ∈ key <$> l)) as [Hin|Hnin].
    + rewrite decide_True; [done|]. by right.
    + destruct (decide (k = key x)) as [->|Hne].
      * rewrite decide_True by (by left). by rewrite lookup_insert_eq.
      * rewrite decide_False.
        -- by rewrite lookup_insert_ne.
        -- intros [?|?]%elem_of_cons; done.
Qed.

Lemma initial_stats_lookup cfg sws name :
  initial_stats cfg sws !! name =
  if decide (name ∈ sw_name <$> sws) then Some empty_stat
  else if decide (name ∈ (λ i, "Switch " +:+ pretty (S i)) <$> seq 0 (NUM_SWITCHES cfg))
  then Some empty_stat else None.
Proof.
  unfold initial_stats, placeholder_stats.
  rewrite (foldl_insert_lookup sw_name), (foldl_insert_lookup (λ i, "Switch " +:+ pretty (S i))).
  by rewrite lookup_empty.
Qed.

Lemma initial_stats_empty cfg sws name st :
  initial_stats cfg sws !! name = Some st → st = empty_stat.
Proof. rewrite initial_stats_lookup. repeat case_decide; congruence. Qed.

(** What the run keeps of the statistics: the keys, the empty
    [utilization] lists, and empty [queue_lengths] except under the names of
    the switches. *)
Lemma reachable_stats cfg s name :
  reachable cfg s →
  match initial_stats cfg (switch_list cfg) !! name with
  | None => switch_stats s !! name = None
  | Some _ =>
      ∃ st, switch_stats s !! name = Some st ∧ utilization st = [] ∧
            (st ≠ empty_stat → name ∈ sw_name <$> switches s)
  end.
Proof.
  intros Hr. apply reachable_invariant in Hr as [_ _ Hsw Hst _ _ _ _].
  specialize (Hst name).
  destruct (initial_stats cfg (switch_list cfg) !! name) as [st0|] eqn:E; [|done].
  apply initial_stats_empty in E as ->.
  destruct Hst as (st & Hs & Hu & _ & Hn). exists st.
  split_and!; [done..|]. by rewrite (Forall2_evolves_names _ _ Hsw).
Qed.

Lemma reachable_stats_key cfg s sw switch :
  reachable cfg s → switches s !! sw = Some switch →
  is_Some (switch_stats s !! sw_name switch).
Proof.
  intros Hr Hsw. pose proof (reachable_stats cfg s (sw_name switch) Hr) as H.
  rewrite initial_stats_lookup in H.
  apply reachable_invariant in Hr as [_ _ Hev _ _ _ _ _].
  rewrite decide_True in H.
  - destruct H as (st & -> & _). by eexists.
  - rewrite <-(Forall2_evolves_names _ _ Hev).
    apply list_elem_of_fmap. exists switch. split; [done|].
    by eapply list_elem_of_lookup_2.
Qed.

Lemma request_http_loop_safe cfg i n s :
  0 ≤ (THINK_TIME cfg).1 ≤ (THINK_TIME cfg).2 →
  ∃ s', request_http_loop cfg i n s = Ok s'.
Proof.
  intros Hr. unfold request_http_loop. destruct n as [|n]; [by eexists|].
  unfold uniform, random. pose proof (rng_random_range (rng s)) as Hk.
  destruct (rng_random (rng s)) as [k g]. simpl in *.
  unfold timeout. rewrite decide_False; [by eexists|]. unfold TENTH. nia.
Qed.

Lemma choice_safe {A} (l : list A) s :
  l ≠ [] → ∃ i s', choice l s = Ok (i, s').
Proof.
  intros Hl. unfold choice. destruct l as [|x l]; [done|].
  pose proof (rng_randbelow_range (length (x :: l)) (rng s)) as Hi.
  destruct (rng_randbelow _ _) as [i g]. simpl in Hi.
  destruct (lookup_lt_is_Some_2 (x :: l) i) as [y Hy]; [simpl; lia|].
  rewrite Hy. by eexists _, _.
Qed.

Lemma request_http_issue_safe i n s :
  switches s ≠ [] → http_servers s ≠ [] →
  (∀ sw switch, switches s !! sw = Some switch →
     is_Some (switch_stats s !! sw_name switch)) →
  ∃ s', request_http_issue i n s = Ok s'.
Proof.
  intros Hsw Hsrv Hkeys. unfold request_http_issue.
  destruct (choice_safe (switches s) s Hsw) as (sw & s1 & E1). rewrite E1.
  pose proof E1 as [[switch Hswitch] ->]%choice_Ok. simpl.
  match goal with |- context [choice (http_servers s) ?x] =>
    destruct (choice_safe (http_servers s) x Hsrv) as (srv & s2 & E2) end.
  rewrite E2. pose proof E2 as [_ ->]%choice_Ok. simpl. rewrite Hswitch.
  unfold record_queue_length. simpl.
  destruct (Hkeys _ _ Hswitch) as [st ->]. simpl.
  unfold switch_request. simpl. rewrite Hswitch. simpl. by eexists.
Qed.

Lemma request_http_safe cfg i s p :
  0 ≤ (THINK_TIME cfg).1 ≤ (THINK_TIME cfg).2 →
  switches s ≠ [] → http_servers s ≠ [] →
  (∀ sw switch, switches s !! sw = Some switch →
     is_Some (switch_stats s !! sw_name switch)) →
  pcs s !! i = Some p → pc_frame p ≠ Finished →
  ∃ s', request_http cfg i s = Ok s'.
Proof.
  intros Hr Hsw Hsrv Hkeys Hi Hf. unfold request_http. rewrite Hi.
  destruct (pc_frame p) as [|n|n rt sw srv r|n rt sw srv r st|]; [| | | |done].
  - by apply request_http_loop_safe.
  - by apply request_http_issue_safe.
  - unfold request_http_granted. destruct (random s) as [k s1].
    case_decide; [by apply request_http_loop_safe|by eexists].
  - by apply request_http_loop_safe.
Qed.

Lemma reachable_lists cfg s :
  reachable cfg s → valid cfg → switches s ≠ [] ∧ http_servers s ≠ [].
Proof.
  intros Hr (Hq & Hs & _). apply reachable_invariant in Hr as [Hsrv _ Hsw _ _ _ _ _].
  split.
  - apply Forall2_length in Hsw. intros E. rewrite E in Hsw.
    unfold switch_list in Hsw. rewrite length_app, !length_fmap, !length_seq in Hsw.
    simpl in Hsw. lia.
  - rewrite Hsrv. intros E%(f_equal length).
    rewrite length_fmap, length_seq in E. simpl in E. lia.
Qed.

(** With a valid configuration a step never raises. *)
Lemma step_safe cfg s :
  reachable cfg s → valid cfg → env_queue s ≠ [] →
  ∃ s', step cfg s = Some (Ok s').
Proof.
  intros Hr Hv Hne. pose proof Hv as (_ & _ & Hthink & Hservice).
  destruct (reachable_lists _ _ Hr Hv) as [Hsw Hsrv].
  pose proof (reachable_consistent _ _ Hr) as Hc.
  unfold step. destruct (heappop (env_queue s)) as [[e rest]|] eqn:Hpop.
  2:{ by apply heappop_None in Hpop. }
  apply heappop_Some in Hpop as (l1 & l2 & Hq & -> & _).
  destruct e as [[[t pr] id] ev].
  set (s0 := set_env_now t (set_env_queue (l1 ++ l2) s)).
  assert (∀ i, owner ev = Some i → ∃ s', request_http cfg i s0 = Ok s') as Hreq.
  { intros i Ho.
    destruct (consistent_pop_owner s l1 (t, pr, id, ev) l2 t i Hc Hq Ho)
      as (_ & _ & f & Hf & Hok & Hp).
    destruct (lookup_frames _ _ _ Hf) as (p & Hp' & Hpf).
    apply (request_http_safe cfg i s0 p); try done.
    - intros sw switch Hx. by apply (reachable_stats_key cfg s sw).
    - rewrite Hpf. intros ->. simpl in Hok. by rewrite Hok in Hp. }
  destruct ev as [[j|srv j]|[j|srv j]|sw r|sw r|[j|srv j]]; simpl;
    try (destruct (Hreq _ eq_refl) as [s' ->]; by eexists).
  - unfold handle_request_begin, uniform, random.
    pose proof (rng_random_range (rng s0)) as Hk.
    destruct (rng_random (rng s0)) as [k g]. simpl in *.
    unfold timeout. rewrite decide_False; [by eexists|]. unfold TENTH. nia.
  - by eexists.
  - by eexists.
  - by eexists.
Qed.

(** The state in which [env.run()] returns is reachable and has an empty
    schedule. *)
Lemma run_reachable cfg fuel s s' :
  reachable cfg s → run cfg fuel s = Some (Ok s') →
  reachable cfg s' ∧ env_queue s' = [].
Proof.
  revert s. induction fuel as [|fuel IH]; intros s Hr; simpl; [done|].
  destruct (step cfg s) as [[s1|e]|] eqn:Hstep; [|done|].
  - apply IH. by eapply reachable_step.
  - intros [= <-]. split; [done|]. unfold step in Hstep.
    destruct (heappop (env_queue s)) as [[[[[??]?]?]?]|] eqn:E; [done|].
    by apply heappop_None.
Qed.

Lemma run_safe cfg fuel s :
  reachable cfg s → valid cfg → (potential cfg s < fuel)%nat →
  ∃ s', run cfg fuel s = Some (Ok s').
Proof.
  intros Hr Hv. revert s Hr. induction fuel as [|fuel IH]; intros s Hr Hp; [lia|].
  simpl. destruct (decide (env_queue s = [])) as [E|E].
  - unfold step. rewrite E. simpl. by eexists.
  - destruct (step_safe _ _ Hr Hv E) as [s1 Hs1]. rewrite Hs1.
    apply IH; [by eapply reachable_step|].
    apply potential_step in Hs1. lia.
Qed.

(** Total correctness of [env.run()] under a valid configuration. *)
Lemma env_run_safe cfg s :
  reachable cfg s → valid cfg →
  ∃ s', env_run cfg s = Ok s' ∧ reachable cfg s' ∧ env_queue s' = [].
Proof.
  intros Hr Hv. destruct (run_safe cfg (S (potential cfg s)) s) as [s' Hs'];
    [done..|lia|].
  exists s'. unfold env_run. rewrite Hs'. split; [done|].
  by eapply run_reachable.
Qed.

Lemma valid_deployment : valid deployment.
Proof. unfold valid. simpl. lia. Qed.

Lemma reachable_stats_size cfg s :
  reachable cfg s →
  size (switch_stats s) = size (initial_stats cfg (switch_list cfg)).
Proof.
  intros Hr. rewrite <-!size_dom. f_equal. apply set_eq. intros name.
  rewrite !elem_of_dom. pose proof (reachable_stats cfg s name Hr) as H.
  destruct (initial_stats cfg (switch_list cfg) !! name) as [st0|].
  - destruct H as (st & -> & _). split; by eexists.
  - rewrite H. done.
Qed.

(** C10.  Every run of the deployment ends, and in each of its states,
    the last one included: there are 16 switches and 28 keys in
    [switch_stats]; every [utilization] list is empty; a non-empty
    [queue_lengths] list is found only under the name of one of the 16
    switches; each of the twelve keys [Switch 1] .. [Switch 12] is the name
    of no switch and still maps to two empty lists. *)
Theorem C10_switch_statistics (g : rng_state) :
  ∃ s0 s_end,
    setup deployment g = Ok s0 ∧ env_run deployment s0 = Ok s_end ∧
    reachable deployment s_end ∧ env_queue s_end = [] ∧
    ∀ s, reachable deployment s →
      length (switches s) = 16%nat ∧ size (switch_stats s) = 28%nat ∧
      (∀ name st, switch_stats s !! name = Some st →
         utilization st = [] ∧
         (queue_lengths st ≠ [] → name ∈ sw_name <$> switches s)) ∧
      (∀ i, (i < 12)%nat →
         (("Switch " +:+ pretty (S i)) ∉ sw_name <$> switches s) ∧
         switch_stats s !! ("Switch " +:+ pretty (S i)) = Some empty_stat).
Proof.
  assert (reachable deployment (initial_state deployment g)) as Hr0.
  { apply (reachable_setup _ g). by rewrite setup_eq. }
  destruct (env_run_safe _ _ Hr0 valid_deployment) as (s_end & Hrun & Hre & Hq).
  exists (initial_state deployment g), s_end.
  split_and!; [by rewrite setup_eq|done..|].
  intros s Hr. pose proof (reachable_invariant _ _ Hr) as [_ _ Hsw _ _ _ _ _].
  pose proof (Forall2_evolves_names _ _ Hsw) as Hnames.
  split_and!.
  - by rewrite <-(Forall2_length _ _ _ Hsw).
  - by rewrite (reachable_stats_size deployment).
  - intros name st Hst. pose proof (reachable_stats deployment s name Hr) as H.
    destruct (initial_stats deployment (switch_list deployment) !! name);
      [|congruence].
    destruct H as (st' & Hst' & Hu & Hn). rewrite Hst in Hst'.
    injection Hst' as <-. split; [done|]. intros Hne. apply Hn. by intros ->.
  - intros i Hi.
    assert (Forall (λ i,
        (("Switch " +:+ pretty (S i)) ∉ sw_name <$> switch_list deployment) ∧
        initial_stats deployment (switch_list deployment)
          !! ("Switch " +:+ pretty (S i)) = Some empty_stat) (seq 0 12)) as HF.
    { compute_done. }
    rewrite Forall_forall in HF. destruct (HF i) as [Hnin Hinit].
    { apply list_elem_of_In, in_seq. lia. }
    rewrite Hnames. split; [done|].
    pose proof (reachable_stats deployment s ("Switch " +:+ pretty (S i)) Hr) as H.
    rewrite Hinit in H.
    destruct H as (st & Hst & _ & Hn). rewrite Hst. f_equal.
    destruct (decide (st = empty_stat)) as [|Hne]; [done|].
    apply Hn in Hne. by rewrite Hnames in Hne.
Qed.

Lemma step_stats cfg s s' :
  step cfg s = Some (Ok s') →
  Forall2 evolves (switches s) (switches s') ∧
  stat_extends (sw_name <$> switches s) (switch_stats s) (switch_stats s').
Proof.
  intros (e & l1 & l2 & _ & _ & H)%step_Ok.
  apply callbacks_extends in H as [_ _ _ _ Hsw Hst]. done.
Qed.

Lemma later_stats cfg s s' :
  later cfg s s' →
  Forall2 evolves (switches s) (switches s') ∧
  stat_extends (sw_name <$> switches s) (switch_stats s) (switch_stats s').
Proof.
  induction 1 as [s|s s1 s2 Hstep _ [IH1 IH2]].
  - split; [apply Forall2_evolves_refl|apply stat_extends_refl].
  - destruct (step_stats _ _ _ Hstep) as [H1 H2]. split.
    + by eapply Forall2_evolves_trans.
    + eapply stat_extends_trans; [done|].
      by rewrite <-(Forall2_evolves_names _ _ H1).
Qed.

Lemma step_heappop cfg s e rest :
  heappop (env_queue s) = Some (e, rest) →
  step cfg s =
  Some (callbacks cfg (entry_event e)
          (set_env_now (entry_time e) (set_env_queue rest s))).
Proof. unfold step. intros ->. by destruct e as [[[??]?]?]. Qed.

Lemma trigger_put_pcs i s : pcs (trigger_put i s) = pcs s.
Proof. unfold trigger_put. repeat case_match; done. Qed.

Lemma trigger_put_switch_stats i s :
  switch_stats (trigger_put i s) = switch_stats s.
Proof. unfold trigger_put. repeat case_match; done. Qed.

Lemma request_http_issue_Raise i n s e :
  request_http_issue i n s = Raise e →
  (∀ sw switch, switches s !! sw = Some switch →
     is_Some (switch_stats s !! sw_name switch)) →
  e = IndexError.
Proof.
  unfold request_http_issue. intros H Hkeys.
  destruct (choice (switches s) s) as [[sw s1]|e1] eqn:E1.
  2:{ simpl in H. injection H as <-. unfold choice in E1.
      repeat case_match; congruence. }
  apply choice_Ok in E1 as [_ ->]. simpl in H.
  match type of H with context [choice (http_servers s) ?x] =>
    destruct (choice (http_servers s) x) as [[srv s2]|e2] eqn:E2 end.
  2:{ simpl in H. injection H as <-. unfold choice in E2.
      repeat case_match; congruence. }
  apply choice_Ok in E2 as [_ ->]. simpl in H.
  destruct (switches s !! sw) as [switch|] eqn:Hsw; [|congruence].
  unfold record_queue_length in H. simpl in H.
  destruct (Hkeys _ _ Hsw) as [st Hst]. rewrite Hst in H. simpl in H.
  unfold switch_request in H. simpl in H. rewrite Hsw in H. done.
Qed.

(** C6.  The step that ends the think time of a PC is its acquire call.
    Before the request is created (and so before the generator suspends on
    it), one sample is appended to the [queue_lengths] list kept under the
    name of the chosen switch: the length of the waiting queue of that
    switch at that moment.  Nothing else in [switch_stats] changes, the
    lookup never raises [KeyError], and the sample stays in every later
    state, whatever becomes of the request. *)
Theorem C6_queue_length_sampled_at_arrival cfg s e rest i :
  reachable cfg s →
  heappop (env_queue s) = Some (e, rest) →
  entry_event e = Timeout (ProcPC i) →
  step cfg s ≠ Some (Raise KeyError) ∧
  ∀ s', step cfg s = Some (Ok s') →
  let sw := (rng_randbelow (length (switches s)) (rng s)).1 in
  ∃ switch st n srv r p',
    switches s !! sw = Some switch ∧
    switch_stats s !! sw_name switch = Some st ∧
    switch_stats s' =
      <[sw_name switch :=
          {| queue_lengths := queue_lengths st ++ [length (queue switch)];
             utilization := utilization st |}]> (switch_stats s) ∧
    pcs s' !! i = Some p' ∧
    pc_frame p' = AtRequest n (entry_time e) sw srv r ∧
    ∀ s'', later cfg s' s'' →
      ∃ st'', switch_stats s'' !! sw_name switch = Some st'' ∧
              (queue_lengths st ++ [length (queue switch)])
                `prefix_of` queue_lengths st''.
Proof.
  intros Hr Hpop Hev.
  pose proof (step_heappop cfg _ _ _ Hpop) as Hstep. rewrite Hev in Hstep.
  pose proof (reachable_consistent _ _ Hr) as Hc.
  pose proof (heappop_Some _ _ _ Hpop) as (l1 & l2 & Hq & -> & _).
  assert (owner (entry_event e) = Some i) as Ho by (by rewrite Hev).
  destruct (consistent_pop_owner s l1 e l2 (entry_time e) i Hc Hq Ho)
    as (_ & _ & f & Hf & Hok & Hp).
  pose proof (frame_ok_event _ _ _ _ Hok Hp) as Hfe. rewrite Hev in Hfe.
  destruct Hfe as [n ->].
  destruct (lookup_frames _ _ _ Hf) as (p & Hpi & Hpf).
  simpl in Hstep. unfold request_http in Hstep. simpl in Hstep.
  rewrite Hpi, Hpf in Hstep. rewrite Hstep. clear Hstep.
  split.
  { intros [= H]. apply request_http_issue_Raise in H; [done|].
    intros sw switch Hsw. by apply (reachable_stats_key cfg s sw). }
  intros s' [= Hcb] sw.
  apply request_http_issue_Ok in Hcb. simpl in Hcb.
  destruct Hcb as (switch & st & Hsw & [name Hsrv] & Hst & ->).
  fold sw in Hsw.
  set (srv := (rng_randbelow (length (http_servers s))
                 (rng_randbelow (length (switches s)) (rng s)).2).1) in *.
  set (r := new_request switch i _).
  exists switch, st, n, srv, r, (set_frame (AtRequest n (entry_time e) sw srv r) p).
  split_and!; [done|done| | |done|].
  - by rewrite <-trigger_put_set_pc_frame, trigger_put_switch_stats.
  - rewrite <-trigger_put_set_pc_frame, trigger_put_pcs.
    simpl. by rewrite list_lookup_alter_eq, Hpi.
  - intros s'' Hl. apply later_stats in Hl as [_ Hl].
    specialize (Hl (sw_name switch)).
    match type of Hl with match ?m !! _ with _ => _ end =>
      assert (m !! sw_name switch =
              Some {| queue_lengths := queue_lengths st ++ [length (queue switch)];
                      utilization := utilization st |}) as Hm end.
    { rewrite <-trigger_put_set_pc_frame, trigger_put_switch_stats. simpl.
      by rewrite lookup_insert_eq. }
    rewrite Hm in Hl. destruct Hl as (st'' & ? & _ & ? & _). eauto.
Qed.

Lemma list_remove_notin r l : r ∉ l → list_remove r l = l.
Proof.
  induction l as [|x l IH]; simpl; [done|]. intros Hn.
  rewrite decide_False.
  - f_equal. apply IH. intros ?. apply Hn. by right.
  - intros ->. apply Hn. by left.
Qed.

Lemma list_alter_insert {A} (f : A → A) i (l : list A) x :
  l !! i = Some x → alter f i l = <[i := f x]> l.
Proof.
  revert i. induction l as [|y l IH]; intros [|i]; simpl; try done.
  - by intros [= ->].
  - intros Hi. f_equal. by apply IH.
Qed.

(** Leaving the [with] block with a granted request. *)
Lemma request_exit_held sw r s switch :
  switches s !! sw = Some switch → r ∉ queue switch →
  request_exit sw r s =
  schedule (Release sw r) NORMAL 0
    (set_switches
       (<[sw := set_users (list_remove r (users switch)) switch]> (switches s)) s).
Proof.
  intros Hsw Hq. unfold request_exit, switch_release, cancel. simpl.
  assert (alter (λ sw0, set_users (list_remove r (users sw0)) sw0) sw
            (alter (λ sw0, set_queue (list_remove r (queue sw0)) sw0) sw
               (switches s)) =
          <[sw := set_users (list_remove r (users switch)) switch]> (switches s))
    as ->; [|done].
  rewrite list_alter_alter_eq. rewrite (list_alter_insert _ sw (switches s) switch Hsw).
  f_equal. simpl. rewrite (list_remove_notin r (queue switch)) by done.
  by destruct switch.
Qed.

Lemma successful_requests_alter f i (l : list PC) :
  (∀ p, successful_requests (f p) = successful_requests p) →
  successful_requests <$> alter f i l = successful_requests <$> l.
Proof.
  intros Hf. revert i. induction l as [|x l IH]; intros [|i]; simpl; try done.
  - by rewrite Hf.
  - f_equal. apply IH.
Qed.

(** C4.  The step that processes the grant of a slot draws a uniform value;
    when it is below the loss probability (0.10 in the deployment):
    the loss counter of the discipline of the switch goes up by one; the
    request leaves the users of the switch in that same step, and the
    release is scheduled at the current time; the only other new event is the
    next wake-up of the PC itself, so that no handler of a server is started
    and nothing is printed; no latency or delay sample is recorded; no success
    counter changes; the generator is in its next iteration (or finished
    after the last one); and the step raises nothing. *)
Theorem C4_loss_branch cfg s e rest sw r :
  reachable cfg s → 0 ≤ (THINK_TIME cfg).1 ≤ (THINK_TIME cfg).2 →
  heappop (env_queue s) = Some (e, rest) →
  entry_event e = Request sw r →
  10 * (rng_random (rng s)).1 < LOSS_PROBABILITY cfg * TENTH →
  ∃ s' switch p n rt srv next,
    step cfg s = Some (Ok s') ∧
    pcs s !! req_proc r = Some p ∧ pc_frame p = AtRequest n rt sw srv r ∧
    switches s !! sw = Some switch ∧ r ∈ users switch ∧
    data_loss s' = update (sw_class switch) S (data_loss s) ∧
    switches s' =
      <[sw := set_users (list_remove r (users switch)) switch]> (switches s) ∧
    env_queue s' =
      rest ++ [(entry_time e, NORMAL, env_eid s, Release sw r); next] ∧
    entry_event next =
      match n with
      | O => Process (ProcPC (req_proc r))
      | S _ => Timeout (ProcPC (req_proc r))
      end ∧
    stdout s' = stdout s ∧
    latencies s' = latencies s ∧ delays s' = delays s ∧
    overall_latencies s' = overall_latencies s ∧
    overall_delays s' = overall_delays s ∧
    successful_requests <$> pcs s' = successful_requests <$> pcs s ∧
    pc_frame <$> pcs s' !! req_proc r =
      Some (match n with O => Finished | S n' => AtThink n' end).
Proof.
  intros Hr Hthink Hpop Hev Hloss.
  pose proof (step_heappop cfg _ _ _ Hpop) as Hstep. rewrite Hev in Hstep.
  pose proof (reachable_consistent _ _ Hr) as Hc.
  pose proof (heappop_Some _ _ _ Hpop) as (l1 & l2 & Hq & -> & _).
  assert (owner (entry_event e) = Some (req_proc r)) as Ho by (by rewrite Hev).
  destruct (consistent_pop_owner s l1 e l2 (entry_time e) _ Hc Hq Ho)
    as (_ & _ & f & Hf & Hok & Hp).
  pose proof (frame_ok_event _ _ _ _ Hok Hp) as Hfe. rewrite Hev in Hfe.
  destruct Hfe as (n & rt & srv & -> & _ & (switch & Hsw & Hin & Hnq)).
  destruct (lookup_frames _ _ _ Hf) as (p & Hpi & Hpf).
  set (s0 := set_env_now (entry_time e) (set_env_queue (l1 ++ l2) s)) in *.
  simpl in Hstep. unfold request_http in Hstep.
  change (pcs s0) with (pcs s) in Hstep. rewrite Hpi, Hpf in Hstep.
  unfold request_http_granted, random in Hstep.
  change (rng s0) with (rng s) in Hstep.
  destruct (rng_random (rng s)) as [k g] eqn:Ek. simpl in Hloss.
  rewrite decide_True in Hstep by done.
  assert (class_of sw (set_rng g s0) = Some (sw_class switch)) as Hcl.
  { unfold class_of. simpl. by rewrite Hsw. }
  unfold count_loss in Hstep. rewrite Hcl in Hstep.
  rewrite (request_exit_held sw r _ switch) in Hstep by done.
  match type of Hstep with _ = Some (request_http_loop _ _ _ ?x) =>
    set (s1 := x) in *;
    destruct (request_http_loop_safe cfg (req_proc r) n s1 Hthink) as [s' Hs'] end.
  rewrite Hs' in Hstep. apply request_http_loop_Ok in Hs'.
  destruct n as [|n]; [|destruct Hs' as [Hnn Hs']]; subst s';
    eexists _, switch, p, _, rt, srv, _;
    (split; [exact Hstep|]); split_and!; try done.
  - simpl. rewrite Z.add_0_r, <-app_assoc. reflexivity.
  - done.
  - simpl. by apply successful_requests_alter.
  - simpl. by rewrite list_lookup_alter_eq, Hpi.
  - simpl. rewrite Z.add_0_r, <-app_assoc. reflexivity.
  - done.
  - simpl. by apply successful_requests_alter.
  - simpl. by rewrite list_lookup_alter_eq, Hpi.
Qed.

Lemma unique_decomposition (l1 l1' : list entry) e e' l2 l2' :
  StronglySorted lt (entry_eid <$> (l1 ++ e :: l2)) →
  l1 ++ e :: l2 = l1' ++ e' :: l2' → entry_eid e = entry_eid e' →
  l1 = l1' ∧ e = e' ∧ l2 = l2'.
Proof.
  revert l1'. induction l1 as [|x l1 IH]; intros [|y l1']; simpl.
  - by intros _ [= -> ->].
  - intros Hs [= <- ->] He. inversion Hs as [|?? _ Hall]; subst.
    rewrite Forall_forall in Hall.
    assert (entry_eid e < entry_eid e')%nat; [|lia].
    apply Hall, list_elem_of_fmap_2, elem_of_app. right. by left.
  - intros Hs [= -> <-] He. inversion Hs as [|?? _ Hall]; subst.
    rewrite Forall_forall in Hall.
    assert (entry_eid e' < entry_eid e)%nat; [|lia].
    apply Hall, list_elem_of_fmap_2, elem_of_app. right. by left.
  - intros Hs [= -> Heq] He. inversion Hs as [|?? Hs' _]; subst.
    destruct (IH _ Hs' Heq He) as (-> & -> & ->). done.
Qed.

Lemma step_Step cfg s r : step cfg s = Some r → Step cfg s r.
Proof.
  unfold step. destruct (heappop (env_queue s)) as [[e rest]|] eqn:E; [|done].
  apply heappop_Some in E as (l1 & l2 & Hq & -> & Hmin).
  destruct e as [[[t p] id] ev]. intros [= <-].
  by apply (Step_pop cfg s l1 (t, p, id, ev) l2).
Qed.

(** The ids of the scheduled entries are distinct, so only one entry can be
    the least: a [Step] is the [step] of the program. *)
Lemma Step_step cfg s r : invariant cfg s → Step cfg s r → step cfg s = Some r.
Proof.
  intros Hinv [l1 e l2 Hq Hmin]. unfold step.
  destruct (heappop (env_queue s)) as [[e0 rest]|] eqn:E.
  2:{ apply heappop_None in E. rewrite E in Hq. by destruct l1. }
  apply heappop_Some in E as (l1' & l2' & Hq' & -> & Hmin').
  assert (entry_eid e = entry_eid e0) as Heid.
  { assert (entry_leb e e0 = true) as H1.
    { apply Hmin. rewrite Hq'. apply elem_of_app. right. by left. }
    assert (entry_leb e0 e = true) as H2.
    { apply Hmin'. rewrite Hq. apply elem_of_app. right. by left. }
    rewrite entry_leb_true in H1, H2. unfold entry_eid. lia. }
  destruct (unique_decomposition l1 l1' e e0 l2 l2') as (-> & -> & ->);
    [|congruence|done|].
  { rewrite <-Hq. by destruct Hinv. }
  by destruct e0 as [[[t p] id] ev].
Qed.

Lemma Run_deterministic cfg s r1 r2 :
  invariant cfg s → Run cfg s r1 → Run cfg s r2 → r1 = r2.
Proof.
  intros Hinv H1. revert r2 Hinv.
  induction H1 as [s Hq|s e Hs|s s' r Hs _ IH]; intros r2 Hinv H2.
  - inversion H2 as [|?? [l1 ? l2 Hq' _]|??? [l1 ? l2 Hq' _]]; subst; [done|..];
      rewrite Hq in Hq'; by destruct l1.
  - apply Step_step in Hs; [|done].
    inversion H2 as [? Hq|?? Hs'|??? Hs' _]; subst.
    + unfold step in Hs. by rewrite Hq in Hs.
    + apply Step_step in Hs'; [|done]. congruence.
    + apply Step_step in Hs'; [|done]. congruence.
  - apply Step_step in Hs; [|done].
    inversion H2 as [? Hq|?? Hs'|??? Hs' Hrun]; subst.
    + unfold step in Hs. by rewrite Hq in Hs.
    + apply Step_step in Hs'; [|done]. congruence.
    + apply Step_step in Hs'; [|done].
      assert (s'0 = s') as -> by congruence.
      apply IH; [|done]. by eapply invariant_step.
Qed.

Lemma run_Run cfg fuel s r : run cfg fuel s = Some r → Run cfg s r.
Proof.
  revert s. induction fuel as [|fuel IH]; intros s; simpl; [done|].
  destruct (step cfg s) as [[s'|e]|] eqn:Hstep.
  - intros H. eapply Run_step; [by apply step_Step|by apply IH].
  - intros [= <-]. by apply Run_raise, step_Step.
  - intros [= <-]. apply Run_empty. unfold step in Hstep.
    destruct (heappop (env_queue s)) as [[[[[??]?]?]?]|] eqn:E; [done|].
    by apply heappop_None.
Qed.

(** The program computes its simulation. *)
Lemma Simulation_computed cfg g :
  Simulation cfg g (setup cfg g ≫= env_run cfg).
Proof.
  unfold Simulation. destruct (setup cfg g) as [s|e]; [|done]. simpl.
  apply (run_Run cfg (S (potential cfg s))), env_run_run.
Qed.

(** C1.  A seed fixes the initial state [g] of the random module, a
    configuration the constants.  Two runs from the same [g] under the same
    configuration end alike: with the same exception, or in the same final
    state, which holds everything the program reports (the loss counters,
    the sample sequences and so their means, the success counters and the
    clock and so the throughput, the lines printed and their order).  The
    schedule resolves simultaneous events by priority and then by the id of
    the entry, and the ids are distinct. *)
Theorem C1_replay cfg g r1 r2 :
  Simulation cfg g r1 → Simulation cfg g r2 →
  r1 = r2 ∧ (r1 ≫= summary) = (r2 ≫= summary).
Proof.
  unfold Simulation. rewrite setup_eq. case_decide.
  - by intros -> ->.
  - intros H1 H2.
    assert (r1 = r2) as ->; [|done].
    eapply Run_deterministic; [apply invariant_initial|done..].
Qed.

Lemma request_http_loop_Raise cfg i n s e :
  request_http_loop cfg i n s = Raise e → e = ValueError.
Proof.
  unfold request_http_loop. destruct n as [|n]; [done|].
  destruct (uniform (THINK_TIME cfg) s) as [d s1]. unfold timeout.
  case_decide; simpl; congruence.
Qed.

Lemma callbacks_Raise cfg ev s e :
  callbacks cfg ev s = Raise e → raised_by_program e.
Proof.
  unfold raised_by_program.
  assert (∀ i, request_http cfg i s = Raise e →
               e = ValueError ∨ e = IndexError ∨ e = KeyError ∨ e = RuntimeError)
    as Hreq.
  { intros i. unfold request_http.
    destruct (pcs s !! i) as [p|]; [|intros [= <-]; auto].
    destruct (pc_frame p) as [|n|n rt sw srv r|n rt sw srv r st|].
    - intros ->%request_http_loop_Raise. auto.
    - unfold request_http_issue, choice, record_queue_length, switch_request.
      intros H. repeat (case_match; simpl in H; simplify_eq); auto.
    - unfold request_http_granted. destruct (random s) as [k s1].
      case_decide; [|done]. intros ->%request_http_loop_Raise. auto.
    - intros ->%request_http_loop_Raise. auto.
    - intros [= <-]. auto. }
  destruct ev as [[j|srv j]|[j|srv j]|sw r|sw r|[j|srv j]]; simpl; eauto;
    try done.
  unfold handle_request_begin. destruct (uniform (SERVICE_TIME cfg) s) as [d s1].
  unfold timeout. case_decide; [|done]. intros [= <-]. auto.
Qed.

Lemma run_Raise cfg fuel s e :
  run cfg fuel s = Some (Raise e) → raised_by_program e.
Proof.
  revert s. induction fuel as [|fuel IH]; intros s; simpl; [done|].
  destruct (step cfg s) as [[s'|e']|] eqn:Hstep; [by apply IH| |done].
  intros [= <-]. unfold step in Hstep.
  destruct (heappop (env_queue s)) as [[[[[??]?]?]?]|]; [|done].
  injection Hstep as Hcb. by eapply callbacks_Raise.
Qed.

Lemma run_S cfg fuel s :
  run cfg (S fuel) s =
  match step cfg s with
  | None => Some (Ok s)
  | Some (Raise e) => Some (Raise e)
  | Some (Ok s') => run cfg fuel s'
  end.
Proof. done. Qed.

Local Arguments run : simpl never.

(** Evaluation of the model, by value: the functions of the model and the
    list functions they use are unfolded, arithmetic on times is not. *)
Ltac exec :=
  cbv beta iota zeta delta
    [step heappop entry_leb callbacks request_http request_http_loop
     request_http_issue request_http_granted request_http_served
     handle_request_begin handle_request_end uniform random choice timeout
     record_queue_length switch_request new_request trigger_put
     put_queue_append request_exit switch_release cancel list_remove
     count_loss class_of record_sample schedule update get count_success
     set_frame set_pc_frame set_users set_queue set_env_now set_env_queue
     set_env_eid set_rng set_next_id set_switches set_pcs set_data_loss
     set_latencies set_delays set_overall_latencies set_overall_delays
     set_switch_stats set_stdout scenario NORMAL URGENT
     initial_state switch_list built new_PC seq
     env_now env_queue env_eid rng next_id http_servers switches pcs
     data_loss latencies delays overall_latencies overall_delays
     switch_stats stdout sw_class sw_name sw_capacity sw_put_queue users
     queue pc_name successful_requests pc_frame req_id req_proc req_key
     queue_lengths utilization of_FIFO of_Priority
     NUM_REQUESTS NUM_PCS NUM_SERVERS NUM_SWITCHES FIFO_COUNT PRIORITY_COUNT
     SWITCH_CAPACITY THINK_TIME SERVICE_TIME LOSS_PROBABILITY
     mbind mret result_bind result_ret fmap option_fmap option_map list_fmap
     lookup list_lookup alter list_alter insert list_insert app length
     default from_option fst snd andb orb Nat.leb Nat.ltb].


(** C9, as the program has it.  In the scenario (one PC, one request, one
    FIFO switch of capacity 1, one server, loss probability 0) the run ends
    with one successful request, no loss, one response line and one sample
    in each list, whatever the seed.  The recorded delay is equal to the
    recorded latency: both are the final clock minus the clock at which the
    think time ended, because [request_time] is read after the think time
    and the slot is granted at that same instant.  So the delay does not
    include the think time, which is positive and only shows in the final
    clock. *)
Theorem C9_scenario (g : rng_state) :
  ∃ s latency,
    setup scenario g = Ok (initial_state scenario g) ∧
    env_run scenario (initial_state scenario g) = Ok s ∧
    successful_requests <$> pcs s = [1%nat] ∧
    data_loss s = ByDiscipline 0%nat 0%nat ∧
    length (stdout s) = 1%nat ∧
    overall_latencies s = [latency] ∧ overall_delays s = [latency] ∧
    latencies s = ByDiscipline [latency] [] ∧
    delays s = ByDiscipline [latency] [] ∧
    latency = env_now s - first_think_time scenario g ∧
    0 ≤ latency ∧
    0 < first_think_time scenario g ≤ env_now s.
Proof.
  unfold first_think_time.
  pose proof (rng_random_range g) as H1.
  destruct (rng_random g) as [k1 g1] eqn:E1.
  pose proof (rng_randbelow_range 1 g1 ltac:(lia)) as H2.
  destruct (rng_randbelow 1 g1) as [i1 g2] eqn:E2.
  pose proof (rng_randbelow_range 1 g2 ltac:(lia)) as H3.
  destruct (rng_randbelow 1 g2) as [i2 g3] eqn:E3.
  pose proof (rng_random_range g3) as H4.
  destruct (rng_random g3) as [k2 g4] eqn:E4.
  pose proof (rng_random_range g4) as H5.
  destruct (rng_random g4) as [k3 g5] eqn:E5.
  simpl in H1, H2, H3, H4, H5.
  assert (i1 = 0%nat) as -> by lia. assert (i2 = 0%nat) as -> by lia.
  clear H2 H3.
  assert (initial_stats scenario (switch_list scenario)
            !! ("FIFO Switch " +:+ pretty 1%nat)
          = Some empty_stat) as HM by (by vm_compute).
  assert (setup scenario g = Ok (initial_state scenario g)) as Hsetup
    by (by rewrite setup_eq).
  assert (potential scenario (initial_state scenario g) = 8%nat) as Hpot
    by (by vm_compute).
  unfold env_run. rewrite Hpot. clear Hpot.
  unfold initial_state in *.
  remember (initial_stats scenario (switch_list scenario)) as M eqn:EM.
  clear EM.
  eexists _, (5 * TENTH + (15 - 5) * k3).
  split; [exact Hsetup|]. clear Hsetup. split.
  - cbv delta [lookup] in HM.
    do 9 (rewrite run_S;
      repeat (progress
        (exec;
         rewrite ?E1, ?E2, ?E3, ?E4, ?E5, ?HM, ?Z.ltb_irrefl, ?Z.eqb_refl;
         repeat first
           [ rewrite decide_False by (unfold TENTH; lia)
           | rewrite decide_True by (cbn; unfold TENTH; lia)
           | rewrite decide_True by reflexivity ]))).
    reflexivity.
  - cbn. split_and!.
    + reflexivity.
    + reflexivity.
    + reflexivity.
    + f_equal. lia.
    + f_equal. lia.
    + do 2 f_equal. lia.
    + do 2 f_equal. lia.
    + lia.
    + unfold TENTH. lia.
    + unfold TENTH. lia.
    + unfold TENTH. lia.
Qed.

Lemma sort_by_key_sorted l : StronglySorted key_le l → sort_by_key l = l.
Proof.
  induction 1 as [|a l Hl IH Ha]; [done|].
  unfold sort_by_key in *. simpl. rewrite IH.
  destruct Ha as [|x l' Hx _]; [done|]. simpl.
  unfold key_le in Hx. by rewrite Hx.
Qed.

Lemma default_key_le now a b :
  default_key now a → req_key b = Some (0, now, false) → key_le a b.
Proof.
  intros (t & Ha & Ht) Hb. unfold key_le, sort_key. rewrite Ha, Hb. simpl.
  destruct (decide (t < now)) as [Hlt|Hge].
  - apply Z.ltb_lt in Hlt. by rewrite Hlt.
  - assert (t = now) as -> by lia. rewrite Z.eqb_refl. simpl.
    by rewrite orb_true_r.
Qed.

Lemma StronglySorted_snoc {A} (P : relation A) l x :
  StronglySorted P l → Forall (λ y, P y x) l → StronglySorted P (l ++ [x]).
Proof.
  intros Hl Hx. apply StronglySorted_app. split_and!; [|done|repeat constructor].
  intros a b Ha ->%list_elem_of_singleton.
  by apply (proj1 (Forall_forall _ _) Hx).
Qed.

Lemma StronglySorted_list_remove (P : relation request) r l :
  StronglySorted P l → StronglySorted P (list_remove r l).
Proof.
  induction 1 as [|x l Hl IH Hx]; simpl; [constructor|].
  case_decide; [done|]. constructor; [done|].
  apply Forall_forall. intros y Hy%list_remove_subseteq.
  by apply (proj1 (Forall_forall _ _) Hx).
Qed.

Lemma Forall_list_remove (P : request → Prop) r l :
  Forall P l → Forall P (list_remove r l).
Proof.
  intros H. apply Forall_forall. intros y Hy%list_remove_subseteq.
  by apply (proj1 (Forall_forall _ _) H).
Qed.

Lemma arrival_order_mono now now' next next' sw :
  now ≤ now' → (next ≤ next')%nat →
  arrival_order now next sw → arrival_order now' next' sw.
Proof.
  intros Hn Hx [Hc Hk Hs Hi Hlt]. split; [done| |done|done|].
  - intros Hp. eapply Forall_impl; [by apply Hk|].
    intros r (t & ? & ?). exists t. split; [done|lia].
  - eapply Forall_impl; [done|]. simpl. lia.
Qed.

Lemma arrival_order_users now next sw us :
  arrival_order now next sw → arrival_order now next (set_users us sw).
Proof. by intros []. Qed.

Lemma arrival_order_remove now next sw r :
  arrival_order now next sw →
  arrival_order now next (set_queue (list_remove r (queue sw)) sw).
Proof.
  intros [Hc Hk Hs Hi Hlt]. split; simpl; [done|..].
  - intros Hp. by apply Forall_list_remove, Hk.
  - intros Hp. by apply StronglySorted_list_remove, Hs.
  - by apply StronglySorted_list_remove.
  - by apply Forall_list_remove.
Qed.

Lemma arrival_order_tail now next sw r q :
  arrival_order now next sw → queue sw = r :: q →
  arrival_order now next (set_queue q sw).
Proof.
  intros [Hc Hk Hs Hi Hlt] Hq. rewrite Hq in *. split; simpl; [done|..].
  - intros Hp. by eapply Forall_cons_1, Hk.
  - intros Hp. specialize (Hs Hp). by inversion Hs.
  - by inversion Hi.
  - by eapply Forall_cons_1.
Qed.

(** Appending the request made now to the put queue: a [SortedQueue] leaves
    it at the end, where a list has it. *)
Lemma arrival_order_append sw pc s :
  arrival_order (env_now s) (next_id s) sw →
  put_queue_append (sw_put_queue sw) (queue sw) (new_request sw pc s) =
    queue sw ++ [new_request sw pc s] ∧
  arrival_order (env_now s) (S (next_id s))
    (set_queue (queue sw ++ [new_request sw pc s]) sw).
Proof.
  intros [Hc Hk Hs Hi Hlt].
  assert (sw_class sw = Priority →
          StronglySorted key_le (queue sw ++ [new_request sw pc s])) as Hsorted.
  { intros Hp. apply StronglySorted_snoc; [by apply Hs|].
    eapply Forall_impl; [by apply Hk|]. intros r Hr.
    eapply default_key_le; [done|]. unfold new_request. simpl. by rewrite Hp. }
  split.
  - rewrite Hc. destruct (sw_class sw) eqn:Hp; simpl; [done|].
    by apply sort_by_key_sorted, Hsorted.
  - split; simpl; [done| |done|..].
    + intros Hp. apply Forall_app. split; [by apply Hk|].
      constructor; [|constructor]. exists (env_now s).
      unfold new_request. simpl. by rewrite Hp.
    + apply StronglySorted_snoc; [done|].
      eapply Forall_impl; [done|]. by intros r Hr.
    + apply Forall_app. split.
      * eapply Forall_impl; [done|]. simpl. lia.
      * constructor; [simpl; lia|constructor].
Qed.

Lemma ordered_same s s' :
  env_now s ≤ env_now s' → (next_id s ≤ next_id s')%nat →
  switches s' = switches s → ordered s → ordered s'.
Proof.
  unfold ordered. intros Hn Hx -> H. eapply Forall_impl; [done|].
  intros sw. by apply arrival_order_mono.
Qed.

Lemma ordered_alter f i s :
  (∀ sw, arrival_order (env_now s) (next_id s) sw →
         arrival_order (env_now s) (next_id s) (f sw)) →
  ordered s → ordered (set_switches (alter f i (switches s)) s).
Proof.
  unfold ordered. simpl. intros Hf H. apply Forall_alter; [done|].
  intros sw _. apply Hf.
Qed.

Lemma ordered_insert i sw' s :
  arrival_order (env_now s) (next_id s) sw' →
  ordered s → ordered (set_switches (<[i := sw']> (switches s)) s).
Proof. unfold ordered. simpl. intros Hf H. by apply Forall_insert. Qed.

Lemma ordered_lookup s i sw :
  ordered s → switches s !! i = Some sw →
  arrival_order (env_now s) (next_id s) sw.
Proof. intros H Hi. by eapply (proj1 (Forall_lookup _ _) H). Qed.

Lemma trigger_put_ordered i s : ordered s → ordered (trigger_put i s).
Proof.
  intros H. unfold trigger_put.
  destruct (switches s !! i) as [sw|] eqn:Hi; [|done].
  destruct (queue sw) as [|r q] eqn:Hq; [done|]. case_decide; [|done].
  apply (ordered_same (set_switches
           (<[i:=set_queue q (set_users (users sw ++ [r]) sw)]> (switches s)) s));
    [done..|].
  apply ordered_insert; [|done].
  eapply arrival_order_tail; [|done].
  by eapply arrival_order_users, ordered_lookup.
Qed.

Lemma request_exit_ordered i r s : ordered s → ordered (request_exit i r s).
Proof.
  intros H. unfold request_exit, switch_release.
  eapply (ordered_same (set_switches _ (cancel i r s))); [done..|].
  apply ordered_alter; [intros sw; apply arrival_order_users|].
  unfold cancel. apply ordered_alter; [|done].
  intros sw. apply arrival_order_remove.
Qed.

Lemma request_http_loop_ordered cfg i n s s' :
  request_http_loop cfg i n s = Ok s' → ordered s → ordered s'.
Proof.
  intros H%request_http_loop_Ok. destruct n as [|n].
  - subst s'. by apply (ordered_same s).
  - destruct H as [_ ->]. by apply (ordered_same s).
Qed.

Lemma request_http_issue_ordered i n s s' :
  request_http_issue i n s = Ok s' → ordered s → ordered s'.
Proof.
  intros H Ho. apply request_http_issue_Ok in H. simpl in H.
  destruct H as (switch & st & Hsw & _ & _ & ->).
  pose proof (ordered_lookup _ _ _ Ho Hsw) as Ha.
  destruct (arrival_order_append switch i s Ha) as [-> Hb].
  eapply ordered_same; [| |reflexivity|apply trigger_put_ordered]; [done..|].
  unfold ordered. simpl. apply Forall_insert; [|done].
  eapply Forall_impl; [exact Ho|]. intros sw. apply arrival_order_mono; lia.
Qed.

Lemma count_loss_switches sw s :
  env_now (count_loss sw s) = env_now s ∧
  next_id (count_loss sw s) = next_id s ∧
  switches (count_loss sw s) = switches s.
Proof. unfold count_loss. by destruct (class_of sw s). Qed.

Lemma request_http_ordered cfg i s s' :
  request_http cfg i s = Ok s' → ordered s → ordered s'.
Proof.
  unfold request_http. intros H Ho.
  destruct (pcs s !! i) as [p|]; [|done].
  destruct (pc_frame p) as [|n|n rt sw srv r|n rt sw srv r st|]; [| | | |done].
  - by eapply request_http_loop_ordered.
  - by eapply request_http_issue_ordered.
  - unfold request_http_granted in H.
    pose proof (random_rng s) as Hr. destruct (random s) as [k s1].
    simpl in Hr. subst s1. case_decide.
    + eapply request_http_loop_ordered; [done|].
      apply request_exit_ordered.
      destruct (count_loss_switches sw (set_rng (rng_random (rng s)).2 s))
        as (E1 & E2 & E3).
      eapply ordered_same; [| |exact E3|exact Ho]; [by rewrite E1|by rewrite E2].
    + injection H as <-. by apply (ordered_same s).
  - unfold request_http_served in H.
    eapply request_http_loop_ordered; [done|].
    apply request_exit_ordered. unfold record_sample.
    by apply (ordered_same s).
Qed.

Lemma callbacks_ordered cfg ev s s' :
  callbacks cfg ev s = Ok s' → ordered s → ordered s'.
Proof.
  intros H Ho. destruct ev as [[i|srv i]|[i|srv i]|sw r|sw r|[i|srv i]]; simpl in H.
  - by eapply request_http_ordered.
  - unfold handle_request_begin in H.
    pose proof (uniform_rng (SERVICE_TIME cfg) s) as Hr.
    destruct (uniform (SERVICE_TIME cfg) s) as [k s1]. simpl in Hr. subst s1.
    unfold timeout in H. case_decide; [done|]. injection H as <-.
    by apply (ordered_same s).
  - by eapply request_http_ordered.
  - injection H as <-. by apply (ordered_same s).
  - by eapply request_http_ordered.
  - injection H as <-. by apply trigger_put_ordered.
  - by injection H as <-.
  - by eapply request_http_ordered.
Qed.

Lemma ordered_step cfg s s' :
  invariant cfg s → ordered s → step cfg s = Some (Ok s') → ordered s'.
Proof.
  intros Hinv Ho (e & l1 & l2 & Hq & _ & H)%step_Ok.
  eapply callbacks_ordered; [done|].
  apply (ordered_same s); [|done..]. simpl.
  eapply (proj1 (Forall_forall _ _) (inv_time _ _ Hinv)).
  rewrite Hq. apply elem_of_app. right. by left.
Qed.

Lemma ordered_initial cfg g : ordered (initial_state cfg g).
Proof.
  unfold ordered, initial_state, switch_list. simpl.
  apply Forall_app. split; apply Forall_fmap, Forall_forall; intros i _;
    (split; simpl; [done|constructor..]).
Qed.

Lemma reachable_ordered cfg s : reachable cfg s → ordered s.
Proof.
  induction 1 as [g s Hs|s s' Hr IH Hstep].
  - rewrite setup_eq in Hs. case_decide; [done|]. injection Hs as <-.
    apply ordered_initial.
  - eapply ordered_step; [|done..]. by apply reachable_invariant.
Qed.

Lemma first_arrival_head q :
  StronglySorted arrived_before q → first_arrival q = head q.
Proof.
  induction 1 as [|a l Hl IH Ha]; [done|]. simpl. rewrite IH.
  destruct Ha as [|x l' Hx _]; [done|]. simpl.
  unfold arrived_before in Hx. rewrite decide_False by lia. done.
Qed.

Lemma priority_choice_head q :
  StronglySorted arrived_before q → Forall (λ r, priority_of r = 0) q →
  priority_choice q = head q.
Proof.
  induction 1 as [|a l Hl IH Ha]; [done|]. intros [Hp Hf]%Forall_cons_1.
  simpl. rewrite (IH Hf).
  destruct Ha as [|x l' Hx _]; [done|]. simpl.
  apply Forall_cons_1 in Hf as [Hpx _].
  unfold arrived_before in Hx. rewrite decide_False by lia. done.
Qed.

(** C5.  In every state of a run, the requests that wait for a
    [PriorityQueue] all have the default priority 0 (and [preempt=True]);
    appending the request made now to its [SortedQueue] leaves the queue as
    appending to the plain list of a [FIFOQueue] does; the head of the queue,
    which is the request that is granted next, is the one that priority
    order selects and the one that arrival order selects. *)
Theorem C5_priority_queue_grants_in_arrival_order cfg s i sw :
  reachable cfg s → switches s !! i = Some sw → sw_class sw = Priority →
  sw_put_queue sw = SortedQueue ∧
  (∀ pc, req_key (new_request sw pc s) = Some (0, env_now s, false)) ∧
  Forall (λ r, ∃ t, req_key r = Some (0, t, false)) (queue sw) ∧
  (∀ pc,
     put_queue_append (sw_put_queue sw) (queue sw) (new_request sw pc s) =
     put_queue_append PlainList (queue sw) (new_request sw pc s)) ∧
  priority_choice (queue sw) = first_arrival (queue sw) ∧
  first_arrival (queue sw) = head (queue sw) ∧
  ∀ r q,
    queue sw = r :: q → Z.of_nat (length (users sw)) < sw_capacity sw →
    trigger_put i s =
    schedule (Request i r) NORMAL 0
      (set_switches
         (<[i := set_queue q (set_users (users sw ++ [r]) sw)]> (switches s)) s).
Proof.
  intros Hr Hi Hp.
  pose proof (ordered_lookup _ _ _ (reachable_ordered _ _ Hr) Hi) as Ha.
  pose proof Ha as [Hc Hk Hs Hids Hlt]. specialize (Hk Hp).
  assert (Forall (λ r, priority_of r = 0) (queue sw)) as H0.
  { eapply Forall_impl; [exact Hk|]. intros r (t & Ht & _).
    unfold priority_of, sort_key. by rewrite Ht. }
  split_and!.
  - by rewrite Hc, Hp.
  - intros pc. unfold new_request. simpl. by rewrite Hp.
  - eapply Forall_impl; [exact Hk|]. intros r (t & Ht & _). by exists t.
  - intros pc. by destruct (arrival_order_append sw pc s Ha) as [-> _].
  - by rewrite first_arrival_head, priority_choice_head.
  - by apply first_arrival_head.
  - intros r q Hq Hcap. unfold trigger_put. rewrite Hi, Hq.
    by rewrite decide_True.
Qed.

Lemma steps_reachable cfg k s s' :
  reachable cfg s → steps cfg k s = Some s' → reachable cfg s'.
Proof.
  revert s. induction k as [|k IH]; intros s Hr H; simpl in H.
  - by injection H as <-.
  - destruct (step cfg s) as [[s1|]|] eqn:Hs; [|done..].
    eapply IH; [|done]. by eapply reachable_step.
Qed.

Lemma steps_initial_reachable cfg g k s :
  setup cfg g = Ok (initial_state cfg g) →
  steps cfg k (initial_state cfg g) = Some s → reachable cfg s.
Proof.
  intros Hs. apply steps_reachable. by eapply reachable_setup.
Qed.


Lemma raised_Some {A} (r : result A) e : raised r = Some e → r = Raise e.
Proof. destruct r; simpl; congruence. Qed.

Lemma raised_None {A} (r : result A) : raised r = None → ∃ a, r = Ok a.
Proof. destruct r as [a|e]; [by exists a|done]. Qed.

Lemma setup_Ok cfg g :
  0 < SWITCH_CAPACITY cfg → setup cfg g = Ok (initial_state cfg g).
Proof. intros H. rewrite setup_eq. apply decide_False. lia. Qed.

Lemma state_after_reachable cfg g k :
  0 < SWITCH_CAPACITY cfg → reachable cfg (state_after cfg g k).
Proof.
  intros Hs%(setup_Ok cfg g). unfold state_after.
  destruct (steps cfg k (initial_state cfg g)) as [s|] eqn:Hk; simpl.
  - by eapply steps_initial_reachable.
  - by eapply reachable_setup.
Qed.

Lemma Simulation_fuel cfg g fuel :
  0 < SWITCH_CAPACITY cfg →
  (potential cfg (initial_state cfg g) < fuel)%nat →
  Simulation cfg g
    (default (Raise RuntimeError) (run cfg fuel (initial_state cfg g))).
Proof.
  intros Hs%(setup_Ok cfg g) Hp. unfold Simulation. rewrite Hs.
  destruct (run_total _ _ _ Hp) as [r Hr]. rewrite Hr. simpl.
  by eapply run_Run.
Qed.

(** ** The anatomy of a step

    What a step from a state of the run pops, where the generator that it
    resumes was suspended, and which part of [request_http] or
    [handle_request] it runs. *)
Lemma step_anatomy cfg s s' :
  reachable cfg s → step cfg s = Some (Ok s') →
  ∃ e l1 l2,
    heappop (env_queue s) = Some (e, l1 ++ l2) ∧
    env_queue s = l1 ++ e :: l2 ∧ least e (env_queue s) ∧
    env_now s ≤ entry_time e ∧
    let s0 := set_env_now (entry_time e) (set_env_queue (l1 ++ l2) s) in
    callbacks cfg (entry_event e) s0 = Ok s' ∧
    (∀ i, owner (entry_event e) = Some i → pending i s = [entry_event e]) ∧
    match entry_event e with
    | Initialize (ProcPC i) =>
        frames s !! i = Some AtStart ∧
        request_http_loop cfg i (NUM_REQUESTS cfg) s0 = Ok s'
    | Timeout (ProcPC i) =>
        ∃ n, frames s !! i = Some (AtThink n) ∧
             request_http_issue i n s0 = Ok s'
    | Request sw r =>
        ∃ n rt srv,
          frames s !! req_proc r = Some (AtRequest n rt sw srv r) ∧
          held sw r s ∧
          request_http_granted cfg (req_proc r) n rt sw srv r s0 = Ok s'
    | Initialize (ProcHandle srv i) =>
        (∃ n rt sw r st, frames s !! i = Some (AtService n rt sw srv r st)) ∧
        handle_request_begin cfg srv i s0 = Ok s'
    | Timeout (ProcHandle srv i) =>
        (∃ n rt sw r st, frames s !! i = Some (AtService n rt sw srv r st)) ∧
        s' = handle_request_end srv i s0
    | Process (ProcHandle srv i) =>
        ∃ n rt sw r st,
          frames s !! i = Some (AtService n rt sw srv r st) ∧
          held sw r s ∧
          request_http_served cfg i n rt sw srv r st s0 = Ok s'
    | Release sw r => s' = trigger_put sw s0
    | Process (ProcPC i) => s' = s0
    end.
Proof.
  intros Hr Hstep.
  pose proof (reachable_consistent _ _ Hr) as Hc.
  pose proof (reachable_invariant _ _ Hr) as Hinv.
  assert (∃ e l1 l2, heappop (env_queue s) = Some (e, l1 ++ l2) ∧
            env_queue s = l1 ++ e :: l2 ∧
            (∀ x, x ∈ env_queue s → entry_leb e x = true) ∧
            callbacks cfg (entry_event e)
              (set_env_now (entry_time e) (set_env_queue (l1 ++ l2) s)) = Ok s')
    as (e & l1 & l2 & Hpop & Hq & Hmin & Hcb).
  { unfold step in Hstep.
    destruct (heappop (env_queue s)) as [[e rest]|] eqn:E; [|done].
    destruct (heappop_Some _ _ _ E) as (l1 & l2 & Hq & -> & Hmin).
    destruct e as [[[t p] id] ev]. injection Hstep as Hstep.
    by exists (t, p, id, ev), l1, l2. }
  exists e, l1, l2. split; [done|]. split; [done|]. split; [done|]. split.
  { eapply (proj1 (Forall_forall _ _) (inv_time _ _ Hinv)).
    rewrite Hq. apply elem_of_app. right. by left. }
  intros s0. fold s0 in Hcb. split; [exact Hcb|].
  assert (∀ i, owner (entry_event e) = Some i →
               ∃ f p, frames s !! i = Some f ∧ pcs s0 !! i = Some p ∧
                      pc_frame p = f ∧ frame_ok i f s ∧
                      pending i s = [entry_event e]) as Hown.
  { intros i Ho.
    destruct (consistent_pop_owner s l1 e l2 (entry_time e) i Hc Hq Ho)
      as (_ & _ & f & Hf & Hok & Hp).
    destruct (lookup_frames _ _ _ Hf) as (p & Hpc & Hpf).
    by exists f, p. }
  split.
  { intros i Ho. by destruct (Hown i Ho) as (_ & _ & _ & _ & _ & _ & ?). }
  destruct (entry_event e) as [[i|srv i]|[i|srv i]|sw r|sw r|[i|srv i]] eqn:He;
    simpl in Hcb.
  - destruct (Hown i eq_refl) as (f & p & Hf & Hp & Hpf & Hok & Hpend).
    pose proof (frame_ok_event _ _ _ _ Hok Hpend) as ->.
    split; [done|]. unfold request_http in Hcb. by rewrite Hp, Hpf in Hcb.
  - destruct (Hown i eq_refl) as (f & p & Hf & Hp & Hpf & Hok & Hpend).
    pose proof (frame_ok_event _ _ _ _ Hok Hpend) as Hev. simpl in Hev.
    split; [by rewrite Hf; destruct Hev as (n & rt & sw & r & st & -> & _); eauto 10|].
    done.
  - destruct (Hown i eq_refl) as (f & p & Hf & Hp & Hpf & Hok & Hpend).
    destruct (frame_ok_event _ _ _ _ Hok Hpend) as [n ->].
    exists n. split; [done|]. unfold request_http in Hcb.
    by rewrite Hp, Hpf in Hcb.
  - destruct (Hown i eq_refl) as (f & p & Hf & Hp & Hpf & Hok & Hpend).
    pose proof (frame_ok_event _ _ _ _ Hok Hpend) as Hev. simpl in Hev.
    split; [by rewrite Hf; destruct Hev as (n & rt & sw & r & st & -> & _); eauto 10|].
    by injection Hcb as <-.
  - destruct (Hown (req_proc r) eq_refl) as (f & p & Hf & Hp & Hpf & Hok & Hpend).
    destruct (frame_ok_event _ _ _ _ Hok Hpend)
      as (n & rt & srv & -> & _ & Hheld).
    exists n, rt, srv. split; [done|]. split; [done|].
    unfold request_http in Hcb.
    by rewrite Hp, Hpf in Hcb.
  - by injection Hcb as <-.
  - by injection Hcb as <-.
  - destruct (Hown i eq_refl) as (f & p & Hf & Hp & Hpf & Hok & Hpend).
    destruct (frame_ok_event _ _ _ _ Hok Hpend)
      as (n & rt & sw & r & st & -> & _ & Hheld).
    exists n, rt, sw, r, st. split; [done|]. split; [done|].
    unfold request_http in Hcb.
    by rewrite Hp, Hpf in Hcb.
Qed.

Lemma uniform_in_range ab s :
  ab.1 ≤ ab.2 → in_range ab (uniform ab s).1.
Proof.
  intros Hab. unfold uniform, random.
  pose proof (rng_random_range (rng s)) as Hk.
  destruct (rng_random (rng s)) as [k g]. simpl in *.
  change (2 ^ 53) with TENTH in Hk. unfold in_range. nia.
Qed.

Lemma metrics_set_pc_frame i f s :
  metrics (set_pc_frame i f s) = metrics s.
Proof.
  unfold metrics, set_pc_frame. simpl.
  by rewrite successful_requests_alter.
Qed.

Lemma metrics_trigger_put i s : metrics (trigger_put i s) = metrics s.
Proof. unfold trigger_put. by repeat case_match. Qed.

Lemma metrics_request_exit i r s : metrics (request_exit i r s) = metrics s.
Proof. done. Qed.

Lemma metrics_loop cfg i n s s' :
  request_http_loop cfg i n s = Ok s' → metrics s' = metrics s.
Proof.
  intros H%request_http_loop_Ok. destruct n as [|n].
  - subst s'. exact (metrics_set_pc_frame i Finished s).
  - destruct H as [_ ->]. by rewrite metrics_set_pc_frame.
Qed.

Lemma metrics_issue i n s s' :
  request_http_issue i n s = Ok s' → metrics s' = metrics s.
Proof.
  intros H%request_http_issue_Ok. simpl in H.
  destruct H as (switch & st & _ & _ & _ & ->).
  by rewrite metrics_set_pc_frame, metrics_trigger_put.
Qed.

(** Lines 48-57, by the outcome of the loss check. *)
Lemma request_http_granted_Ok cfg i n rt sw srv r s s' :
  request_http_granted cfg i n rt sw srv r s = Ok s' →
  let k := (rng_random (rng s)).1 in
  let s1 := set_rng (rng_random (rng s)).2 s in
  (10 * k < LOSS_PROBABILITY cfg * TENTH ∧
   request_http_loop cfg i n (request_exit sw r (count_loss sw s1)) = Ok s') ∨
  (¬ 10 * k < LOSS_PROBABILITY cfg * TENTH ∧
   s' = set_pc_frame i (AtService n rt sw srv r (env_now s))
          (schedule (Initialize (ProcHandle srv i)) URGENT 0 s1)).
Proof.
  unfold request_http_granted, random. intros H.
  destruct (rng_random (rng s)) as [k g]. simpl. case_decide.
  - by left.
  - right. split; [done|]. by injection H as <-.
Qed.

(** Lines 77-78. *)
Lemma handle_request_begin_Ok cfg srv i s s' :
  handle_request_begin cfg srv i s = Ok s' →
  let service_time := (uniform (SERVICE_TIME cfg) s).1 in
  0 ≤ service_time ∧
  s' = schedule (Timeout (ProcHandle srv i)) NORMAL service_time
         (set_rng (rng_random (rng s)).2 s).
Proof.
  unfold handle_request_begin. intros H.
  pose proof (uniform_rng (SERVICE_TIME cfg) s) as Hr.
  destruct (uniform (SERVICE_TIME cfg) s) as [t s1]. simpl in *. subst s1.
  unfold timeout in H. case_decide; [done|]. injection H as <-.
  split; [lia|done].
Qed.

Lemma held_class sw r s : held sw r s → ∃ d, class_of sw s = Some d.
Proof. intros (switch & Hsw & _). unfold class_of. rewrite Hsw. eauto. Qed.

Lemma successful_requests_count i (l : list PC) :
  successful_requests <$> alter count_success i l =
  alter S i (successful_requests <$> l).
Proof. apply list_fmap_alter, Forall_forall. by intros. Qed.

(** Lines 58-68 and the end of the [with] block: the figures after a
    success. *)
Lemma request_http_served_metrics cfg i n rt sw srv r st s s' d :
  request_http_served cfg i n rt sw srv r st s = Ok s' →
  class_of sw s = Some d →
  metrics s' =
  (data_loss s,
   update d (λ l, l ++ [env_now s - st]) (latencies s),
   update d (λ l, l ++ [env_now s - rt]) (delays s),
   overall_latencies s ++ [env_now s - st],
   overall_delays s ++ [env_now s - rt],
   alter S i (successful_requests <$> pcs s)).
Proof.
  unfold request_http_served. intros H Hd.
  apply metrics_loop in H. rewrite H, metrics_request_exit.
  unfold metrics, record_sample, class_of in *. simpl.
  rewrite successful_requests_count.
  destruct (switches s !! sw) as [switch|]; [|done]. simpl in *.
  injection Hd as <-. by destruct (sw_class switch).
Qed.

(** Lines 48-53: the figures after a loss. *)
Lemma request_http_lost_metrics cfg i n sw r s s' d :
  request_http_loop cfg i n (request_exit sw r (count_loss sw s)) = Ok s' →
  class_of sw s = Some d →
  metrics s' =
  (update d S (data_loss s), latencies s, delays s, overall_latencies s,
   overall_delays s, successful_requests <$> pcs s).
Proof.
  intros H Hd. apply metrics_loop in H. rewrite H, metrics_request_exit.
  unfold metrics, count_loss. by rewrite Hd.
Qed.

(** What a step does to the figures: nothing, one loss after a grant, or
    one success at the end of the handler. *)
Lemma step_metrics cfg s s' :
  reachable cfg s → step cfg s = Some (Ok s') →
  ∃ e rest,
    heappop (env_queue s) = Some (e, rest) ∧
    e ∈ env_queue s ∧ env_now s ≤ entry_time e ∧ env_now s' = entry_time e ∧
    ((metrics s' = metrics s ∧
      (∀ sw r, entry_event e = Request sw r →
               ¬ 10 * (rng_random (rng s)).1 < LOSS_PROBABILITY cfg * TENTH) ∧
      (∀ srv i, entry_event e ≠ Process (ProcHandle srv i))) ∨
     (∃ sw r d,
        entry_event e = Request sw r ∧
        10 * (rng_random (rng s)).1 < LOSS_PROBABILITY cfg * TENTH ∧
        class_of sw s = Some d ∧
        metrics s' =
        (update d S (data_loss s), latencies s, delays s, overall_latencies s,
         overall_delays s, successful_requests <$> pcs s)) ∨
     (∃ srv i n rt sw r st d,
        entry_event e = Process (ProcHandle srv i) ∧
        frames s !! i = Some (AtService n rt sw srv r st) ∧
        class_of sw s = Some d ∧
        metrics s' =
        (data_loss s,
         update d (λ l, l ++ [entry_time e - st]) (latencies s),
         update d (λ l, l ++ [entry_time e - rt]) (delays s),
         overall_latencies s ++ [entry_time e - st],
         overall_delays s ++ [entry_time e - rt],
         alter S i (successful_requests <$> pcs s)))).
Proof.
  intros Hr Hstep.
  apply step_anatomy in Hstep
    as (e & l1 & l2 & Hpop & Hq & Hmin & Hle & Hcb & _ & H); [|done].
  pose proof (ext_now _ _ (callbacks_extends _ _ _ _ Hcb)) as Hnow.
  simpl in Hnow, H. clear Hcb.
  exists e, (l1 ++ l2). split; [done|].
  split; [rewrite Hq; apply elem_of_app; right; by left|].
  split; [done|]. split; [done|].
  destruct (entry_event e) as [[i|srv i]|[i|srv i]|sw r|sw r|[i|srv i]] eqn:He.
  - left. destruct H as [_ H]. split; [by apply metrics_loop in H|done].
  - left. destruct H as [_ H].
    apply handle_request_begin_Ok in H as [_ ->]. done.
  - left. destruct H as (n & _ & H). split; [by apply metrics_issue in H|done].
  - left. destruct H as [_ ->]. done.
  - destruct H as (n & rt & srv & Hf & Hheld & H).
    destruct (held_class _ _ _ Hheld) as [d Hd].
    apply request_http_granted_Ok in H. simpl in H.
    destruct H as [[Hk H]|[Hk ->]].
    + right. left. exists sw, r, d. split; [done|]. split; [done|].
      split; [done|].
      by apply (request_http_lost_metrics _ _ _ _ _ _ _ d) in H.
    + left. split; [by rewrite metrics_set_pc_frame|].
      split; [|done]. by intros ?? [= <- <-].
  - left. subst s'. split; [by rewrite metrics_trigger_put|done].
  - left. by subst s'.
  - right. right. destruct H as (n & rt & sw & r & st & Hf & Hheld & H).
    destruct (held_class _ _ _ Hheld) as [d Hd].
    exists srv, i, n, rt, sw, r, st, d. split; [done|]. split; [done|].
    split; [done|].
    by apply (request_http_served_metrics _ _ _ _ _ _ _ _ _ _ d) in H.
Qed.

Lemma request_http_loop_effect cfg i n s s' :
  request_http_loop cfg i n s = Ok s' →
  frames s' = <[i := next_frame n]> (frames s) ∧
  env_now s' = env_now s ∧
  ∃ e, env_queue s' = env_queue s ++ [e] ∧ outside_handler e ∧
       env_now s ≤ entry_time e ∧
       entry_event e = match n with
                       | O => Process (ProcPC i)
                       | S _ => Timeout (ProcPC i)
                       end.
Proof.
  intros H%request_http_loop_Ok. destruct n as [|n].
  - subst s'. split; [|split; [done|]].
    + rewrite list_insert_alter. apply (frames_set_pc_frame i Finished s).
    + eexists. split; [done|]. split; [done|]. split; [unfold entry_time; simpl; lia|done].
  - destruct H as [Hk ->]. split; [|split; [done|]].
    + rewrite list_insert_alter. by rewrite frames_set_pc_frame.
    + eexists. split; [done|]. split; [done|]. split; [unfold entry_time; simpl; lia|done].
Qed.

Lemma trigger_put_effect sw s :
  frames (trigger_put sw s) = frames s ∧
  env_now (trigger_put sw s) = env_now s ∧
  ∃ new, env_queue (trigger_put sw s) = env_queue s ++ new ∧
         Forall outside_handler new ∧
         Forall (λ e, env_now s ≤ entry_time e) new.
Proof.
  unfold trigger_put.
  destruct (switches s !! sw) as [switch|];
    [|by split_and!; [..|exists []; rewrite app_nil_r]].
  destruct (queue switch) as [|r q];
    [by split_and!; [..|exists []; rewrite app_nil_r]|].
  case_decide; [|by split_and!; [..|exists []; rewrite app_nil_r]].
  split_and!; [done..|]. eexists [_]. split; [done|].
  split; (constructor; [|constructor]); [done|unfold entry_time; simpl; lia].
Qed.

Lemma request_http_issue_effect i n s s' :
  request_http_issue i n s = Ok s' →
  env_now s' = env_now s ∧
  (∃ sw srv r, frames s' = <[i := AtRequest n (env_now s) sw srv r]> (frames s)) ∧
  ∃ new, env_queue s' = env_queue s ++ new ∧ Forall outside_handler new ∧
         Forall (λ e, env_now s ≤ entry_time e) new.
Proof.
  intros H%request_http_issue_Ok. simpl in H.
  destruct H as (switch & st & _ & _ & _ & ->).
  match goal with |- context [trigger_put ?sw ?s1] =>
    destruct (trigger_put_effect sw s1) as (Hf & Hn & new & Hq & Hnew & Ht)
  end.
  split; [exact Hn|]. split.
  - eexists _, _, _. rewrite frames_set_pc_frame, Hf.
    symmetry. apply list_insert_alter.
  - exists new. split; [|done]. simpl. by rewrite Hq.
Qed.

Lemma request_exit_effect sw r s :
  frames (request_exit sw r s) = frames s ∧
  env_now (request_exit sw r s) = env_now s ∧
  env_queue (request_exit sw r s) =
    env_queue s ++ [(env_now s + 0, NORMAL, env_eid s, Release sw r)].
Proof. done. Qed.

Lemma count_loss_effect sw s :
  frames (count_loss sw s) = frames s ∧
  env_now (count_loss sw s) = env_now s ∧
  env_eid (count_loss sw s) = env_eid s ∧
  env_queue (count_loss sw s) = env_queue s.
Proof. unfold count_loss. by destruct (class_of sw s). Qed.

(** What a step does to the frames and to the schedule. *)
Lemma step_frames cfg s s' :
  reachable cfg s → step cfg s = Some (Ok s') →
  ∃ e l1 l2 new,
    heappop (env_queue s) = Some (e, l1 ++ l2) ∧
    env_queue s = l1 ++ e :: l2 ∧ env_queue s' = (l1 ++ l2) ++ new ∧
    env_now s ≤ entry_time e ∧ env_now s' = entry_time e ∧
    Forall (λ x, entry_time e ≤ entry_time x) new ∧
    (∀ i, owner (entry_event e) = Some i → pending i s = [entry_event e]) ∧
    match entry_event e with
    | Initialize (ProcPC i) =>
        frames s !! i = Some AtStart ∧
        frames s' = <[i := next_frame (NUM_REQUESTS cfg)]> (frames s) ∧
        Forall outside_handler new
    | Timeout (ProcPC i) =>
        ∃ n sw srv r,
          frames s !! i = Some (AtThink n) ∧
          frames s' = <[i := AtRequest n (entry_time e) sw srv r]> (frames s) ∧
          Forall outside_handler new
    | Request sw r =>
        ∃ n rt srv,
          frames s !! req_proc r = Some (AtRequest n rt sw srv r) ∧
          ((10 * (rng_random (rng s)).1 < LOSS_PROBABILITY cfg * TENTH ∧
            frames s' = <[req_proc r := next_frame n]> (frames s) ∧
            Forall outside_handler new) ∨
           (¬ 10 * (rng_random (rng s)).1 < LOSS_PROBABILITY cfg * TENTH ∧
            frames s' =
              <[req_proc r := AtService n rt sw srv r (entry_time e)]> (frames s) ∧
            new = [(entry_time e + 0, URGENT, env_eid s,
                    Initialize (ProcHandle srv (req_proc r)))]))
    | Initialize (ProcHandle srv i) =>
        frames s' = frames s ∧
        new = [(entry_time e +
                  (uniform (SERVICE_TIME cfg)
                     (set_env_now (entry_time e)
                        (set_env_queue (l1 ++ l2) s))).1,
                NORMAL, env_eid s, Timeout (ProcHandle srv i))]
    | Timeout (ProcHandle srv i) =>
        frames s' = frames s ∧
        new = [(entry_time e + 0, NORMAL, env_eid s,
                Process (ProcHandle srv i))]
    | Process (ProcHandle srv i) =>
        ∃ n rt sw r st,
          frames s !! i = Some (AtService n rt sw srv r st) ∧
          frames s' = <[i := next_frame n]> (frames s) ∧
          Forall outside_handler new
    | Release sw r => frames s' = frames s ∧ Forall outside_handler new
    | Process (ProcPC i) => frames s' = frames s ∧ new = []
    end.
Proof.
  intros Hr Hstep.
  apply step_anatomy in Hstep
    as (e & l1 & l2 & Hpop & Hq & Hmin & Hle & Hcb & Hpend & H); [|done].
  pose proof (callbacks_extends _ _ _ _ Hcb) as [Hnow (new & Hnew & _ & _ & Ht) _ _ _ _].
  simpl in *. exists e, l1, l2, new. clear Hcb.
  split; [done|]. split; [done|]. split; [done|]. split; [done|]. split; [done|].
  split; [done|]. split; [done|].
  set (s0 := set_env_now (entry_time e) (set_env_queue (l1 ++ l2) s)) in *.
  assert (∀ x, env_queue s' = env_queue s0 ++ x → new = x) as Hx.
  { intros x Hx. rewrite Hnew in Hx. by apply app_inv_head in Hx. }
  destruct (entry_event e) as [[i|srv i]|[i|srv i]|sw r|sw r|[i|srv i]] eqn:He.
  - destruct H as [Hf H]. split; [done|].
    apply request_http_loop_effect in H as (Hf' & _ & x & Hx' & Hp & _).
    split; [done|]. rewrite (Hx _ Hx'). by constructor.
  - destruct H as [_ H]. apply handle_request_begin_Ok in H as [_ ->].
    split; [done|]. by apply Hx.
  - destruct H as (n & Hf & H).
    apply request_http_issue_effect in H
      as (_ & (sw & srv & r & Hf') & x & Hx' & Hp & _).
    exists n, sw, srv, r. split; [done|]. split; [done|]. by rewrite (Hx _ Hx').
  - destruct H as [_ ->]. split; [done|]. by apply Hx.
  - destruct H as (n & rt & srv & Hf & _ & H). exists n, rt, srv.
    split; [done|]. apply request_http_granted_Ok in H. simpl in H.
    destruct H as [[Hk H]|[Hk ->]].
    + left. split; [done|].
      apply request_http_loop_effect in H as (Hf' & _ & x & Hx' & Hp & _).
      match type of Hf' with context [request_exit ?a ?b (count_loss ?c ?d)] =>
        destruct (count_loss_effect c d) as (Ef & En & Ee & Eq);
        destruct (request_exit_effect a b (count_loss c d)) as (Ef' & _ & Eq')
      end.
      rewrite Ef', Ef in Hf'. split; [done|].
      rewrite Eq', Eq, <-app_assoc in Hx'.
      rewrite (Hx _ Hx'). by repeat constructor.
    + right. split; [done|]. split.
      * rewrite list_insert_alter. by rewrite frames_set_pc_frame.
      * by apply Hx.
  - subst s'.
    destruct (trigger_put_effect sw s0) as (Hf & _ & x & Hx' & Hp & _).
    split; [done|]. by rewrite (Hx _ Hx').
  - subst s'. split; [done|]. apply Hx. by rewrite app_nil_r.
  - destruct H as (n & rt & sw & r & st & Hf & _ & H).
    exists n, rt, sw, r, st. split; [done|].
    unfold request_http_served in H.
    apply request_http_loop_effect in H as (Hf' & _ & x & Hx' & Hp & _).
    split.
    + rewrite Hf'. unfold frames, request_exit, record_sample. simpl.
      by rewrite frames_count_success.
    + simpl in Hx'. rewrite <-app_assoc in Hx'.
      rewrite (Hx _ Hx'). by repeat constructor.
Qed.

Lemma outside_handler_entry cfg i st e :
  outside_handler e → handler_entry cfg i st e.
Proof.
  unfold outside_handler, handler_entry.
  by destruct (entry_event e) as [[]|[]| | |[]].
Qed.

Lemma pending_singleton i s ev x :
  pending i s = [ev] → x ∈ env_queue s → owner (entry_event x) = Some i →
  entry_event x = ev.
Proof.
  unfold pending, owned. intros Hp Hx Ho.
  assert (entry_event x ∈ filter (λ ev, owner ev = Some i)
                            (entry_event <$> env_queue s)) as Hin.
  { apply list_elem_of_filter. split; [done|]. by apply list_elem_of_fmap_2. }
  rewrite Hp in Hin. by apply list_elem_of_singleton in Hin.
Qed.

Lemma timed_initial cfg g : timed cfg (initial_state cfg g).
Proof.
  split; intros i n rt sw srv r; [|intros st]; unfold frames, initial_state;
    simpl; rewrite <-list_fmap_compose; intros H;
    apply list_lookup_fmap_Some in H as (? & ? & ?); done.
Qed.

Lemma timed_step cfg s s' :
  reachable cfg s → (SERVICE_TIME cfg).1 ≤ (SERVICE_TIME cfg).2 →
  timed cfg s → step cfg s = Some (Ok s') → timed cfg s'.
Proof.
  intros Hr Hab [Hreq Hsrv] Hstep.
  apply step_frames in Hstep
    as (e & l1 & l2 & new & _ & Hq & Hq' & Hle & Hnow & Hnew & Hpend & H);
    [|done].
  assert (e ∈ env_queue s) as He
    by (rewrite Hq; apply elem_of_app; right; by left).
  assert (∀ x, x ∈ l1 ++ l2 → x ∈ env_queue s) as Hold.
  { intros x Hx. rewrite Hq. rewrite !elem_of_app in *.
    destruct Hx; [by left|]. right. by right. }
  (* the frames that the step leaves alone *)
  assert (∀ i n rt sw srv r st,
            frames s !! i = Some (AtService n rt sw srv r st) →
            Forall (handler_entry cfg i st) new →
            rt ≤ st ∧ Forall (handler_entry cfg i st) (env_queue s')) as Hkeep.
  { intros i n rt sw srv r st Hf Hn. destruct (Hsrv _ _ _ _ _ _ _ Hf) as [? Ho].
    split; [done|]. rewrite Hq'. apply Forall_app. split; [|done].
    apply Forall_forall. intros x Hx.
    by apply (proj1 (Forall_forall _ _) Ho), Hold. }
  assert (∀ i st, Forall outside_handler new →
                  Forall (handler_entry cfg i st) new) as Hout.
  { intros i st Hn. eapply Forall_impl; [done|].
    intros x. apply outside_handler_entry. }
  assert (∀ i n rt sw srv r,
            frames s !! i = Some (AtRequest n rt sw srv r) →
            rt ≤ env_now s') as Hkeep'.
  { intros i n rt sw srv r Hf. specialize (Hreq _ _ _ _ _ _ Hf). lia. }
  destruct (entry_event e) as [[i|srv i]|[i|srv i]|sw r|sw r|[i|srv i]] eqn:Hev.
  - destruct H as (Hf & Hf' & Hn). split.
    + intros j n rt sw srv r Hj. rewrite Hf' in Hj.
      destruct (decide (i = j)) as [->|Hne].
      * rewrite list_lookup_insert_eq in Hj
          by (by eapply lookup_lt_Some). injection Hj as Hj.
        by destruct (NUM_REQUESTS cfg).
      * rewrite list_lookup_insert_ne in Hj by done. by eapply Hkeep'.
    + intros j n rt sw srv r st Hj. rewrite Hf' in Hj.
      destruct (decide (i = j)) as [->|Hne].
      * rewrite list_lookup_insert_eq in Hj
          by (by eapply lookup_lt_Some). injection Hj as Hj.
        by destruct (NUM_REQUESTS cfg).
      * rewrite list_lookup_insert_ne in Hj by done.
        eapply Hkeep; [done|]. by apply Hout.
  - destruct H as (Hf' & ->). split; [intros j n' rt' sw' srv' r' Hj; rewrite Hf' in Hj; by eapply Hkeep'|].
    intros j n rt sw srv' r st Hj. rewrite Hf' in Hj. eapply Hkeep; [done|].
    constructor; [|constructor]. unfold handler_entry. simpl. intros ->.
    destruct (Hsrv _ _ _ _ _ _ _ Hj) as [_ Ho].
    pose proof (proj1 (Forall_forall _ _) Ho e He) as Hst.
    unfold handler_entry in Hst. rewrite Hev in Hst. specialize (Hst eq_refl).
    pose proof (uniform_in_range (SERVICE_TIME cfg)
                  (set_env_now (entry_time e) (set_env_queue (l1 ++ l2) s)) Hab)
      as Hu.
    unfold entry_time in *. simpl. unfold in_range in *. lia.
  - destruct H as (n & sw & srv & r & Hf & Hf' & Hn). split.
    + intros j n' rt sw' srv' r' Hj. rewrite Hf' in Hj.
      destruct (decide (i = j)) as [->|Hne].
      * rewrite list_lookup_insert_eq in Hj
          by (by eapply lookup_lt_Some). injection Hj as <- <- <- <- <-. lia.
      * rewrite list_lookup_insert_ne in Hj by done. by eapply Hkeep'.
    + intros j n' rt sw' srv' r' st Hj. rewrite Hf' in Hj.
      destruct (decide (i = j)) as [->|Hne].
      * rewrite list_lookup_insert_eq in Hj
          by (by eapply lookup_lt_Some). done.
      * rewrite list_lookup_insert_ne in Hj by done.
        eapply Hkeep; [done|]. by apply Hout.
  - destruct H as (Hf' & ->). split; [intros j n' rt' sw' srv' r' Hj; rewrite Hf' in Hj; by eapply Hkeep'|].
    intros j n rt sw srv' r st Hj. rewrite Hf' in Hj. eapply Hkeep; [done|].
    constructor; [|constructor]. unfold handler_entry. simpl. intros ->.
    destruct (Hsrv _ _ _ _ _ _ _ Hj) as [_ Ho].
    pose proof (proj1 (Forall_forall _ _) Ho e He) as Hst.
    unfold handler_entry in Hst. rewrite Hev in Hst. specialize (Hst eq_refl).
    unfold entry_time in *. simpl. unfold in_range in *. lia.
  - destruct H as (n & rt & srv & Hf & [(_ & Hf' & Hn)|(_ & Hf' & ->)]).
    + split.
      * intros j n' rt' sw' srv' r' Hj. rewrite Hf' in Hj.
        destruct (decide (req_proc r = j)) as [<-|Hne].
        -- rewrite list_lookup_insert_eq in Hj
             by (by eapply lookup_lt_Some). by destruct n.
        -- rewrite list_lookup_insert_ne in Hj by done. by eapply Hkeep'.
      * intros j n' rt' sw' srv' r' st Hj. rewrite Hf' in Hj.
        destruct (decide (req_proc r = j)) as [<-|Hne].
        -- rewrite list_lookup_insert_eq in Hj
             by (by eapply lookup_lt_Some). by destruct n.
        -- rewrite list_lookup_insert_ne in Hj by done.
           eapply Hkeep; [done|]. by apply Hout.
    + split.
      * intros j n' rt' sw' srv' r' Hj. rewrite Hf' in Hj.
        destruct (decide (req_proc r = j)) as [<-|Hne].
        -- rewrite list_lookup_insert_eq in Hj
             by (by eapply lookup_lt_Some). done.
        -- rewrite list_lookup_insert_ne in Hj by done. by eapply Hkeep'.
      * intros j n' rt' sw' srv' r' st Hj. rewrite Hf' in Hj.
        destruct (decide (req_proc r = j)) as [<-|Hne].
        -- rewrite list_lookup_insert_eq in Hj
             by (by eapply lookup_lt_Some).
           injection Hj as <- <- <- <- <- <-.
           split; [specialize (Hreq _ _ _ _ _ _ Hf); lia|].
           rewrite Hq'. apply Forall_app. split.
           ++ apply Forall_forall. intros x Hx%Hold.
              unfold handler_entry.
              pose proof (pending_singleton _ _ _ x (Hpend _ eq_refl) Hx) as Hx'.
              destruct (entry_event x) as [[?|? j]|[?|? j]| | |[?|? j]];
                try done; intros ->; by specialize (Hx' eq_refl).
           ++ constructor; [|constructor]. unfold handler_entry. simpl.
              intros _. unfold entry_time. simpl. lia.
        -- rewrite list_lookup_insert_ne in Hj by done.
           eapply Hkeep; [done|]. constructor; [|constructor].
           unfold handler_entry. simpl. by intros.
  - destruct H as (Hf' & Hn). split; [intros j n' rt' sw' srv' r' Hj; rewrite Hf' in Hj; by eapply Hkeep'|].
    intros j n rt sw' srv r' st Hj. rewrite Hf' in Hj. eapply Hkeep; [done|]. by apply Hout.
  - destruct H as (Hf' & ->). split; [intros j n' rt' sw' srv' r' Hj; rewrite Hf' in Hj; by eapply Hkeep'|].
    intros j n rt sw' srv r' st Hj. rewrite Hf' in Hj. by eapply Hkeep.
  - destruct H as (n & rt & sw & r & st & Hf & Hf' & Hn). split.
    + intros j n' rt' sw' srv' r' Hj. rewrite Hf' in Hj.
      destruct (decide (i = j)) as [->|Hne].
      * rewrite list_lookup_insert_eq in Hj
          by (by eapply lookup_lt_Some). by destruct n.
      * rewrite list_lookup_insert_ne in Hj by done. by eapply Hkeep'.
    + intros j n' rt' sw' srv' r' st' Hj. rewrite Hf' in Hj.
      destruct (decide (i = j)) as [->|Hne].
      * rewrite list_lookup_insert_eq in Hj
          by (by eapply lookup_lt_Some). by destruct n.
      * rewrite list_lookup_insert_ne in Hj by done.
        eapply Hkeep; [done|]. by apply Hout.
Qed.

Lemma reachable_timed cfg s :
  (SERVICE_TIME cfg).1 ≤ (SERVICE_TIME cfg).2 → reachable cfg s → timed cfg s.
Proof.
  intros Hab. induction 1 as [g s Hs|s s' Hr IH Hstep].
  - rewrite setup_eq in Hs. case_decide; [done|]. injection Hs as <-.
    apply timed_initial.
  - by eapply timed_step.
Qed.

Lemma sampled_snoc cfg l d x y :
  sampled cfg l d → in_range (SERVICE_TIME cfg) x → x ≤ y →
  sampled cfg (l ++ [x]) (d ++ [y]).
Proof.
  intros [Hl Hd] Hx Hy. split.
  - apply Forall_app. split; [done|]. constructor; [done|constructor].
  - apply Forall2_app; [done|]. constructor; [done|constructor].
Qed.

Lemma bounded_step cfg s s' :
  reachable cfg s → (SERVICE_TIME cfg).1 ≤ (SERVICE_TIME cfg).2 →
  bounded cfg s → step cfg s = Some (Ok s') → bounded cfg s'.
Proof.
  intros Hr Hab [Ho Hc] Hstep.
  pose proof (reachable_timed _ _ Hab Hr) as [_ Hsrv].
  apply step_metrics in Hstep as (e & rest & _ & He & Hle & Hnow & H); [|done].
  unfold metrics in H.
  destruct H as [[H _]|[(sw & r & d & _ & _ & _ & H)|
                        (srv & i & n & rt & sw & r & st & d & Hev & Hf & _ & H)]];
    injection H as Hdl Hl Hd Hol Hod Hs.
  - split; [by rewrite Hol, Hod|]. intros d. by rewrite Hl, Hd.
  - split; [by rewrite Hol, Hod|]. intros d'. by rewrite Hl, Hd.
  - destruct (Hsrv _ _ _ _ _ _ _ Hf) as [Hrt Hq].
    pose proof (proj1 (Forall_forall _ _) Hq e He) as Hin.
    unfold handler_entry in Hin. rewrite Hev in Hin. specialize (Hin eq_refl).
    split.
    + rewrite Hol, Hod. apply sampled_snoc; [done..|lia].
    + intros d'. rewrite Hl, Hd. specialize (Hc d').
      destruct d, d'; simpl in *; try done; apply sampled_snoc; (done || lia).
Qed.

Lemma reachable_bounded cfg s :
  (SERVICE_TIME cfg).1 ≤ (SERVICE_TIME cfg).2 → reachable cfg s →
  bounded cfg s.
Proof.
  intros Hab. induction 1 as [g s Hs|s s' Hr IH Hstep].
  - rewrite setup_eq in Hs. case_decide; [done|]. injection Hs as <-.
    split; [|intros []]; split; simpl; constructor.
  - by eapply bounded_step.
Qed.

(** X1.  No delay is shorter than its latency.  In every state of a run
    with a service-time range [0 <= lo <= hi], every recorded latency is
    paired with a recorded delay, no latency is negative, and no delay is
    shorter than the latency recorded with it: [request_time] is never after
    [start_time], and the clock does not go back while the handler runs.
    This holds for the overall lists and for the lists of each
    discipline. *)
Theorem X1_no_delay_is_shorter_than_its_latency cfg s :
  reachable cfg s → 0 ≤ (SERVICE_TIME cfg).1 ≤ (SERVICE_TIME cfg).2 →
  Forall2 (λ latency delay, 0 ≤ latency ≤ delay)
    (overall_latencies s) (overall_delays s) ∧
  ∀ d, Forall2 (λ latency delay, 0 ≤ latency ≤ delay)
         (get d (latencies s)) (get d (delays s)).
Proof.
  intros Hr [Hlo Hab]. destruct (reachable_bounded _ _ Hab Hr) as [Ho Hc].
  assert (∀ l l', sampled cfg l l' →
            Forall2 (λ latency delay, 0 ≤ latency ≤ delay) l l') as H.
  { intros l l' [Hin Hle]. induction Hle as [|x y l l' Hxy _ IH]; [constructor|].
    apply Forall_cons in Hin as [[[Hx _] _] Hin]. simpl in Hx.
    constructor; [|by apply IH]. unfold TENTH in Hx. lia. }
  split; [by apply H|]. intros d. by apply H.
Qed.

Lemma sum_nat_alter_S i (l : list nat) :
  (i < length l)%nat →
  foldr Nat.add 0%nat (alter S i l) = S (foldr Nat.add 0%nat l).
Proof.
  revert i. induction l as [|x l IH]; intros [|i] Hi; simpl in Hi; try lia.
  - simpl. lia.
  - change (alter S (S i) (x :: l)) with (x :: alter S i l).
    cbn [foldr]. rewrite IH by lia. lia.
Qed.

Lemma total_successes_initial cfg g :
  total_successes (initial_state cfg g) = 0%nat.
Proof.
  unfold total_successes, initial_state. simpl.
  rewrite <-list_fmap_compose. generalize 0%nat at 2.
  induction (NUM_PCS cfg) as [|n IH]; intros a; simpl; [done|]. by rewrite IH.
Qed.

(** X2.  In every state of a run the number of overall latency samples, the
    number of overall delay samples and the numbers of samples of the two
    disciplines taken together are all equal to the sum of the PCs'
    [successful_requests]; each discipline has as many delays as
    latencies. *)
Theorem X2_one_sample_per_success cfg s :
  reachable cfg s →
  length (overall_latencies s) = total_successes s ∧
  length (overall_delays s) = total_successes s ∧
  (length (get FIFO (latencies s)) + length (get Priority (latencies s)))%nat =
    total_successes s ∧
  ∀ d, length (get d (delays s)) = length (get d (latencies s)).
Proof.
  induction 1 as [g s Hs|s s' Hr IH Hstep].
  - rewrite setup_eq in Hs. case_decide; [done|]. injection Hs as <-.
    rewrite total_successes_initial. split_and!; [done..|]. by intros [].
  - destruct IH as (I1 & I2 & I3 & I4).
    apply step_metrics in Hstep as (e & rest & _ & _ & _ & _ & H); [|done].
    unfold metrics, total_successes in *.
    destruct H as [[H _]|[(sw & r & d & _ & _ & _ & H)|
                          (srv & i & n & rt & sw & r & st & d & _ & Hf & _ & H)]];
      injection H as Hdl Hl Hd Hol Hod Hs; rewrite Hl, Hd, Hol, Hod, Hs.
    + done.
    + done.
    + rewrite sum_nat_alter_S.
      2:{ rewrite length_fmap. apply lookup_lt_Some in Hf.
          unfold frames in Hf. by rewrite length_fmap in Hf. }
      rewrite !length_app. cbn [length]. split_and!; [lia..| |].
      * destruct d; cbn [get update of_FIFO of_Priority] in *;
          rewrite ?length_app; cbn [length]; lia.
      * intros d'. specialize (I4 d').
        destruct d, d'; cbn [get update of_FIFO of_Priority] in *;
          rewrite ?length_app; cbn [length]; lia.
Qed.

Lemma no_service_step cfg s s' :
  10 ≤ LOSS_PROBABILITY cfg → reachable cfg s → no_service s →
  step cfg s = Some (Ok s') → no_service s'.
Proof.
  intros Hp Hr Hno Hstep.
  pose proof (rng_random_range (rng s)) as Hk. change (2 ^ 53) with TENTH in Hk.
  apply step_frames in Hstep
    as (e & l1 & l2 & new & _ & _ & _ & _ & _ & _ & _ & H); [|done].
  assert (∀ i f, (∀ n rt sw srv r st, f ≠ AtService n rt sw srv r st) →
                 frames s' = <[i := f]> (frames s) → no_service s') as Hins.
  { intros i f Hf Hf' j n rt sw srv r st Hj. rewrite Hf' in Hj.
    apply list_lookup_insert_Some in Hj as [(_ & Heq & _)|[_ Hj]].
    - by eapply Hf.
    - by eapply Hno. }
  assert (frames s' = frames s → no_service s') as Hsame.
  { intros Hf j n rt sw srv r st Hj. rewrite Hf in Hj. by eapply Hno. }
  destruct (entry_event e) as [[i|srv i]|[i|srv i]|sw r|sw r|[i|srv i]].
  - destruct H as (_ & Hf & _). eapply Hins; [|exact Hf].
    by destruct (NUM_REQUESTS cfg).
  - by destruct H as [Hf _]; apply Hsame.
  - destruct H as (n & sw & srv & r & _ & Hf & _).
    eapply Hins; [|exact Hf]. done.
  - by destruct H as [Hf _]; apply Hsame.
  - destruct H as (n & rt & srv & _ & [(_ & Hf & _)|(Hk' & _)]).
    + eapply Hins; [|exact Hf]. by destruct n.
    + exfalso. apply Hk'. unfold TENTH in *. lia.
  - by destruct H as [Hf _]; apply Hsame.
  - by destruct H as [Hf _]; apply Hsame.
  - destruct H as (n & rt & sw & r & st & Hf & _). by destruct (Hno _ _ _ _ _ _ _ Hf).
Qed.

Lemma reachable_no_service cfg s :
  10 ≤ LOSS_PROBABILITY cfg → reachable cfg s → no_service s.
Proof.
  intros Hp. induction 1 as [g s Hs|s s' Hr IH Hstep].
  - rewrite setup_eq in Hs. case_decide; [done|]. injection Hs as <-.
    intros i n rt sw srv r st. unfold frames, initial_state. simpl.
    rewrite <-list_fmap_compose. intros Hf.
    by apply list_lookup_fmap_Some in Hf as (? & ? & ?).
  - by eapply no_service_step.
Qed.

(** X3.  The loss check at its two ends.  When the loss probability is 0 or
    less, no request is ever counted as lost.  When it is 1 or more (10
    tenths), every granted request is lost: no request ever succeeds and no
    latency or delay is recorded. *)
Theorem X3_loss_probability_extremes cfg s :
  reachable cfg s →
  (LOSS_PROBABILITY cfg ≤ 0 → data_loss s = ByDiscipline 0%nat 0%nat) ∧
  (10 ≤ LOSS_PROBABILITY cfg →
   total_successes s = 0%nat ∧
   overall_latencies s = [] ∧ overall_delays s = [] ∧
   latencies s = ByDiscipline [] [] ∧ delays s = ByDiscipline [] []).
Proof.
  intros Hr. split; intros Hp.
  - induction Hr as [g s Hs|s s' Hr IH Hstep].
    + rewrite setup_eq in Hs. case_decide; [done|]. by injection Hs as <-.
    + pose proof (rng_random_range (rng s)) as Hk.
      apply step_metrics in Hstep as (e & rest & _ & _ & _ & _ & H); [|done].
      unfold metrics in H.
      destruct H as [[H _]|[(sw & r & d & _ & Hk' & _)|
                            (srv & i & n & rt & sw & r & st & d & _ & _ & _ & H)]].
      * injection H as -> _ _ _ _ _. done.
      * exfalso. unfold TENTH in *. nia.
      * injection H as -> _ _ _ _ _. done.
  - induction Hr as [g s Hs|s s' Hr IH Hstep].
    + rewrite setup_eq in Hs. case_decide; [done|]. injection Hs as <-.
      by rewrite total_successes_initial.
    + pose proof (reachable_no_service _ _ Hp Hr) as Hno.
      apply step_metrics in Hstep as (e & rest & _ & _ & _ & _ & H); [|done].
      unfold metrics, total_successes in *.
      destruct H as [[H _]|[(sw & r & d & _ & _ & _ & H)|
                            (srv & i & n & rt & sw & r & st & d & _ & Hf & _)]].
      * injection H as _ -> -> -> -> ->. done.
      * injection H as _ -> -> -> -> ->. done.
      * by destruct (Hno _ _ _ _ _ _ _ Hf).
Qed.

(** The anatomy of a step, whatever its result. *)
Lemma step_result cfg s res :
  reachable cfg s → step cfg s = Some res →
  ∃ e rest,
    heappop (env_queue s) = Some (e, rest) ∧ e ∈ env_queue s ∧
    env_now s ≤ entry_time e ∧
    let s0 := set_env_now (entry_time e) (set_env_queue rest s) in
    match entry_event e with
    | Initialize (ProcPC i) =>
        frames s !! i = Some AtStart ∧
        res = request_http_loop cfg i (NUM_REQUESTS cfg) s0
    | Timeout (ProcPC i) =>
        ∃ n, frames s !! i = Some (AtThink n) ∧ res = request_http_issue i n s0
    | Request sw r =>
        ∃ n rt srv,
          frames s !! req_proc r = Some (AtRequest n rt sw srv r) ∧
          res = request_http_granted cfg (req_proc r) n rt sw srv r s0
    | Initialize (ProcHandle srv i) => res = handle_request_begin cfg srv i s0
    | Timeout (ProcHandle srv i) => res = Ok (handle_request_end srv i s0)
    | Process (ProcHandle srv i) =>
        ∃ n rt sw r st,
          frames s !! i = Some (AtService n rt sw srv r st) ∧
          res = request_http_served cfg i n rt sw srv r st s0
    | Release sw r => res = Ok (trigger_put sw s0)
    | Process (ProcPC i) => res = Ok s0
    end.
Proof.
  intros Hr Hstep.
  pose proof (reachable_consistent _ _ Hr) as Hc.
  pose proof (reachable_invariant _ _ Hr) as Hinv.
  unfold step in Hstep.
  destruct (heappop (env_queue s)) as [[e rest]|] eqn:E; [|done].
  destruct (heappop_Some _ _ _ E) as (l1 & l2 & Hq & -> & Hmin).
  exists e, (l1 ++ l2). split; [done|].
  assert (e ∈ env_queue s) as He
    by (rewrite Hq; apply elem_of_app; right; by left).
  split; [done|]. split.
  { by eapply (proj1 (Forall_forall _ _) (inv_time _ _ Hinv)). }
  intros s0.
  assert (res = callbacks cfg (entry_event e) s0) as ->.
  { destruct e as [[[t p] id] ev]. by injection Hstep as <-. }
  clear Hstep.
  assert (∀ i, owner (entry_event e) = Some i →
               ∃ f p, frames s !! i = Some f ∧ pcs s0 !! i = Some p ∧
                      pc_frame p = f ∧ frame_ok i f s ∧
                      pending i s = [entry_event e]) as Hown.
  { intros i Ho.
    destruct (consistent_pop_owner s l1 e l2 (entry_time e) i Hc Hq Ho)
      as (_ & _ & f & Hf & Hok & Hp).
    destruct (lookup_frames _ _ _ Hf) as (p & Hpc & Hpf).
    by exists f, p. }
  destruct (entry_event e) as [[i|srv i]|[i|srv i]|sw r|sw r|[i|srv i]] eqn:Hev;
    simpl; try done.
  - destruct (Hown i eq_refl) as (f & p & Hf & Hp & Hpf & Hok & Hpend).
    pose proof (frame_ok_event _ _ _ _ Hok Hpend) as ->.
    split; [done|]. unfold request_http. by rewrite Hp, Hpf.
  - destruct (Hown i eq_refl) as (f & p & Hf & Hp & Hpf & Hok & Hpend).
    destruct (frame_ok_event _ _ _ _ Hok Hpend) as [n ->].
    exists n. split; [done|]. unfold request_http. by rewrite Hp, Hpf.
  - destruct (Hown (req_proc r) eq_refl) as (f & p & Hf & Hp & Hpf & Hok & Hpend).
    destruct (frame_ok_event _ _ _ _ Hok Hpend) as (n & rt & srv & -> & _).
    exists n, rt, srv. split; [done|]. unfold request_http. by rewrite Hp, Hpf.
  - destruct (Hown i eq_refl) as (f & p & Hf & Hp & Hpf & Hok & Hpend).
    destruct (frame_ok_event _ _ _ _ Hok Hpend)
      as (n & rt & sw & r & st & -> & _).
    exists n, rt, sw, r, st. split; [done|]. unfold request_http.
    by rewrite Hp, Hpf.
Qed.

(** The exceptions of a step: a negative delay, or a choice from an empty
    list. *)
Lemma step_Raise cfg s e :
  reachable cfg s → step cfg s = Some (Raise e) →
  e = ValueError ∨
  (e = IndexError ∧ (switches s = [] ∨ http_servers s = [])).
Proof.
  intros Hr Hstep.
  destruct (step_result _ _ _ Hr Hstep) as (x & rest & _ & _ & _ & H).
  simpl in H.
  destruct (entry_event x) as [[i|srv i]|[i|srv i]|sw r|sw r|[i|srv i]];
    try done.
  - destruct H as [_ H]. symmetry in H.
    left. by eapply request_http_loop_Raise.
  - left. unfold handle_request_begin in H.
    destruct (uniform _ _) as [t s1]. unfold timeout in H.
    case_decide; congruence.
  - destruct H as (n & _ & H). symmetry in H. right.
    set (s0 := set_env_now (entry_time x) (set_env_queue rest s)) in *.
    assert (∀ sw switch, switches s0 !! sw = Some switch →
              is_Some (switch_stats s0 !! sw_name switch)) as Hkeys.
    { intros sw switch Hsw. by eapply (reachable_stats_key cfg s). }
    split; [by eapply request_http_issue_Raise|].
    destruct (decide (switches s = [])) as [|Hs]; [by left|].
    destruct (decide (http_servers s = [])) as [|Hh]; [by right|].
    destruct (request_http_issue_safe i n s0 Hs Hh Hkeys) as [s' Hs'].
    congruence.
  - destruct H as (n & rt & srv & _ & H). symmetry in H. left.
    unfold request_http_granted in H. destruct (random _) as [k s1].
    case_decide; [|done]. by eapply request_http_loop_Raise.
  - destruct H as (n & rt & sw & r & st & _ & H). symmetry in H. left.
    unfold request_http_served in H. by eapply request_http_loop_Raise.
Qed.

(** An invariant of the steps that return, along a run. *)
Lemma run_cases cfg (P : state → Prop) fuel s res :
  (∀ s s', reachable cfg s → P s → step cfg s = Some (Ok s') → P s') →
  reachable cfg s → P s → run cfg fuel s = Some res →
  match res with
  | Ok s' => P s' ∧ reachable cfg s' ∧ env_queue s' = []
  | Raise e => ∃ s1, P s1 ∧ reachable cfg s1 ∧ step cfg s1 = Some (Raise e)
  end.
Proof.
  intros HP. revert s. induction fuel as [|fuel IH]; intros s Hr Hs;
    [by rewrite (eq_refl : run cfg 0 s = None)|rewrite run_S].
  destruct (step cfg s) as [[s1|e]|] eqn:Hstep.
  - apply IH; [by eapply reachable_step|by eapply HP].
  - intros [= <-]. by exists s.
  - intros [= <-]. split; [done|]. split; [done|]. unfold step in Hstep.
    destruct (heappop (env_queue s)) as [[[[[??]?]?]?]|] eqn:E; [done|].
    by apply heappop_None.
Qed.

Lemma env_run_cases cfg (P : state → Prop) s :
  (∀ s s', reachable cfg s → P s → step cfg s = Some (Ok s') → P s') →
  reachable cfg s → P s →
  match env_run cfg s with
  | Ok s' => P s' ∧ reachable cfg s' ∧ env_queue s' = []
  | Raise e => ∃ s1, P s1 ∧ reachable cfg s1 ∧ step cfg s1 = Some (Raise e)
  end.
Proof.
  intros HP Hr Hs. eapply run_cases; [done..|]. apply env_run_run.
Qed.

Lemma reachable_length_frames cfg s :
  reachable cfg s → length (frames s) = NUM_PCS cfg.
Proof.
  intros Hr%reachable_invariant. unfold frames.
  rewrite length_fmap, <-(length_fmap pc_name), (inv_pcs _ _ Hr).
  by rewrite length_fmap, length_seq.
Qed.

Lemma reachable_switches_nil cfg s :
  reachable cfg s →
  (switches s = [] ↔ (FIFO_COUNT cfg + PRIORITY_COUNT cfg = 0)%nat) ∧
  (http_servers s = [] ↔ NUM_SERVERS cfg = 0%nat).
Proof.
  intros Hr%reachable_invariant. split.
  - pose proof (Forall2_length _ _ _ (inv_switches _ _ Hr)) as Hl.
    unfold switch_list in Hl.
    rewrite length_app, !length_fmap, !length_seq in Hl.
    rewrite <-length_zero_iff_nil. lia.
  - rewrite (inv_servers _ _ Hr), <-length_zero_iff_nil.
    rewrite length_fmap, length_seq. done.
Qed.

(** A run cannot end while a generator is before its first request. *)
Lemma thinking_pending P cfg s :
  reachable cfg s → (0 < NUM_PCS cfg)%nat → thinking P s → env_queue s ≠ [].
Proof.
  intros Hr Hn [Hf _] Hq.
  pose proof (reachable_consistent _ _ Hr) as Hc.
  pose proof (reachable_length_frames _ _ Hr) as Hl.
  destruct (lookup_lt_is_Some_2 (frames s) 0%nat ltac:(lia)) as [f Hf0].
  pose proof (con_frames _ Hc _ _ Hf0) as Hok.
  pose proof (proj1 (Forall_lookup _ _) Hf _ _ Hf0) as [->|[n ->]];
    simpl in Hok; unfold pending in Hok; by rewrite Hq in Hok.
Qed.

Lemma thinking_initial P cfg g : thinking P (initial_state cfg g).
Proof.
  split; unfold frames, initial_state; simpl.
  - rewrite <-list_fmap_compose. apply Forall_fmap, Forall_forall.
    intros i _. by left.
  - apply Forall_fmap, Forall_forall. intros i _. left. by exists i.
Qed.

(** A step from such a state leaves it so, unless it is the first request
    of a PC. *)
Lemma thinking_step (P : Z → Prop) cfg s s' :
  reachable cfg s → (0 < NUM_REQUESTS cfg)%nat →
  (∀ t k, env_now s ≤ t → 0 ≤ k < 2 ^ 53 →
          P (t + ((THINK_TIME cfg).1 * TENTH +
                  ((THINK_TIME cfg).2 - (THINK_TIME cfg).1) * k))) →
  thinking P s → step cfg s = Some (Ok s') →
  thinking P s' ∨
  (∃ e i, e ∈ env_queue s ∧ entry_event e = Timeout (ProcPC i) ∧
          P (entry_time e) ∧ env_now s' = entry_time e ∧
          switches s ≠ [] ∧ http_servers s ≠ []).
Proof.
  intros Hr Hn HP [Hfr Hq] Hstep.
  pose proof Hstep as Hnow.
  apply step_metrics in Hnow as (e0 & rest0 & Hpop0 & _ & _ & Hnow & _); [|done].
  destruct (step_result _ _ _ Hr Hstep) as (e & rest & Hpop & He & Hle & H).
  rewrite Hpop in Hpop0. injection Hpop0 as <- <-.
  simpl in H.
  pose proof (proj1 (Forall_forall _ _) Hq e He) as Hev.
  destruct Hev as [[i Hev]|[[i Hev] HPe]]; rewrite Hev in H.
  - left. destruct H as [Hf H]. symmetry in H.
    apply request_http_loop_Ok in H.
    destruct (NUM_REQUESTS cfg) as [|n]; [lia|]. destruct H as [_ ->].
    destruct (heappop_Some _ _ _ Hpop) as (l1 & l2 & Hq' & -> & _).
    split.
    + rewrite frames_set_pc_frame. apply Forall_alter; [done|].
      intros ? _ _. right. by exists n.
    + simpl. apply Forall_app. split.
      * apply Forall_forall. intros x Hx.
        apply (proj1 (Forall_forall _ _) Hq). rewrite Hq'.
        rewrite !elem_of_app in *. destruct Hx; [by left|]. right. by right.
      * constructor; [|constructor]. right. split; [by exists i|].
        unfold entry_time. simpl. apply HP; [done|].
        apply rng_random_range.
  - right. destruct H as (n & Hf & H). symmetry in H.
    apply request_http_issue_Ok in H. simpl in H.
    destruct H as (switch & st & Hsw & [srv Hsrv] & _).
    exists e, i. split_and!; [done..| |].
    + intros Hs. by rewrite Hs in Hsw.
    + intros Hs. by rewrite Hs in Hsrv.
Qed.

Lemma reachable_initial cfg g :
  ¬ (SWITCH_CAPACITY cfg ≤ 0 ∧ (0 < FIFO_COUNT cfg + PRIORITY_COUNT cfg)%nat) →
  setup cfg g = Ok (initial_state cfg g) ∧ reachable cfg (initial_state cfg g).
Proof.
  intros Hc.
  assert (setup cfg g = Ok (initial_state cfg g)) as Hs
    by (rewrite setup_eq; by apply decide_False).
  split; [done|]. by eapply reachable_setup.
Qed.

Lemma summary_Ok s : env_now s ≠ 0 → ∃ r, summary s = Ok r.
Proof.
  intros Hn. unfold summary, throughput_value.
  rewrite decide_False by done. simpl. eauto.
Qed.

Lemma summary_Raise s e :
  summary s = Raise e → e = ZeroDivisionError ∧ env_now s = 0.
Proof.
  unfold summary, throughput_value. case_decide; simpl; [|done].
  by intros [= <-].
Qed.

(** X4.  The exceptions of the program.  Whatever the constants, the program
    ends with its report or with one of three exceptions: [ValueError] (a
    capacity that simpy refuses, or a negative delay), [IndexError]
    ([random.choice] on an empty list, which needs a configuration without
    switches or without servers) or [ZeroDivisionError] (line 122, when
    the clock is still 0).  In particular line 44 never raises [KeyError]. *)
Theorem X4_exceptions_of_the_program cfg g e :
  main cfg g = Raise e →
  e = ValueError ∨
  (e = IndexError ∧
   ((FIFO_COUNT cfg + PRIORITY_COUNT cfg = 0)%nat ∨ NUM_SERVERS cfg = 0%nat)) ∨
  e = ZeroDivisionError.
Proof.
  unfold main. rewrite setup_eq. case_decide as Hc; simpl.
  { intros [= <-]. by left. }
  destruct (reachable_initial cfg g Hc) as [_ Hr].
  pose proof (env_run_cases cfg (λ _, True) (initial_state cfg g)
                ltac:(done) Hr I) as H.
  destruct (env_run cfg (initial_state cfg g)) as [s|e']; simpl.
  - destruct (summary s) as [r|e'] eqn:Hs; simpl; [done|].
    intros [= <-]. right. right. by apply summary_Raise in Hs as [-> _].
  - intros [= <-]. destruct H as (s1 & _ & Hr1 & Hstep).
    destruct (step_Raise _ _ _ Hr1 Hstep) as [->|[-> Hnil]]; [by left|].
    right. left. split; [done|].
    destruct (reachable_switches_nil _ _ Hr1) as [H1 H2].
    destruct Hnil as [Hn|Hn]; [left; by apply H1|right; by apply H2].
Qed.

(** A run that nothing stops: the program returns its report. *)
Lemma main_returns cfg g :
  valid cfg → 0 < SWITCH_CAPACITY cfg →
  (0 < NUM_PCS cfg)%nat → (0 < NUM_REQUESTS cfg)%nat →
  0 < (THINK_TIME cfg).1 →
  ∃ s r, main cfg g = Ok (s, r) ∧ reachable cfg s ∧ env_queue s = [] ∧
         0 < env_now s ∧
         throughput r =
           Qdiv (inject_Z (Z.of_nat (total_successes s) * UNIT))
                (inject_Z (env_now s)).
Proof.
  intros Hv Hcap Hpcs Hreq Hlo.
  destruct (reachable_initial cfg g ltac:(lia)) as [Hs Hr].
  destruct (env_run_safe _ _ Hr Hv) as (s & Hrun & _).
  set (P := λ t : Z, 0 < t).
  pose proof (env_run_cases cfg (λ s, 0 < env_now s ∨ thinking P s)
                (initial_state cfg g)) as H.
  rewrite Hrun in H. destruct H as ([Hpos|Hth] & Hr' & Hq).
  - intros s1 s2 Hr1 [Hpos|Hth] Hstep.
    + left. apply step_metrics in Hstep as (e & ? & _ & _ & Hle & -> & _);
        [lia|done].
    + pose proof (inv_now _ _ (reachable_invariant _ _ Hr1)) as Hnow.
      destruct (thinking_step P cfg s1 s2 Hr1 Hreq)
        as [?|(e & i & _ & _ & HP & -> & _)];
        [|done..|by right|by left].
      intros t k Ht Hk. unfold P, TENTH. destruct Hv as (_ & _ & Hth' & _). nia.
  - done.
  - right. apply thinking_initial.
  - destruct (summary_Ok s ltac:(lia)) as [r Hsum].
    exists s, r. unfold main. rewrite Hs. simpl. rewrite Hrun. simpl.
    rewrite Hsum. simpl. split_and!; [done..|].
    unfold summary, throughput_value in Hsum.
    rewrite decide_False in Hsum by lia. simpl in Hsum. by injection Hsum as <-.
  - by destruct (thinking_pending P cfg s Hr' Hpcs Hth).
Qed.

(** X5.  The program returns.  With at least one switch of a positive
    capacity, at least one server, at least one PC, at least one request
    per PC, and ranges [0 < lo <= hi] for the think time and [0 <= lo <= hi]
    for the service time, the program raises nothing: [env.run()] returns
    with an empty schedule at a positive time, so that line 122 does not
    divide by zero, and the report is computed. *)
Theorem X5_the_program_returns cfg g :
  valid cfg → 0 < SWITCH_CAPACITY cfg →
  (0 < NUM_PCS cfg)%nat → (0 < NUM_REQUESTS cfg)%nat →
  0 < (THINK_TIME cfg).1 →
  ∃ s r, main cfg g = Ok (s, r) ∧ reachable cfg s ∧ env_queue s = [] ∧
         0 < env_now s ∧
         throughput r =
           Qdiv (inject_Z (Z.of_nat (total_successes s) * UNIT))
                (inject_Z (env_now s)).
Proof. apply main_returns. Qed.

Lemma idle_initial cfg g :
  (NUM_PCS cfg = 0 ∨ NUM_REQUESTS cfg = 0)%nat → idle cfg (initial_state cfg g).
Proof.
  intros Hn. unfold idle, initial_state. simpl. split; [done|]. split.
  - destruct Hn as [->|Hn]; [by right|by left].
  - apply Forall_fmap, Forall_forall. intros i _. split; [done|].
    exists i. by left.
Qed.

Lemma idle_step cfg s res :
  reachable cfg s → idle cfg s → step cfg s = Some res →
  ∃ s', res = Ok s' ∧ idle cfg s'.
Proof.
  intros Hr (Hnow & Hn & Hq) Hstep.
  destruct (step_result _ _ _ Hr Hstep) as (e & rest & Hpop & He & _ & H).
  destruct (heappop_Some _ _ _ Hpop) as (l1 & l2 & Hq' & -> & _).
  assert (NUM_REQUESTS cfg = 0%nat) as Hreq.
  { destruct Hn as [|Hn]; [done|]. rewrite Hn in He. by apply elem_of_nil in He. }
  assert (Forall (λ e, entry_time e = 0 ∧
                       ∃ i, entry_event e = Initialize (ProcPC i) ∨
                            entry_event e = Process (ProcPC i)) (l1 ++ l2))
    as Hrest.
  { apply Forall_forall. intros x Hx. apply (proj1 (Forall_forall _ _) Hq).
    rewrite Hq'. rewrite !elem_of_app in *. destruct Hx; [by left|].
    right. by right. }
  destruct (proj1 (Forall_forall _ _) Hq e He) as (Ht & i & [Hev|Hev]);
    simpl in H; rewrite Hev in H.
  - destruct H as [_ ->]. rewrite Hreq. eexists. split; [done|].
    split; [done|]. split; [by left|]. simpl. apply Forall_app. split; [done|].
    constructor; [|constructor]. split; [unfold entry_time in *; simpl; lia|].
    exists i. by right.
  - subst res. eexists. split; [done|]. split; [done|]. split; [by left|done].
Qed.

(** A run in which no delay is ever scheduled ends with the clock at 0. *)
Lemma idle_run cfg g :
  (NUM_PCS cfg = 0 ∨ NUM_REQUESTS cfg = 0)%nat →
  ¬ (SWITCH_CAPACITY cfg ≤ 0 ∧ (0 < FIFO_COUNT cfg + PRIORITY_COUNT cfg)%nat) →
  (∃ s, env_run cfg (initial_state cfg g) = Ok s ∧ env_now s = 0 ∧
        env_queue s = []) ∧
  main cfg g = Raise ZeroDivisionError.
Proof.
  intros Hn Hc. destruct (reachable_initial cfg g Hc) as [Hs Hr].
  pose proof (env_run_cases cfg (idle cfg) (initial_state cfg g)) as H.
  assert (∃ s, env_run cfg (initial_state cfg g) = Ok s ∧ env_now s = 0 ∧
               env_queue s = []) as (s & Hrun & Hnow & Hq).
  { destruct (env_run cfg (initial_state cfg g)) as [s|e].
    - destruct H as ((Hnow & _) & _ & Hq); [|done|by apply idle_initial|by exists s].
      intros s1 s2 Hr1 Hi Hstep.
      by destruct (idle_step _ _ _ Hr1 Hi Hstep) as (? & [= <-] & ?).
    - destruct H as (s1 & Hi & Hr1 & Hstep); [|done|by apply idle_initial|].
      + intros s1 s2 Hr1 Hi Hstep.
        by destruct (idle_step _ _ _ Hr1 Hi Hstep) as (? & [= <-] & ?).
      + by destruct (idle_step _ _ _ Hr1 Hi Hstep) as (? & ? & ?). }
  split; [by exists s|].
  unfold main. rewrite Hs. simpl. rewrite Hrun. simpl.
  unfold summary, throughput_value. by rewrite decide_True.
Qed.

(** X6.  Without PCs, or with [NUM_REQUESTS = 0], nothing is ever scheduled
    with a delay: [env.run()] returns at time 0 and line 122 raises
    [ZeroDivisionError] (unless simpy has refused the capacity of a switch
    before). *)
Theorem X6_division_by_zero cfg g :
  (NUM_PCS cfg = 0 ∨ NUM_REQUESTS cfg = 0)%nat →
  ¬ (SWITCH_CAPACITY cfg ≤ 0 ∧ (0 < FIFO_COUNT cfg + PRIORITY_COUNT cfg)%nat) →
  (∃ s, env_run cfg (initial_state cfg g) = Ok s ∧ env_now s = 0 ∧
        env_queue s = []) ∧
  main cfg g = Raise ZeroDivisionError.
Proof. apply idle_run. Qed.

(** A run without switches or servers ends at the first [random.choice]. *)
Lemma empty_choice_run cfg g :
  ((FIFO_COUNT cfg + PRIORITY_COUNT cfg = 0)%nat ∨ NUM_SERVERS cfg = 0%nat) →
  (0 < NUM_PCS cfg)%nat → (0 < NUM_REQUESTS cfg)%nat →
  0 ≤ (THINK_TIME cfg).1 ≤ (THINK_TIME cfg).2 →
  ¬ (SWITCH_CAPACITY cfg ≤ 0 ∧ (0 < FIFO_COUNT cfg + PRIORITY_COUNT cfg)%nat) →
  env_run cfg (initial_state cfg g) = Raise IndexError ∧
  main cfg g = Raise IndexError.
Proof.
  intros Hnil Hpcs Hreq Hth Hc. destruct (reachable_initial cfg g Hc) as [Hs Hr].
  set (P := λ _ : Z, True).
  pose proof (env_run_cases cfg (thinking P) (initial_state cfg g)) as H.
  assert (env_run cfg (initial_state cfg g) = Raise IndexError) as Hrun.
  { destruct (env_run cfg (initial_state cfg g)) as [s|e].
    - destruct H as (Hth' & Hr' & Hq); [|done|apply thinking_initial|].
      + intros s1 s2 Hr1 Hi Hstep.
        destruct (thinking_step P cfg s1 s2 Hr1 Hreq) as [?|(_ & _ & _ & _ & _ & _ & H1 & H2)];
          [done..|].
        destruct (reachable_switches_nil _ _ Hr1) as [E1 E2].
        destruct Hnil as [Hnil|Hnil]; [by apply E1 in Hnil|by apply E2 in Hnil].
      + by destruct (thinking_pending P cfg s Hr' Hpcs Hth').
    - destruct H as (s1 & [_ Hq1] & Hr1 & Hstep); [|done|apply thinking_initial|].
      + intros s1 s2 Hr1 Hi Hstep.
        destruct (thinking_step P cfg s1 s2 Hr1 Hreq) as [?|(_ & _ & _ & _ & _ & _ & H1 & H2)];
          [done..|].
        destruct (reachable_switches_nil _ _ Hr1) as [E1 E2].
        destruct Hnil as [Hnil|Hnil]; [by apply E1 in Hnil|by apply E2 in Hnil].
      + destruct (step_result _ _ _ Hr1 Hstep) as (x & rest & _ & Hx & _ & H).
        simpl in H.
        destruct (proj1 (Forall_forall _ _) Hq1 x Hx) as [[i Hev]|[[i Hev] _]];
          rewrite Hev in H.
        * destruct H as [_ H].
          destruct (request_http_loop_safe cfg i (NUM_REQUESTS cfg)
                      (set_env_now (entry_time x) (set_env_queue rest s1)) Hth)
            as [s' Hs']. congruence.
        * destruct H as (n & _ & H). symmetry in H. f_equal.
          eapply request_http_issue_Raise; [done|].
          intros sw switch Hsw. by eapply (reachable_stats_key cfg s1). }
  split; [done|]. unfold main. rewrite Hs. simpl. by rewrite Hrun.
Qed.

(** X7.  Without switches, or without servers, the first PC whose think
    time is over raises [IndexError] in [random.choice] (line 39 or 40),
    and the program ends with it: no request is issued.  (There is a PC
    with a request to make, and the think times are not negative.) *)
Theorem X7_choice_from_an_empty_list cfg g :
  ((FIFO_COUNT cfg + PRIORITY_COUNT cfg = 0)%nat ∨ NUM_SERVERS cfg = 0%nat) →
  (0 < NUM_PCS cfg)%nat → (0 < NUM_REQUESTS cfg)%nat →
  0 ≤ (THINK_TIME cfg).1 ≤ (THINK_TIME cfg).2 →
  ¬ (SWITCH_CAPACITY cfg ≤ 0 ∧ (0 < FIFO_COUNT cfg + PRIORITY_COUNT cfg)%nat) →
  env_run cfg (initial_state cfg g) = Raise IndexError ∧
  main cfg g = Raise IndexError.
Proof. apply empty_choice_run. Qed.

Lemma remaining_next_frame cfg n : remaining cfg (next_frame n) = n.
Proof. by destruct n. Qed.

Lemma remaining_initial cfg g :
  sum_list_with (remaining cfg) (frames (initial_state cfg g)) =
  (NUM_PCS cfg * NUM_REQUESTS cfg)%nat.
Proof.
  unfold frames, initial_state. simpl. rewrite <-list_fmap_compose.
  generalize 0%nat at 1.
  induction (NUM_PCS cfg) as [|n IH]; intros a; simpl; [done|].
  by rewrite IH.
Qed.

(** The successes, the losses and the requests still to resolve add up to
    the quota of all PCs. *)
Lemma requests_accounted cfg s :
  reachable cfg s →
  (total_successes s + total_losses s +
   sum_list_with (remaining cfg) (frames s))%nat =
  (NUM_PCS cfg * NUM_REQUESTS cfg)%nat.
Proof.
  induction 1 as [g s Hs|s s' Hr IH Hstep].
  - rewrite setup_eq in Hs. case_decide; [done|]. injection Hs as <-.
    by rewrite total_successes_initial, remaining_initial.
  - pose proof (rng_random_range (rng s)) as Hk.
    destruct (step_frames _ _ _ Hr Hstep)
      as (e & l1 & l2 & new & Hpop & _ & _ & _ & _ & _ & _ & Hf).
    destruct (step_metrics _ _ _ Hr Hstep) as (e' & rest & Hpop' & _ & _ & _ & Hm).
    rewrite Hpop in Hpop'. injection Hpop' as <- <-.
    unfold metrics, total_successes, total_losses in *.
    destruct Hm as [(Hm & Hno & Hnp)|[(sw & r & d & Hev & Hloss & _ & Hm)|
                     (srv & i & n & rt & sw & r & st & d & Hev & Hfi & _ & Hm)]];
      injection Hm as Hdl _ _ _ _ Hs; rewrite Hdl, Hs.
    + destruct (entry_event e) as [[i|srv i]|[i|srv i]|sw r|sw r|[i|srv i]].
      * destruct Hf as (Hi & -> & _).
        pose proof (sum_list_insert (remaining cfg) i (frames s) AtStart
                      (next_frame (NUM_REQUESTS cfg)) Hi) as E.
        rewrite remaining_next_frame in E. simpl in E. lia.
      * destruct Hf as [-> _]. done.
      * destruct Hf as (n & sw & srv & r & Hi & -> & _).
        pose proof (sum_list_insert (remaining cfg) i (frames s) _
                      (AtRequest n (entry_time e) sw srv r) Hi) as E.
        simpl in E. lia.
      * destruct Hf as [-> _]. done.
      * destruct Hf as (n & rt & srv & Hi & [(Hloss & _)|(_ & -> & _)]).
        { by destruct (Hno _ _ eq_refl). }
        pose proof (sum_list_insert (remaining cfg) (req_proc r) (frames s) _
                      (AtService n rt sw srv r (entry_time e)) Hi) as E.
        simpl in E. lia.
      * destruct Hf as [-> _]. done.
      * destruct Hf as [-> _]. done.
      * by destruct (Hnp srv i).
    + rewrite Hev in Hf.
      destruct Hf as (n & rt & srv & Hi & [(_ & -> & _)|(Hno & _)]); [|done].
      pose proof (sum_list_insert (remaining cfg) (req_proc r) (frames s) _
                    (next_frame n) Hi) as E.
      rewrite remaining_next_frame in E. simpl in E.
      destruct d; cbn [get update of_FIFO of_Priority] in *; lia.
    + rewrite Hev in Hf.
      destruct Hf as (n' & rt' & sw' & r' & st' & Hi & -> & _).
      pose proof (sum_list_insert (remaining cfg) i (frames s) _
                    (next_frame n') Hi) as E.
      rewrite remaining_next_frame in E. simpl in E.
      rewrite sum_nat_alter_S.
      2:{ rewrite length_fmap. apply lookup_lt_Some in Hi.
          unfold frames in Hi. by rewrite length_fmap in Hi. }
      lia.
Qed.

(** X8.  The account of the requests.  In every state of a run, the
    successful requests, the lost requests and the requests that the PCs
    have still to resolve add up to [NUM_PCS * NUM_REQUESTS]: every request
    is counted once, as a success or as a loss of one discipline. *)
Theorem X8_every_request_is_counted_once cfg s :
  reachable cfg s →
  (total_successes s + total_losses s +
   sum_list_with (remaining cfg) (frames s))%nat =
  (NUM_PCS cfg * NUM_REQUESTS cfg)%nat.
Proof. apply requests_accounted. Qed.

Lemma trigger_put_grant sw s :
  grant sw (env_now s) (env_eid s) (switches s) (switches (trigger_put sw s))
    (drop (length (env_queue s)) (env_queue (trigger_put sw s))).
Proof.
  unfold trigger_put, grant.
  destruct (switches s !! sw) as [switch|] eqn:Hsw.
  2:{ left. rewrite drop_all. split_and!; [done..|]. by intros. }
  destruct (queue switch) as [|r q] eqn:Hq.
  { left. rewrite drop_all. split_and!; [done..|]. intros ? [= <-]. by left. }
  case_decide as Hc.
  - right. exists switch, r, q. split_and!; [done..|]. simpl.
    by rewrite drop_app_length.
  - left. rewrite drop_all. split_and!; [done..|]. intros ? [= <-]. right. lia.
Qed.

Lemma drop_new {A} (l new : list A) : drop (length l) (l ++ new) = new.
Proof. apply drop_app_length. Qed.

Lemma request_http_loop_switches cfg i n s s' :
  request_http_loop cfg i n s = Ok s' → switches s' = switches s.
Proof.
  intros H%request_http_loop_Ok.
  destruct n; [by subst s'|by destruct H as [_ ->]].
Qed.

Lemma request_exit_release sw r s :
  held sw r s → release sw r (switches s) (switches (request_exit sw r s)).
Proof.
  intros (switch & Hsw & Hu & Hq). exists switch. split_and!; [done..|].
  by rewrite (request_exit_held sw r s switch).
Qed.

Lemma held_switches sw r s s' :
  switches s' = switches s → held sw r s → held sw r s'.
Proof. unfold held. by intros ->. Qed.

(** What a step does to the switches. *)
Lemma step_switches cfg s s' :
  reachable cfg s → step cfg s = Some (Ok s') →
  ∃ e l1 l2 new,
    heappop (env_queue s) = Some (e, l1 ++ l2) ∧
    env_queue s' = (l1 ++ l2) ++ new ∧
    match entry_event e with
    | Timeout (ProcPC i) =>
        ∃ n sw srv switch,
          switches s !! sw = Some switch ∧
          let r := new_request switch i (set_env_now (entry_time e) s) in
          frames s' = <[i := AtRequest n (entry_time e) sw srv r]> (frames s) ∧
          grant sw (entry_time e) (env_eid s)
            (<[sw := set_queue (queue switch ++ [r]) switch]> (switches s))
            (switches s') new
    | Request sw r =>
        (release sw r (switches s) (switches s') ∧
         ∃ x, new = [(entry_time e + 0, NORMAL, env_eid s, Release sw r); x]) ∨
        (switches s' = switches s ∧
         new = [(entry_time e + 0, URGENT, env_eid s,
                 Initialize (ProcHandle
                   match frames s !! req_proc r with
                   | Some (AtRequest _ _ _ srv _) => srv
                   | _ => 0%nat
                   end (req_proc r)))])
    | Process (ProcHandle srv i) =>
        ∃ n rt sw r st,
          frames s !! i = Some (AtService n rt sw srv r st) ∧
          release sw r (switches s) (switches s') ∧
          ∃ x, new = [(entry_time e + 0, NORMAL, env_eid s, Release sw r); x]
    | Release sw r => grant sw (entry_time e) (env_eid s) (switches s) (switches s') new
    | _ => switches s' = switches s
    end.
Proof.
  intros Hr Hstep.
  pose proof (reachable_ordered _ _ Hr) as Hord.
  apply step_anatomy in Hstep
    as (e & l1 & l2 & Hpop & Hq & Hmin & Hle & Hcb & Hpend & H); [|done].
  pose proof (callbacks_extends _ _ _ _ Hcb)
    as [Hnow (new & Hnew & _ & _ & Ht) _ _ _ _].
  simpl in *. exists e, l1, l2, new. clear Hcb.
  split; [done|]. split; [done|].
  set (s0 := set_env_now (entry_time e) (set_env_queue (l1 ++ l2) s)) in *.
  assert (new = drop (length (env_queue s0)) (env_queue s')) as Hdrop.
  { by rewrite Hnew, drop_new. }
  assert (∀ x, env_queue s' = env_queue s0 ++ x → new = x) as Hx.
  { intros x Hx. rewrite Hnew in Hx. by apply app_inv_head in Hx. }
  destruct (entry_event e) as [[i|srv i]|[i|srv i]|sw r|sw r|[i|srv i]] eqn:He.
  - destruct H as [_ H]. apply request_http_loop_Ok in H.
    destruct (NUM_REQUESTS cfg); [by subst s'|by destruct H as [_ ->]].
  - destruct H as [_ H]. by apply handle_request_begin_Ok in H as [_ ->].
  - destruct H as (n & Hf & H).
    apply request_http_issue_Ok in H. simpl in H.
    destruct H as (switch & st & Hsw & _ & _ & ->).
    eexists n, _, _, switch. split; [exact Hsw|]. simpl. split.
    { rewrite frames_set_pc_frame.
      match goal with |- context [trigger_put ?a ?b] =>
        destruct (trigger_put_effect a b) as (-> & _) end.
      symmetry. apply list_insert_alter. }
    pose proof (ordered_lookup _ _ _ Hord Hsw) as Ha.
    destruct (arrival_order_append switch i s Ha) as [Happ _].
    assert (new_request switch i s0 = new_request switch i (set_env_now (entry_time e) s))
      as Hreq by done.
    assert (put_queue_append (sw_put_queue switch) (queue switch)
              (new_request switch i s0) =
            queue switch ++ [new_request switch i (set_env_now (entry_time e) s)])
      as Happ'.
    { pose proof (arrival_order_mono (env_now s) (entry_time e) (next_id s)
                    (next_id s) switch Hle ltac:(lia) Ha) as Ha'.
      rewrite Hreq.
      exact (proj1 (arrival_order_append switch i
                      (set_env_now (entry_time e) s) Ha')). }
    rewrite Hdrop. simpl. rewrite Happ'.
    match goal with |- context [trigger_put ?a ?b] =>
      pose proof (trigger_put_grant a b) as Hg end.
    simpl in Hg. exact Hg.
  - by destruct H as [_ ->].
  - destruct H as (n & rt & srv & Hf & Hheld & H).
    apply request_http_granted_Ok in H. simpl in H.
    destruct H as [[_ H]|[_ ->]].
    + left.
      pose proof (request_http_loop_switches _ _ _ _ _ H) as Hsw.
      apply request_http_loop_effect in H as (_ & _ & x & Hx' & _).
      match type of Hx' with context [request_exit ?a ?b (count_loss ?c ?d)] =>
        destruct (count_loss_effect c d) as (_ & En & Ee & Eq);
        destruct (count_loss_switches c d) as (_ & _ & Es);
        destruct (request_exit_effect a b (count_loss c d)) as (_ & _ & Eq');
        pose proof (request_exit_release a b (count_loss c d)
                      (held_switches _ _ s _ Es Hheld)) as Hrel
      end.
      rewrite Es in Hrel. rewrite <-Hsw in Hrel. split; [done|].
      exists x. apply Hx. rewrite Hx', Eq', Eq, En, Ee, <-app_assoc. done.
    + right. rewrite Hf. split; [done|]. by apply Hx.
  - subst s'. rewrite Hdrop. apply (trigger_put_grant sw s0).
  - by subst s'.
  - destruct H as (n & rt & sw & r & st & Hf & Hheld & H).
    exists n, rt, sw, r, st. split; [done|].
    unfold request_http_served in H.
    pose proof (request_http_loop_switches _ _ _ _ _ H) as Hsw.
    apply request_http_loop_effect in H as (_ & _ & x & Hx' & _).
    match type of Hx' with context [request_exit ?a ?b ?c] =>
      destruct (request_exit_effect a b c) as (_ & _ & Eq');
      pose proof (request_exit_release a b c
                    (held_switches _ _ s _ eq_refl Hheld)) as Hrel
    end.
    rewrite <-Hsw in Hrel. split; [done|].
    exists x. apply Hx. rewrite Hx', Eq', <-app_assoc. done.
Qed.

Lemma holds_insert s s' i f' :
  frames s' = <[i := f']> (frames s) →
  (∀ f sw r, frames s !! i = Some f → holds f sw r → holds f' sw r) →
  ∀ j f sw r, frames s !! j = Some f → holds f sw r →
    ∃ f2, frames s' !! j = Some f2 ∧ holds f2 sw r.
Proof.
  intros Hf Hh j f sw r Hj Hr. rewrite Hf.
  destruct (decide (i = j)) as [->|Hne].
  - exists f'. rewrite list_lookup_insert_eq by (by eapply lookup_lt_Some).
    split; [done|]. by eapply Hh.
  - exists f. by rewrite list_lookup_insert_ne.
Qed.

Lemma list_remove_NoDup_notin r l : NoDup l → r ∉ list_remove r l.
Proof.
  induction 1 as [|x l Hx Hl IH]; simpl; [by intros ?%elem_of_nil|].
  case_decide as Hd; [by subst|].
  intros [->|?]%elem_of_cons; [done|]. by apply IH.
Qed.

Lemma reachable_capacity cfg s sw switch :
  reachable cfg s → switches s !! sw = Some switch → 0 < sw_capacity switch.
Proof.
  intros Hr Hsw.
  destruct (reachable_switch _ _ _ _ Hr Hsw) as (sw0 & Hsw0 & [Hb _]).
  assert (sw_capacity switch = SWITCH_CAPACITY cfg) as ->.
  { apply (f_equal sw_capacity) in Hb. simpl in Hb. rewrite Hb.
    unfold switch_list in Hsw0.
    apply lookup_app_Some in Hsw0 as [H|[_ H]];
      apply list_lookup_fmap_Some in H as (? & -> & ?); done. }
  destruct (reachable_config _ _ Hr) as [?|Hn]; [done|].
  destruct (reachable_switches_nil _ _ Hr) as [[_ Hnil] _].
  rewrite (Hnil Hn) in Hsw. done.
Qed.

Lemma occupied_initial cfg g : occupied (initial_state cfg g).
Proof.
  assert (∀ sw switch, switch_list cfg !! sw = Some switch →
            users switch = [] ∧ queue switch = []) as Hnil.
  { intros sw switch Hsw. unfold switch_list in Hsw.
    apply lookup_app_Some in Hsw as [H|[_ H]];
      apply list_lookup_fmap_Some in H as (? & -> & ?); done. }
  split; simpl; intros sw switch; [intros r|..]; intros Hsw;
    destruct (Hnil _ _ Hsw) as [Hu Hq]; rewrite ?Hu, ?Hq.
  - by intros ?%elem_of_nil.
  - constructor.
  - done.
Qed.

(** The slot granted by [_trigger_put] goes to a waiting request: the
    switches [l], with the frames [fr] and the entries [old], are occupied
    but for the waiting of switch [sw]. *)
Lemma occupied_grant (fr : list frame) (old : list entry) s' sw t eid l new :
  grant sw t eid l (switches s') new →
  frames s' = fr →
  (∀ x, x ∈ old → x ∈ env_queue s') →
  (∀ sw' switch r, l !! sw' = Some switch → r ∈ users switch →
     (r ∉ queue switch) ∧ ∃ f, fr !! req_proc r = Some f ∧ holds f sw' r) →
  (∀ sw' switch, l !! sw' = Some switch → NoDup (users switch)) →
  (∀ sw' switch, l !! sw' = Some switch → NoDup (queue switch)) →
  (∀ sw' switch r, l !! sw' = Some switch → r ∈ queue switch →
     ∃ f, fr !! req_proc r = Some f ∧ holds f sw' r) →
  (∀ sw' switch, sw' ≠ sw → l !! sw' = Some switch → queue switch ≠ [] →
     users switch ≠ [] ∨
     ∃ e r, e ∈ old ∧ entry_event e = Release sw' r) →
  (∀ switch, l !! sw = Some switch → 0 < sw_capacity switch) →
  occupied s'.
Proof.
  intros Hg Hf Hq Hown Hnd Hndq Hwait Hbusy Hcap.
  destruct Hg as [(Hl & _ & Hfull)|
                  (switch & r & q & Hsw & Hqr & Hfree & Hl & _)].
  - split; rewrite ?Hl, ?Hf; [done..|].
    intros sw' switch Hsw' Hne. destruct (decide (sw' = sw)) as [->|Hd].
    + left. destruct (Hfull _ Hsw') as [?|Hc]; [done|].
      specialize (Hcap _ Hsw'). destruct (users switch); simpl in *; [lia|done].
    + destruct (Hbusy _ _ Hd Hsw' Hne) as [?|(e & r & He & Hev)]; [by left|].
      right. exists e, r. split; [|done]. by apply Hq.
  - assert (∀ sw' switch', switches s' !! sw' = Some switch' →
              (sw' = sw ∧ switch' = set_queue q (set_users (users switch ++ [r]) switch)) ∨
              (sw' ≠ sw ∧ l !! sw' = Some switch')) as Hcases.
    { intros sw' switch'. rewrite Hl.
      intros [(<- & <- & _)|[? ?]]%list_lookup_insert_Some; [by left|by right]. }
    assert (r ∉ q) as Hrq.
    { pose proof (Hndq _ _ Hsw) as Hn. rewrite Hqr in Hn.
      by apply NoDup_cons in Hn as [? _]. }
    assert (r ∉ users switch) as Hru.
    { intros Hin. destruct (Hown _ _ _ Hsw Hin) as [Hnq _].
      apply Hnq. rewrite Hqr. by left. }
    split; rewrite ?Hf.
    + intros sw' switch' r' Hsw' Hin.
      destruct (Hcases _ _ Hsw') as [[-> ->]|[Hne Hl']]; simpl in *.
      * apply elem_of_app in Hin as [Hin|Hin].
        2: apply list_elem_of_singleton in Hin as ->.
        -- destruct (Hown _ _ _ Hsw Hin) as [Hnq Hfr]. split; [|done].
           intros Hin'. apply Hnq. rewrite Hqr. by right.
        -- split; [done|]. apply (Hwait _ _ _ Hsw). rewrite Hqr. by left.
      * by apply (Hown _ _ _ Hl').
    + intros sw' switch' Hsw'.
      destruct (Hcases _ _ Hsw') as [[-> ->]|[Hne Hl']]; simpl.
      * apply NoDup_app. split; [by eapply Hnd|]. split; [|apply NoDup_singleton].
        intros x Hx ->%list_elem_of_singleton. done.
      * by eapply Hnd.
    + intros sw' switch' Hsw' Hne.
      destruct (Hcases _ _ Hsw') as [[-> ->]|[Hd Hl']]; simpl in *.
      * left. by destruct (users switch).
      * destruct (Hbusy _ _ Hd Hl' Hne) as [?|(e & r' & He & Hev)]; [by left|].
        right. exists e, r'. split; [|done]. by apply Hq.
Qed.

(** A step that leaves the switches alone keeps them occupied when it keeps
    the suspended requests and the releases to come. *)
Lemma occupied_same s s' :
  occupied s → switches s' = switches s →
  (∀ j f sw r, frames s !! j = Some f → holds f sw r →
     ∃ f2, frames s' !! j = Some f2 ∧ holds f2 sw r) →
  (∀ x sw r, x ∈ env_queue s → entry_event x = Release sw r →
     x ∈ env_queue s') →
  occupied s'.
Proof.
  intros [Hown Hnd Hbusy] Hsw Hkeep Hrel. split; rewrite Hsw.
  - intros sw switch r Hl Hin. destruct (Hown _ _ _ Hl Hin) as [? (f & Hf & Hh)].
    split; [done|]. by eapply Hkeep.
  - done.
  - intros sw switch Hl Hne.
    destruct (Hbusy _ _ Hl Hne) as [?|(e & r & He & Hev)]; [by left|].
    right. exists e, r. split; [|done]. by eapply Hrel.
Qed.

(** The end of a [with] block: the slot is given back, and the release is
    scheduled. *)
Lemma occupied_release s s' sw r i f f' x :
  occupied s → release sw r (switches s) (switches s') →
  frames s !! i = Some f → holds f sw r → req_proc r = i →
  frames s' = <[i := f']> (frames s) →
  x ∈ env_queue s' → entry_event x = Release sw r →
  (∀ y sw' r', y ∈ env_queue s → entry_event y = Release sw' r' →
     y ∈ env_queue s') →
  occupied s'.
Proof.
  intros [Hown Hnd Hbusy] (switch & Hsw & Hin & Hnq & Hl) Hf Hh Hi Hf' Hx Hev Hrel.
  assert (∀ sw' switch', switches s' !! sw' = Some switch' →
            (sw' = sw ∧ switch' = set_users (list_remove r (users switch)) switch) ∨
            (sw' ≠ sw ∧ switches s !! sw' = Some switch')) as Hcases.
  { intros sw' switch'. rewrite Hl.
    intros [(<- & <- & _)|[? ?]]%list_lookup_insert_Some; [by left|by right]. }
  assert (∀ sw' r' f0, frames s !! req_proc r' = Some f0 → holds f0 sw' r' →
            (sw' ≠ sw ∨ r' ≠ r) →
            ∃ f2, frames s' !! req_proc r' = Some f2 ∧ holds f2 sw' r') as Hkeep.
  { intros sw' r' f0 Hf0 Hh0 Hne. exists f0. split; [|done].
    rewrite Hf'. rewrite list_lookup_insert_ne; [done|].
    intros E. rewrite <-E, Hf in Hf0. injection Hf0 as <-.
    destruct f; simpl in *; try done;
      destruct Hh as [<- <-], Hh0 as [<- <-]; by destruct Hne. }
  split.
  - intros sw' switch' r' Hsw' Hin'.
    destruct (Hcases _ _ Hsw') as [[-> ->]|[Hne Hl']]; simpl in *.
    + assert (r' ≠ r) as Hr'.
      { intros ->. by apply (list_remove_NoDup_notin r (users switch)); [eapply Hnd|]. }
      assert (r' ∈ users switch) as Hu.
      { by eapply list_remove_subseteq. }
      destruct (Hown _ _ _ Hsw Hu) as [? (f0 & Hf0 & Hh0)]. split; [done|].
      eapply Hkeep; eauto.
    + destruct (Hown _ _ _ Hl' Hin') as [? (f0 & Hf0 & Hh0)]. split; [done|].
      eapply Hkeep; eauto.
  - intros sw' switch' Hsw'.
    destruct (Hcases _ _ Hsw') as [[-> ->]|[Hne Hl']]; simpl.
    + apply list_remove_NoDup. by eapply Hnd.
    + by eapply Hnd.
  - intros sw' switch' Hsw' Hne.
    destruct (Hcases _ _ Hsw') as [[-> ->]|[Hd Hl']]; simpl in *.
    + right. by exists x, r.
    + destruct (Hbusy _ _ Hl' Hne) as [?|(e & r' & He & Hev')]; [by left|].
      right. exists e, r'. split; [|done]. by eapply Hrel.
Qed.

(** The steps of a run keep the switches occupied. *)
Lemma occupied_step cfg s s' :
  reachable cfg s → occupied s → step cfg s = Some (Ok s') → occupied s'.
Proof.
  intros Hr Hocc Hstep.
  pose proof (reachable_consistent _ _ Hr) as Hcon.
  destruct (step_frames _ _ _ Hr Hstep)
    as (e & l1 & l2 & new & Hpop & Hq & Hq' & _ & _ & _ & _ & Hfr).
  destruct (step_switches _ _ _ Hr Hstep)
    as (e2 & l3 & l4 & new2 & Hpop2 & Hq2 & Hsw).
  rewrite Hpop in Hpop2. injection Hpop2 as <- Hll.
  rewrite <-Hll, Hq' in Hq2. apply app_inv_head in Hq2 as <-.
  clear Hll l3 l4 Hpop.
  assert (∀ x, x ∈ l1 ++ l2 → x ∈ env_queue s') as Hold.
  { intros x Hx. rewrite Hq'. apply elem_of_app. by left. }
  assert (∀ x, x ∈ new → x ∈ env_queue s') as Hnew.
  { intros x Hx. rewrite Hq'. apply elem_of_app. by right. }
  assert (∀ x, x ∈ env_queue s → entry_event x ≠ entry_event e → x ∈ l1 ++ l2)
    as Hrest.
  { intros x Hx Hne. rewrite Hq in Hx. apply elem_of_app.
    apply elem_of_app in Hx as [?|[->|?]%elem_of_cons]; [by left|done|by right]. }
  destruct (entry_event e) as [[i|srv i]|[i|srv i]|sw r|sw r|[i|srv i]] eqn:He.
  - destruct Hfr as (Hf & Hf' & _).
    apply (occupied_same s); [done|done| |].
    + apply (holds_insert s s' i _ Hf'). intros f sw r Hf0.
      rewrite Hf in Hf0. by injection Hf0 as <-.
    + intros x sw r Hx Hev. apply Hold, Hrest; [done|]. by rewrite Hev.
  - destruct Hfr as [Hf' _].
    apply (occupied_same s); [done|done| |].
    + intros j f sw r Hj Hh. exists f. by rewrite Hf'.
    + intros x sw r Hx Hev. apply Hold, Hrest; [done|]. by rewrite Hev.
  - destruct Hfr as (n' & _ & _ & _ & Hfi & _).
    destruct Hsw as (n & sw & srv & switch & Hswitch & Hf' & Hg).
    set (r := new_request switch i (set_env_now (entry_time e) s)) in *.
    assert (∀ sw' r' f, frames s !! req_proc r' = Some f → holds f sw' r' →
              req_proc r' ≠ i) as Hnoti.
    { intros sw' r' f Hf Hh E. rewrite E, Hfi in Hf. by injection Hf as <-. }
    assert (∀ sw' r' f, frames s !! req_proc r' = Some f → holds f sw' r' →
              ∃ f2, frames s' !! req_proc r' = Some f2 ∧ holds f2 sw' r') as Hkeep.
    { intros sw' r' f Hf Hh. exists f. split; [|done].
      rewrite Hf', list_lookup_insert_ne; [done|].
      intros E. by eapply Hnoti. }
    assert (∀ sw' switch',
              <[sw := set_queue (queue switch ++ [r]) switch]> (switches s) !! sw'
                = Some switch' →
              (sw' = sw ∧ switch' = set_queue (queue switch ++ [r]) switch) ∨
              (sw' ≠ sw ∧ switches s !! sw' = Some switch')) as Hcases.
    { intros sw' switch'.
      intros [(<- & <- & _)|[? ?]]%list_lookup_insert_Some; [by left|by right]. }
    assert (r ∉ queue switch) as Hrq.
    { intros Hin. destruct (con_queue _ Hcon _ _ _ Hswitch Hin) as (? & ? & ? & Hf).
      simpl in Hf. rewrite Hfi in Hf. done. }
    apply (occupied_grant (frames s') (l1 ++ l2) s' sw _ _ _ _ Hg eq_refl Hold).
    + intros sw' switch' r' Hl Hin.
      destruct (Hcases _ _ Hl) as [[-> ->]|[Hne Hl']]; simpl in *.
      * destruct (occ_owner _ Hocc _ _ _ Hswitch Hin) as [Hnq (f & Hf & Hh)].
        split; [|by eapply Hkeep].
        intros [?| ->%list_elem_of_singleton]%elem_of_app; [done|].
        by apply (Hnoti _ _ _ Hf Hh).
      * destruct (occ_owner _ Hocc _ _ _ Hl' Hin) as [Hnq (f & Hf & Hh)].
        split; [done|]. by eapply Hkeep.
    + intros sw' switch' Hl.
      destruct (Hcases _ _ Hl) as [[-> ->]|[Hne Hl']]; simpl;
        by eapply (occ_nodup _ Hocc).
    + intros sw' switch' Hl.
      destruct (Hcases _ _ Hl) as [[-> ->]|[Hne Hl']]; simpl;
        [|by eapply (con_nodup _ Hcon)].
      apply NoDup_app. split; [by eapply (con_nodup _ Hcon)|].
      split; [|apply NoDup_singleton].
      intros x Hx ->%list_elem_of_singleton. done.
    + intros sw' switch' r' Hl Hin.
      destruct (Hcases _ _ Hl) as [[-> ->]|[Hne Hl']]; simpl in *.
      * apply elem_of_app in Hin as [Hin| ->%list_elem_of_singleton].
        -- destruct (con_queue _ Hcon _ _ _ Hswitch Hin) as (n1 & rt1 & srv1 & Hf).
           by apply (Hkeep sw r' _ Hf).
        -- exists (AtRequest n (entry_time e) sw srv r). split; [|done].
           rewrite Hf'. apply list_lookup_insert_eq. by eapply lookup_lt_Some.
      * destruct (con_queue _ Hcon _ _ _ Hl' Hin) as (n1 & rt1 & srv1 & Hf).
        by apply (Hkeep sw' r' _ Hf).
    + intros sw' switch' Hne Hl Hqne.
      destruct (Hcases _ _ Hl) as [[-> ->]|[_ Hl']]; [done|].
      destruct (occ_busy _ Hocc _ _ Hl' Hqne) as [?|(x & r' & Hx & Hev)];
        [by left|].
      right. exists x, r'. split; [|done]. apply Hrest; [done|]. by rewrite Hev.
    + intros switch' Hl.
      destruct (Hcases _ _ Hl) as [[_ ->]|[? _]]; [|done]. simpl.
      by eapply reachable_capacity.
  - destruct Hfr as [Hf' _].
    apply (occupied_same s); [done|done| |].
    + intros j f sw r Hj Hh. exists f. by rewrite Hf'.
    + intros x sw r Hx Hev. apply Hold, Hrest; [done|]. by rewrite Hev.
  - destruct Hfr as (n & rt & srv & Hf & Hfr).
    assert (∀ y sw' r', y ∈ env_queue s → entry_event y = Release sw' r' →
              y ∈ env_queue s') as Hrel.
    { intros y sw' r' Hy Hev. apply Hold, Hrest; [done|]. by rewrite Hev. }
    destruct Hfr as [(_ & Hf' & Hout)|(_ & Hf' & Hn)],
             Hsw as [[Hrl [x Hx]]|[Hsame Hx]].
    + eapply (occupied_release s s' sw r (req_proc r) _ _
                (entry_time e + 0, NORMAL, env_eid s, Release sw r));
        [done|done|exact Hf|done|done|exact Hf'| |done|done].
      apply Hnew. rewrite Hx. by left.
    + rewrite Hx in Hout. by apply Forall_cons in Hout as [? _].
    + rewrite Hx in Hn. done.
    + apply (occupied_same s); [done|done| |done].
      apply (holds_insert s s' _ _ Hf'). intros f sw' r' Hf0.
      rewrite Hf in Hf0. by injection Hf0 as <-.
  - destruct Hfr as [Hf' _].
    apply (occupied_grant (frames s') (l1 ++ l2) s' sw _ _ _ _ Hsw eq_refl Hold);
      rewrite ?Hf'.
    + by apply (occ_owner _ Hocc).
    + by apply (occ_nodup _ Hocc).
    + by apply (con_nodup _ Hcon).
    + intros sw' switch' r' Hl Hin.
      destruct (con_queue _ Hcon _ _ _ Hl Hin) as (n1 & rt1 & srv1 & Hf).
      eexists. split; [exact Hf|done].
    + intros sw' switch' Hne Hl Hqne.
      destruct (occ_busy _ Hocc _ _ Hl Hqne) as [?|(x & r' & Hx & Hev)];
        [by left|].
      right. exists x, r'. split; [|done]. apply Hrest; [done|].
      rewrite Hev. by intros [= -> _].
    + intros switch' Hl. by eapply reachable_capacity.
  - destruct Hfr as [Hf' _].
    apply (occupied_same s); [done|done| |].
    + intros j f sw r Hj Hh. exists f. by rewrite Hf'.
    + intros x sw r Hx Hev. apply Hold, Hrest; [done|]. by rewrite Hev.
  - destruct Hfr as (n & rt & sw & r & st & Hf & Hf' & _).
    destruct Hsw as (n2 & rt2 & sw2 & r2 & st2 & Hf2 & Hrl & x & Hx).
    rewrite Hf in Hf2. injection Hf2 as <- <- <- <- <-.
    destruct (con_frames _ Hcon _ _ Hf) as (Hi & _).
    eapply (occupied_release s s' sw r i _ _
              (entry_time e + 0, NORMAL, env_eid s, Release sw r));
      [done|done|exact Hf|done|done|exact Hf'| |done|].
    + apply Hnew. rewrite Hx. by left.
    + intros y sw' r' Hy Hev. apply Hold, Hrest; [done|]. by rewrite Hev.
Qed.

Lemma reachable_occupied cfg s : reachable cfg s → occupied s.
Proof.
  induction 1 as [g s Hs|s s' Hr IH Hstep].
  - rewrite setup_eq in Hs. case_decide; [done|]. injection Hs as <-.
    apply occupied_initial.
  - by eapply occupied_step.
Qed.

(** When nothing is scheduled, no generator is suspended. *)
Lemma finished_frames cfg s i f :
  reachable cfg s → env_queue s = [] → frames s !! i = Some f → f = Finished.
Proof.
  intros Hr Hq Hf.
  pose proof (reachable_consistent _ _ Hr) as Hcon.
  pose proof (reachable_occupied _ _ Hr) as Hocc.
  assert (∀ j, pending j s = []) as Hp.
  { intros j. unfold pending. by rewrite Hq. }
  assert (∀ sw switch r, switches s !! sw = Some switch → r ∉ users switch)
    as Hfree.
  { intros sw switch r Hsw Hin.
    destruct (occ_owner _ Hocc _ _ _ Hsw Hin) as [Hnq (f0 & Hf0 & Hh)].
    pose proof (con_frames _ Hcon _ _ Hf0) as Hok.
    destruct f0 as [|n0|n0 rt0 sw0 srv0 r0|n0 rt0 sw0 srv0 r0 st0|];
      simpl in Hh, Hok; try done; destruct Hh as [-> ->].
    - destruct Hok as [_ [[Hp' _]|[_ (switch' & Hsw' & Hin')]]].
      + by rewrite Hp in Hp'.
      + rewrite Hsw in Hsw'. by injection Hsw' as <-.
    - destruct Hok as (_ & _ & [Hp'|[Hp'|Hp']]); by rewrite Hp in Hp'. }
  pose proof (con_frames _ Hcon _ _ Hf) as Hok.
  destruct f as [|n|n rt sw srv r|n rt sw srv r st|]; simpl in Hok;
    [by rewrite Hp in Hok..| | |done].
  - destruct Hok as [_ [[Hp' _]|[_ (switch & Hsw & Hin)]]];
      [by rewrite Hp in Hp'|].
    destruct (occ_busy _ Hocc _ _ Hsw) as [Hu|(x & ? & Hx & _)].
    + intros E. by rewrite E in Hin; apply elem_of_nil in Hin.
    + destruct (users switch) as [|r' u] eqn:E; [done|].
      exfalso. apply (Hfree _ _ r' Hsw). rewrite E. by left.
    + rewrite Hq in Hx. by apply elem_of_nil in Hx.
  - destruct Hok as (_ & _ & [Hp'|[Hp'|Hp']]); by rewrite Hp in Hp'.
Qed.

(** X9.  No request is left behind.  When the schedule is empty, which is
    when [env.run()] returns, every PC has left its loop, no switch has a
    user or a waiting request, and each of the [NUM_PCS * NUM_REQUESTS]
    requests has been counted as a success or as a loss: no request waits
    for a slot for ever. *)
Theorem X9_every_request_is_resolved cfg s :
  reachable cfg s → env_queue s = [] →
  Forall (λ f, f = Finished) (frames s) ∧
  Forall (λ switch, users switch = [] ∧ queue switch = []) (switches s) ∧
  (total_successes s + total_losses s)%nat =
  (NUM_PCS cfg * NUM_REQUESTS cfg)%nat.
Proof.
  intros Hr Hq.
  assert (Forall (λ f, f = Finished) (frames s)) as Hfin.
  { apply Forall_lookup. intros i f Hf. by eapply finished_frames. }
  split; [done|]. split.
  - apply Forall_lookup. intros sw switch Hsw. split.
    + destruct (users switch) as [|r u] eqn:E; [done|]. exfalso.
      destruct (occ_owner _ (reachable_occupied _ _ Hr) sw switch r Hsw)
        as [_ (f & Hf & Hh)]; [rewrite E; by left|].
      rewrite (finished_frames _ _ _ _ Hr Hq Hf) in Hh. done.
    + destruct (queue switch) as [|r q] eqn:E; [done|]. exfalso.
      destruct (con_queue _ (reachable_consistent _ _ Hr) sw switch r Hsw)
        as (n & rt & srv & Hf); [rewrite E; by left|].
      by apply (finished_frames _ _ _ _ Hr Hq) in Hf.
  - rewrite <-(requests_accounted cfg s Hr).
    assert (sum_list_with (remaining cfg) (frames s) = 0%nat) as ->; [|lia].
    induction Hfin as [|f l -> _ IH]; simpl; [done|]. by rewrite IH.
Qed.

Lemma later_reachable cfg s s' :
  reachable cfg s → later cfg s s' → reachable cfg s' ∧ env_now s ≤ env_now s'.
Proof.
  intros Hr Hl. induction Hl as [s|s s1 s2 Hstep _ IH]; [done|].
  destruct IH as [Hr2 Hle]; [by eapply reachable_step|]. split; [done|].
  apply step_metrics in Hstep as (e & rest & _ & _ & Hle' & Hnow & _); [lia|done].
Qed.

Lemma steps_later cfg k s s' : steps cfg k s = Some s' → later cfg s s'.
Proof.
  revert s. induction k as [|k IH]; intros s H; simpl in H.
  - injection H as <-. constructor.
  - destruct (step cfg s) as [[s1|]|] eqn:Hs; [|done..].
    eapply later_step; [done|]. by apply IH.
Qed.

Lemma state_after_later cfg g k :
  match steps cfg k (initial_state cfg g) with
  | Some _ => True
  | None => False
  end →
  later cfg (initial_state cfg g) (state_after cfg g k).
Proof.
  unfold state_after.
  destruct (steps cfg k (initial_state cfg g)) as [s|] eqn:Hs; [|done].
  intros _. simpl. by eapply steps_later.
Qed.

(** X11.  The clock never goes back.  From a state of a run to any later
    one the simulation time does not decrease; it is never negative, and
    nothing is scheduled in the past. *)
Theorem X11_clock_never_goes_back cfg s s' :
  reachable cfg s → later cfg s s' →
  0 ≤ env_now s ≤ env_now s' ∧
  Forall (λ e, env_now s' ≤ entry_time e) (env_queue s').
Proof.
  intros Hr Hl. destruct (later_reachable _ _ _ Hr Hl) as [Hr' Hle].
  split; [split; [|done]|].
  - apply (inv_now _ _ (reachable_invariant _ _ Hr)).
  - apply (inv_time _ _ (reachable_invariant _ _ Hr')).
Qed.

(** X13.  One slot per PC.  The requests that hold slots, of whatever
    switch, belong to different PCs, and the PC of a request that holds a
    slot has no request waiting: a PC is never counted twice in the load of
    the switches. *)
Theorem X13_one_slot_per_pc cfg s sw sw' switch switch' r r' :
  reachable cfg s →
  switches s !! sw = Some switch → switches s !! sw' = Some switch' →
  r ∈ users switch → req_proc r = req_proc r' →
  (r' ∈ users switch' → sw = sw' ∧ r = r') ∧ r' ∉ queue switch'.
Proof.
  intros Hr Hsw Hsw' Hin Hp.
  pose proof (reachable_occupied _ _ Hr) as Hocc.
  destruct (occ_owner _ Hocc _ _ _ Hsw Hin) as [Hnq (f & Hf & Hh)].
  split.
  - intros Hin'.
    destruct (occ_owner _ Hocc _ _ _ Hsw' Hin') as [_ (f' & Hf' & Hh')].
    rewrite <-Hp, Hf in Hf'. injection Hf' as <-.
    destruct f; simpl in *; try done;
      destruct Hh as [<- <-], Hh' as [<- <-]; done.
  - intros Hin'.
    destruct (con_queue _ (reachable_consistent _ _ Hr) _ _ _ Hsw' Hin')
      as (n & rt & srv & Hf').
    rewrite <-Hp, Hf in Hf'. injection Hf' as ->. destruct Hh as [-> ->].
    rewrite Hsw in Hsw'. injection Hsw' as <-. done.
Qed.

Lemma stdout_trigger_put i s : stdout (trigger_put i s) = stdout s.
Proof. unfold trigger_put. by repeat case_match. Qed.

Lemma stdout_loop cfg i n s s' :
  request_http_loop cfg i n s = Ok s' → stdout s' = stdout s.
Proof.
  intros H%request_http_loop_Ok. destruct n as [|n].
  - by subst s'.
  - by destruct H as [_ ->].
Qed.

Lemma stdout_issue i n s s' :
  request_http_issue i n s = Ok s' → stdout s' = stdout s.
Proof.
  intros H%request_http_issue_Ok. simpl in H.
  destruct H as (switch & st & _ & _ & _ & ->).
  change (stdout (set_pc_frame ?i ?f ?s)) with (stdout s).
  by rewrite stdout_trigger_put.
Qed.

Lemma stdout_count_loss sw s : stdout (count_loss sw s) = stdout s.
Proof. unfold count_loss. by destruct (class_of sw s). Qed.

(** What a step prints: line 79 at the timeout of a handler, nothing
    otherwise. *)
Lemma step_stdout cfg s s' :
  reachable cfg s → step cfg s = Some (Ok s') →
  ∃ e rest,
    heappop (env_queue s) = Some (e, rest) ∧
    match entry_event e with
    | Timeout (ProcHandle srv i) =>
        stdout s' =
        stdout s ++ [(default "" (pc_name <$> pcs s !! i),
                      default "" (http_servers s !! srv), entry_time e)]
    | _ => stdout s' = stdout s
    end.
Proof.
  intros Hr Hstep.
  apply step_anatomy in Hstep as (e & l1 & l2 & Hpop & _ & _ & _ & _ & _ & H);
    [|done].
  exists e, (l1 ++ l2). split; [done|]. simpl in H.
  destruct (entry_event e) as [[i|srv i]|[i|srv i]|sw r|sw r|[i|srv i]] eqn:He.
  - destruct H as [_ H]. by apply stdout_loop in H.
  - destruct H as [_ H]. by apply handle_request_begin_Ok in H as [_ ->].
  - destruct H as (n & _ & H). by apply stdout_issue in H.
  - by destruct H as [_ ->].
  - destruct H as (n & rt & srv & _ & _ & H).
    apply request_http_granted_Ok in H. simpl in H.
    destruct H as [[_ H]|[_ ->]]; [|done].
    apply stdout_loop in H. rewrite H.
    change (stdout (request_exit ?a ?b ?s)) with (stdout s).
    by rewrite stdout_count_loss.
  - subst s'. by rewrite stdout_trigger_put.
  - by subst s'.
  - destruct H as (n & rt & sw & r & st & _ & _ & H).
    unfold request_http_served in H. by apply stdout_loop in H.
Qed.

Lemma response_of_outside new :
  Forall outside_handler new → sum_list_with response_of new = 0%nat.
Proof.
  induction 1 as [|x l Hx _ IH]; simpl; [done|]. rewrite IH.
  unfold outside_handler, response_of in *.
  by destruct (entry_event x) as [[]|[]| | |[]].
Qed.

(** X12.  The response lines.  Line 79 has printed one line for each
    successful request and one for each handler whose PC has not resumed
    yet, so that the lines are as many as the successes when the schedule is
    empty; the times of the lines do not decrease, and lie between 0 and the
    clock. *)
Theorem X12_one_response_line_per_success cfg s :
  reachable cfg s →
  length (stdout s) = (total_successes s + responses_due s)%nat ∧
  (env_queue s = [] → length (stdout s) = total_successes s) ∧
  StronglySorted Z.le (line_time <$> stdout s) ∧
  Forall (λ t, 0 ≤ t ≤ env_now s) (line_time <$> stdout s).
Proof.
  intros Hr.
  assert (length (stdout s) = (total_successes s + responses_due s)%nat ∧
          StronglySorted Z.le (line_time <$> stdout s) ∧
          Forall (λ t, 0 ≤ t ≤ env_now s) (line_time <$> stdout s))
    as (Hlen & Hsort & Hle).
  2:{ split; [done|]. split; [|done]. intros Hq. rewrite Hlen.
      unfold responses_due. rewrite Hq. simpl. lia. }
  induction Hr as [g s Hs|s s' Hr (IHlen & IHsort & IHle) Hstep].
  { rewrite setup_eq in Hs. case_decide; [done|]. injection Hs as <-.
    rewrite total_successes_initial. unfold responses_due. simpl.
    split; [|split; constructor].
    symmetry. apply response_of_outside, Forall_fmap, Forall_forall. by intros. }
  pose proof (inv_now _ _ (reachable_invariant _ _ Hr)) as Hnow.
  destruct (step_frames _ _ _ Hr Hstep)
    as (e & l1 & l2 & new & Hpop & Hq & Hq' & Hte & Hnow' & _ & _ & Hf).
  destruct (step_metrics _ _ _ Hr Hstep) as (e1 & rest1 & Hpop1 & _ & _ & _ & Hm).
  rewrite Hpop in Hpop1. injection Hpop1 as <- <-.
  destruct (step_stdout _ _ _ Hr Hstep) as (e2 & rest2 & Hpop2 & Hout).
  rewrite Hpop in Hpop2. injection Hpop2 as <- <-.
  assert (Forall (λ t, 0 ≤ t ≤ env_now s') (line_time <$> stdout s)) as Hle'.
  { eapply Forall_impl; [exact IHle|]. simpl. intros t Ht. lia. }
  assert (responses_due s =
          (sum_list_with response_of (l1 ++ l2) + response_of e)%nat) as Hdue.
  { unfold responses_due. rewrite Hq, !sum_list_with_app. simpl. lia. }
  assert (responses_due s' =
          (sum_list_with response_of (l1 ++ l2) + sum_list_with response_of new)%nat)
    as Hdue'.
  { unfold responses_due. by rewrite Hq', sum_list_with_app. }
  unfold metrics, total_successes in *. unfold response_of in Hdue at 2.
  destruct Hm as [(Hm & Hno & Hnp)|[(sw & r & d & Hev & Hloss & _ & Hm)|
                   (srv & i & n & rt & sw & r & st & d & Hev & Hfi & _ & Hm)]];
    injection Hm as _ _ _ _ _ Hs; rewrite Hs.
  - destruct (entry_event e) as [[i|srv i]|[i|srv i]|sw r|sw r|[i|srv i]].
    + destruct Hf as (_ & _ & Hn). rewrite Hout.
      rewrite (response_of_outside _ Hn) in Hdue'. split; [lia|done].
    + destruct Hf as [_ ->]. rewrite Hout. simpl in Hdue'. split; [lia|done].
    + destruct Hf as (? & ? & ? & ? & _ & _ & Hn). rewrite Hout.
      rewrite (response_of_outside _ Hn) in Hdue'. split; [lia|done].
    + destruct Hf as [_ ->]. rewrite Hout. simpl in Hdue'.
      rewrite length_app, fmap_app. simpl. split; [lia|]. split.
      * apply StronglySorted_snoc; [done|].
        eapply Forall_impl; [exact Hle'|]. simpl. unfold line_time. simpl.
        intros t Ht. lia.
      * apply Forall_app. split; [done|]. constructor; [|done].
        unfold line_time. simpl. lia.
    + destruct Hf as (? & ? & ? & _ & [(Hl & _)|(_ & _ & ->)]).
      { by destruct (Hno _ _ eq_refl). }
      rewrite Hout. simpl in Hdue'. split; [lia|done].
    + destruct Hf as (_ & Hn). rewrite Hout.
      rewrite (response_of_outside _ Hn) in Hdue'. split; [lia|done].
    + destruct Hf as [_ ->]. rewrite Hout. simpl in Hdue'. split; [lia|done].
    + by destruct (Hnp srv i).
  - rewrite Hev in Hf, Hout, Hdue.
    destruct Hf as (? & ? & ? & _ & [(_ & _ & Hn)|(Hno & _)]); [|done].
    rewrite Hout. rewrite (response_of_outside _ Hn) in Hdue'. split; [lia|done].
  - rewrite Hev in Hf, Hout, Hdue.
    destruct Hf as (? & ? & ? & ? & ? & Hi & _ & Hn). rewrite Hout.
    rewrite (response_of_outside _ Hn) in Hdue'.
    rewrite sum_nat_alter_S.
    2:{ rewrite length_fmap. apply lookup_lt_Some in Hi.
        unfold frames in Hi. by rewrite length_fmap in Hi. }
    split; [lia|done].
Qed.

Lemma sum_Z_le (l l' : list Z) :
  Forall2 (λ a b, 0 ≤ a ≤ b) l l' →
  0 ≤ foldr Z.add 0 l ≤ foldr Z.add 0 l'.
Proof. induction 1; simpl; lia. Qed.

(** [np.mean] keeps the order of the samples. *)
Lemma np_mean_le (x y : Z) (l l' : list Z) :
  Forall2 (λ a b, 0 ≤ a ≤ b) (x :: l) (y :: l') →
  ∃ p q, np_mean (x :: l) = Mean p ∧ np_mean (y :: l') = Mean q ∧
         Qle 0 p ∧ Qle p q.
Proof.
  intros H. eexists _, _. split; [done|]. split; [done|].
  pose proof (Forall2_length _ _ _ H) as Hlen. rewrite <-Hlen.
  apply sum_Z_le in H.
  set (n := length (x :: l)) in *.
  assert (0 < Z.of_nat n) as Hn by (unfold n; simpl; lia).
  rewrite <-!inject_Z_mult.
  assert (Qlt 0 (inject_Z (Z.of_nat n * UNIT))) as Hpos.
  { rewrite <-(Zlt_Qlt 0). unfold UNIT, TENTH. lia. }
  split.
  - apply Qle_shift_div_l; [done|]. rewrite Qmult_0_l.
    rewrite <-(Zle_Qle 0). lia.
  - apply Qle_shift_div_r; [done|].
    unfold Qdiv. rewrite <-Qmult_assoc, (Qmult_comm (Qinv _)), Qmult_assoc.
    apply Qle_shift_div_l; [done|].
    rewrite <-!inject_Z_mult, <-Zle_Qle.
    apply Z.mul_le_mono_nonneg_r; [|lia]. unfold UNIT, TENTH. lia.
Qed.

(** X10.  The averages of the report.  In every state of a run with a
    service-time range [0 <= lo <= hi], each of the averages that lines
    123-126 compute for a discipline is a number, never [nan]: it is 0 when
    the discipline has no sample, where [np.mean] is not called, and
    [np.mean] of the samples otherwise.  The average latency is not
    negative, and the average delay is not below the average latency. *)
Theorem X10_reported_averages cfg s d :
  reachable cfg s → 0 ≤ (SERVICE_TIME cfg).1 ≤ (SERVICE_TIME cfg).2 →
  (get d (latencies s) = [] ↔ get d (delays s) = []) ∧
  (get d (latencies s) = [] →
   average (get d (latencies s)) = Mean 0 ∧
   average (get d (delays s)) = Mean 0) ∧
  (get d (latencies s) ≠ [] →
   average (get d (latencies s)) = np_mean (get d (latencies s)) ∧
   average (get d (delays s)) = np_mean (get d (delays s))) ∧
  ∃ latency delay,
    average (get d (latencies s)) = Mean latency ∧
    average (get d (delays s)) = Mean delay ∧
    Qle 0 latency ∧ Qle latency delay.
Proof.
  intros Hr [Hlo Hab].
  destruct (reachable_bounded _ _ Hab Hr) as [_ Hc].
  destruct (Hc d) as [Hin Hle].
  assert (Forall2 (λ a b, 0 ≤ a ≤ b) (get d (latencies s)) (get d (delays s)))
    as H.
  { clear Hc. induction Hle as [|x y l l' Hxy _ IH]; [constructor|].
    apply Forall_cons in Hin as [[[Hx _] _] Hin]. simpl in Hx.
    constructor; [|by apply IH]. unfold TENTH in Hx. lia. }
  clear Hin Hle.
  destruct H as [|x y l l' Hxy H].
  - split; [done|]. split; [done|]. split; [done|].
    exists 0%Q, 0%Q. split_and!; done.
  - split; [done|]. split; [done|]. split; [done|].
    destruct (np_mean_le x y l l') as (p & q & Hp & Hq & H0 & Hpq);
      [by constructor|].
    exists p, q. by split_and!.
Qed.

Lemma switch_stats_loop cfg i n s s' :
  request_http_loop cfg i n s = Ok s' → switch_stats s' = switch_stats s.
Proof.
  intros H%request_http_loop_Ok. destruct n as [|n].
  - by subst s'.
  - by destruct H as [_ ->].
Qed.

Lemma switch_stats_count_loss sw s :
  switch_stats (count_loss sw s) = switch_stats s.
Proof. unfold count_loss. by destruct (class_of sw s). Qed.

(** What a step does to [switch_stats]: line 44 at the end of a think time,
    nothing otherwise. *)
Lemma step_queue_lengths cfg s s' :
  reachable cfg s → step cfg s = Some (Ok s') →
  switch_stats s' = switch_stats s ∨
  ∃ i n sw switch st,
    frames s !! i = Some (AtThink n) ∧ switches s !! sw = Some switch ∧
    switch_stats s !! sw_name switch = Some st ∧
    switch_stats s' =
      <[sw_name switch :=
          {| queue_lengths := queue_lengths st ++ [length (queue switch)];
             utilization := utilization st |}]> (switch_stats s).
Proof.
  intros Hr Hstep.
  apply step_anatomy in Hstep as (e & l1 & l2 & Hpop & _ & _ & _ & _ & _ & H);
    [|done].
  simpl in H.
  destruct (entry_event e) as [[i|srv i]|[i|srv i]|sw r|sw r|[i|srv i]] eqn:He.
  - left. destruct H as [_ H]. by apply switch_stats_loop in H.
  - left. destruct H as [_ H]. by apply handle_request_begin_Ok in H as [_ ->].
  - right. destruct H as (n & Hf & H).
    apply request_http_issue_Ok in H. simpl in H.
    destruct H as (switch & st & Hsw & _ & Hst & ->).
    eexists i, n, _, switch, st. split; [done|]. split; [exact Hsw|].
    split; [exact Hst|].
    by rewrite <-trigger_put_set_pc_frame, trigger_put_switch_stats.
  - left. by destruct H as [_ ->].
  - left. destruct H as (n & rt & srv & _ & _ & H).
    apply request_http_granted_Ok in H. simpl in H.
    destruct H as [[_ H]|[_ ->]]; [|done].
    apply switch_stats_loop in H. rewrite H.
    change (switch_stats (request_exit ?a ?b ?s)) with (switch_stats s).
    by rewrite switch_stats_count_loss.
  - left. subst s'. by rewrite trigger_put_switch_stats.
  - left. by subst s'.
  - left. destruct H as (n & rt & sw & r & st & _ & _ & H).
    unfold request_http_served in H. by apply switch_stats_loop in H.
Qed.

(** A PC that is thinking finds fewer than [NUM_PCS] requests in a queue:
    the waiting requests belong to different PCs, none of them to it. *)
Lemma queue_length_bound cfg s i n sw switch :
  reachable cfg s → frames s !! i = Some (AtThink n) →
  switches s !! sw = Some switch →
  (length (queue switch) < NUM_PCS cfg)%nat.
Proof.
  intros Hr Hf Hsw.
  pose proof (reachable_consistent _ _ Hr) as Hcon.
  assert (∀ r, r ∈ queue switch →
            ∃ n' rt srv, frames s !! req_proc r = Some (AtRequest n' rt sw srv r))
    as Hq by (intros r; apply (con_queue _ Hcon _ _ _ Hsw)).
  assert (NoDup (i :: (req_proc <$> queue switch))) as Hnd.
  { constructor.
    - intros (r & -> & Hin)%list_elem_of_fmap.
      destruct (Hq _ Hin) as (? & ? & ? & Hf'). rewrite Hf in Hf'. done.
    - apply NoDup_fmap_2_strong; [|by apply (con_nodup _ Hcon sw)].
      intros r r' Hin Hin' E.
      destruct (Hq _ Hin) as (? & ? & ? & H1), (Hq _ Hin') as (? & ? & ? & H2).
      rewrite E, H2 in H1. by injection H1. }
  assert (i :: (req_proc <$> queue switch) ⊆+ seq 0 (NUM_PCS cfg)) as Hsub.
  { apply NoDup_submseteq; [done|]. intros j Hj. apply elem_of_seq.
    rewrite <-(reachable_length_frames _ _ Hr). split; [lia|]. simpl.
    apply elem_of_cons in Hj as [->|(r & -> & Hin)%list_elem_of_fmap].
    - by eapply lookup_lt_Some.
    - destruct (Hq _ Hin) as (? & ? & ? & Hf'). by eapply lookup_lt_Some. }
  apply submseteq_length in Hsub. simpl in Hsub.
  rewrite length_fmap, length_seq in Hsub. lia.
Qed.

(** X14.  The samples of the queue lengths.  Every queue length that line 44
    has recorded, under whatever key of [switch_stats], is smaller than
    [NUM_PCS]: a PC has at most one request outstanding, so a PC that asks
    for a slot finds at most the other PCs waiting (in the program, at most
    29 requests). *)
Theorem X14_queue_length_samples_are_bounded cfg s name st :
  reachable cfg s → switch_stats s !! name = Some st →
  Forall (λ k, (k < NUM_PCS cfg)%nat) (queue_lengths st).
Proof.
  intros Hr. revert name st.
  induction Hr as [g s Hs|s s' Hr IH Hstep]; intros name st Hst.
  { rewrite setup_eq in Hs. case_decide; [done|]. injection Hs as <-.
    simpl in Hst. apply initial_stats_empty in Hst as ->. constructor. }
  destruct (step_queue_lengths _ _ _ Hr Hstep)
    as [E|(i & n & sw & switch & st0 & Hf & Hsw & Hst0 & E)];
    rewrite E in Hst; [by eapply IH|].
  apply lookup_insert_Some in Hst as [[_ <-]|[_ Hst]]; [|by eapply IH].
  simpl. apply Forall_app. split; [by eapply IH|].
  constructor; [|done]. by eapply queue_length_bound.
Qed.

(** Lines 122-126 return unless the clock is 0. *)
Lemma summary_cases s :
  (env_now s = 0 → summary s = Raise ZeroDivisionError) ∧
  (env_now s ≠ 0 →
   ∃ rep, summary s = Ok rep ∧ loss rep = data_loss s ∧
     average_latency_fifo rep = average (get FIFO (latencies s)) ∧
     average_latency_priority rep = average (get Priority (latencies s)) ∧
     average_delay_fifo rep = average (get FIFO (delays s)) ∧
     average_delay_priority rep = average (get Priority (delays s))).
Proof.
  unfold summary, throughput_value. split; intros Hn.
  - by rewrite decide_True.
  - rewrite decide_False by done. simpl. eexists. by split_and!.
Qed.

(** C8, as the program has it.  The guard of lines 123-126 keeps [np.mean]
    away from an empty list, for which it returns [nan] with a
    [RuntimeWarning]: the average of an empty sequence is the number 0, and
    the average of a non-empty one is [np.mean] of it, a number.  But the
    summarization returns these averages only when the final clock is not 0:
    line 122 divides by [env.now] first, and raises [ZeroDivisionError] when
    the clock is 0, whatever the sequences hold.  It does return in every
    run of a configuration with a switch of positive capacity, a server, a
    PC, a request, a think-time range [0 < lo <= hi] and a service-time
    range [0 <= lo <= hi]. *)
Theorem C8_mean_of_samples :
  (np_mean [] = Nan ∧ average [] = Mean 0) ∧
  (∀ x l, average (x :: l) = np_mean (x :: l) ∧
          ∃ q, np_mean (x :: l) = Mean q) ∧
  (∀ s,
    (env_now s = 0 → summary s = Raise ZeroDivisionError) ∧
    (env_now s ≠ 0 → summarization_as_stated s)) ∧
  ∀ cfg g,
    valid cfg → 0 < SWITCH_CAPACITY cfg →
    (0 < NUM_PCS cfg)%nat → (0 < NUM_REQUESTS cfg)%nat →
    0 < (THINK_TIME cfg).1 →
    ∃ s rep, main cfg g = Ok (s, rep) ∧ summary s = Ok rep ∧
             summarization_as_stated s.
Proof.
  split; [done|]. split; [intros x l; split; [done|by eexists]|].
  assert (∀ s, env_now s ≠ 0 → summarization_as_stated s) as Hret.
  { intros s Hn.
    destruct (proj2 (summary_cases s) Hn) as (rep & Hrep & _ & H).
    by exists rep. }
  split.
  - intros s. split; [apply summary_cases|apply Hret].
  - intros cfg g Hv Hcap Hpcs Hreq Hlo.
    destruct (main_returns cfg g Hv Hcap Hpcs Hreq Hlo)
      as (s & rep & Hmain & _ & _ & Hnow & _).
    exists s, rep. split; [done|]. split; [|apply Hret; lia].
    unfold main in Hmain. inv_bind Hmain. inv_bind Hmain. inv_bind Hmain.
    injection Hmain as <- <-. done.
Qed.

(** Line 35 with a think-time range below 0: [env.timeout] refuses the
    delay. *)
Lemma request_http_loop_negative cfg i n s :
  (THINK_TIME cfg).1 < 0 → (THINK_TIME cfg).2 < 0 →
  request_http_loop cfg i (S n) s = Raise ValueError.
Proof.
  intros Hlo Hhi. unfold request_http_loop, uniform, random.
  pose proof (rng_random_range (rng s)) as Hk.
  destruct (rng_random (rng s)) as [k g]. simpl in *.
  unfold timeout. rewrite decide_True; [done|].
  unfold TENTH. nia.
Qed.

(** Lines 77-78 with a service-time range below 0. *)
Lemma handle_request_begin_negative cfg srv i s :
  (SERVICE_TIME cfg).1 < 0 → (SERVICE_TIME cfg).2 < 0 →
  handle_request_begin cfg srv i s = Raise ValueError.
Proof.
  intros Hlo Hhi. unfold handle_request_begin, uniform, random.
  pose proof (rng_random_range (rng s)) as Hk.
  destruct (rng_random (rng s)) as [k g]. simpl in *.
  unfold timeout. rewrite decide_True; [done|].
  unfold TENTH. nia.
Qed.

(** With a think-time range below 0 the first step of the run raises. *)
Lemma negative_think_run cfg g :
  (THINK_TIME cfg).1 < 0 → (THINK_TIME cfg).2 < 0 →
  (0 < NUM_PCS cfg)%nat → (0 < NUM_REQUESTS cfg)%nat →
  ¬ (SWITCH_CAPACITY cfg ≤ 0 ∧ (0 < FIFO_COUNT cfg + PRIORITY_COUNT cfg)%nat) →
  env_run cfg (initial_state cfg g) = Raise ValueError ∧
  main cfg g = Raise ValueError.
Proof.
  intros Hlo Hhi Hpcs Hreq Hc. destruct (reachable_initial cfg g Hc) as [Hs Hr].
  set (P := λ s : state,
         env_queue s ≠ [] ∧
         Forall (λ e, ∃ i, entry_event e = Initialize (ProcPC i)) (env_queue s)).
  assert (∀ s res, reachable cfg s → P s → step cfg s = Some res →
                   res = Raise ValueError) as Hstep.
  { intros s res Hrs [_ Hq] Hst.
    destruct (step_result _ _ _ Hrs Hst) as (x & rest & _ & Hx & _ & H).
    simpl in H.
    destruct (proj1 (Forall_forall _ _) Hq x Hx) as [i Hev]. rewrite Hev in H.
    destruct H as [_ ->]. destruct (NUM_REQUESTS cfg) as [|n]; [lia|].
    by apply request_http_loop_negative. }
  assert (P (initial_state cfg g)) as HP.
  { split; simpl.
    - destruct (NUM_PCS cfg); [lia|done].
    - apply Forall_fmap, Forall_forall. intros i _. by exists i. }
  assert (env_run cfg (initial_state cfg g) = Raise ValueError) as Hrun.
  { pose proof (env_run_cases cfg P (initial_state cfg g)) as H.
    destruct (env_run cfg (initial_state cfg g)) as [s|e].
    - destruct H as ([Hne _] & _ & Hq); [|done..].
      intros s1 s2 Hr1 HP1 Hst. by specialize (Hstep _ _ Hr1 HP1 Hst).
    - destruct H as (s1 & HP1 & Hr1 & Hst); [|done|done|].
      + intros s1 s2 Hr1 HP1 Hst. by specialize (Hstep _ _ Hr1 HP1 Hst).
      + by specialize (Hstep _ _ Hr1 HP1 Hst). }
  split; [done|]. unfold main. rewrite Hs. simpl. by rewrite Hrun.
Qed.

Lemma outside_before_service e : outside_handler e → before_service e.
Proof.
  unfold outside_handler, before_service.
  by destruct (entry_event e) as [[]|[]| | |[]].
Qed.

(** With a service-time range below 0 no handler gets past its start. *)
Lemma unserved_step cfg s s' :
  (SERVICE_TIME cfg).1 < 0 → (SERVICE_TIME cfg).2 < 0 →
  reachable cfg s → unserved s → step cfg s = Some (Ok s') → unserved s'.
Proof.
  intros Hlo Hhi Hr [Hq Hn] Hstep.
  destruct (step_frames _ _ _ Hr Hstep)
    as (e & l1 & l2 & new & Hpop & Hqs & Hqs' & _ & _ & _ & _ & Hf).
  destruct (step_metrics _ _ _ Hr Hstep) as (e1 & rest1 & Hpop1 & _ & _ & _ & Hm).
  rewrite Hpop in Hpop1. injection Hpop1 as <- <-.
  assert (before_service e) as He.
  { apply (proj1 (Forall_forall _ _) Hq). rewrite Hqs.
    apply elem_of_app. right. by left. }
  assert (Forall before_service (l1 ++ l2)) as Hrest.
  { rewrite Hqs in Hq. apply Forall_app in Hq as [H1 H2].
    apply Forall_cons in H2 as [_ H2]. by apply Forall_app. }
  split.
  - rewrite Hqs'. apply Forall_app. split; [done|].
    assert (∀ l, Forall outside_handler l → Forall before_service l) as Ho.
    { intros l Hl. eapply Forall_impl; [exact Hl|]. apply outside_before_service. }
    unfold before_service in He.
    destruct (entry_event e) as [[i|srv i]|[i|srv i]|sw r|sw r|[i|srv i]] eqn:Hev;
      try done.
    + destruct Hf as (_ & _ & H). by apply Ho.
    + pose proof (step_heappop cfg _ _ _ Hpop) as Hs. rewrite Hev in Hs.
      simpl in Hs. rewrite handle_request_begin_negative in Hs by done.
      congruence.
    + destruct Hf as (? & ? & ? & ? & _ & _ & H). by apply Ho.
    + destruct Hf as (? & ? & ? & _ & [(_ & _ & H)|(_ & _ & ->)]); [by apply Ho|].
      by repeat constructor.
    + destruct Hf as [_ H]. by apply Ho.
    + destruct Hf as [_ ->]. constructor.
  - unfold metrics in Hm. unfold total_successes in *.
    destruct Hm as [(Hm & _)|[(sw & r & d & _ & _ & _ & Hm)|
                     (srv & i & n & rt & sw & r & st & d & Hev & _)]].
    + injection Hm as _ _ _ _ _ ->. done.
    + injection Hm as _ _ _ _ _ ->. done.
    + unfold before_service in He. by rewrite Hev in He.
Qed.

Lemma reachable_unserved cfg s :
  (SERVICE_TIME cfg).1 < 0 → (SERVICE_TIME cfg).2 < 0 →
  reachable cfg s → unserved s.
Proof.
  intros Hlo Hhi. induction 1 as [g s Hs|s s' Hr IH Hstep].
  - rewrite setup_eq in Hs. case_decide; [done|]. injection Hs as <-.
    split; [|apply total_successes_initial]. simpl.
    apply Forall_fmap, Forall_forall. by intros.
  - by eapply unserved_step.
Qed.

(** When the run returns, every request is accounted for. *)
Lemma env_run_accounted cfg g s :
  ¬ (SWITCH_CAPACITY cfg ≤ 0 ∧ (0 < FIFO_COUNT cfg + PRIORITY_COUNT cfg)%nat) →
  env_run cfg (initial_state cfg g) = Ok s →
  reachable cfg s ∧ env_queue s = [] ∧
  (total_successes s + total_losses s)%nat = (NUM_PCS cfg * NUM_REQUESTS cfg)%nat.
Proof.
  intros Hc Hrun. destruct (reachable_initial cfg g Hc) as [_ Hr].
  pose proof (env_run_cases cfg (λ _, True) (initial_state cfg g)
                ltac:(done) Hr I) as H.
  rewrite Hrun in H. destruct H as (_ & Hr' & Hq).
  split; [done|]. split; [done|].
  rewrite <-(requests_accounted cfg s Hr').
  assert (Forall (λ f, f = Finished) (frames s)) as Hfin.
  { apply Forall_lookup. intros i f Hf. by eapply finished_frames. }
  assert (sum_list_with (remaining cfg) (frames s) = 0%nat) as ->; [|lia].
  induction Hfin as [|f l -> _ IH]; simpl; [done|]. by rewrite IH.
Qed.

(** C7, as the program has it.  The program defines no [ConfigurationError]
    and checks no constant itself; nothing it does raises one.  Construction
    (lines 93-116) fails in one case only, a capacity that is not positive
    when at least one switch is built, and then with the [ValueError] of
    simpy's resource constructor; every other configuration is constructed
    and its run starts.  What a configuration that is constructed does then:
    without switches or without servers (and with a PC, a request and a
    think-time range [0 <= lo <= hi]) the run ends with [IndexError] at the
    first [random.choice]; without PCs or without requests it returns and
    line 122 raises [ZeroDivisionError]; with a think-time range whose bounds
    are both negative (and a PC and a request) it ends with [ValueError] at
    the first [env.timeout]; with a service-time range whose bounds are both
    negative, [ValueError] is raised by the step that starts a handler, so
    that no request ever succeeds, and a run that returns has lost every
    request. *)
Theorem C7_construction_checks cfg g :
  (setup cfg g = Raise ValueError ↔
   SWITCH_CAPACITY cfg ≤ 0 ∧ (0 < FIFO_COUNT cfg + PRIORITY_COUNT cfg)%nat) ∧
  (∀ e, setup cfg g = Raise e → e = ValueError) ∧
  main cfg g ≠ Raise ConfigurationError ∧
  (¬ (SWITCH_CAPACITY cfg ≤ 0 ∧ (0 < FIFO_COUNT cfg + PRIORITY_COUNT cfg)%nat) →
   (setup cfg g = Ok (initial_state cfg g) ∧
    reachable cfg (initial_state cfg g)) ∧
   (((FIFO_COUNT cfg + PRIORITY_COUNT cfg = 0)%nat ∨ NUM_SERVERS cfg = 0%nat) →
    (0 < NUM_PCS cfg)%nat → (0 < NUM_REQUESTS cfg)%nat →
    0 ≤ (THINK_TIME cfg).1 ≤ (THINK_TIME cfg).2 →
    env_run cfg (initial_state cfg g) = Raise IndexError ∧
    main cfg g = Raise IndexError) ∧
   ((NUM_PCS cfg = 0 ∨ NUM_REQUESTS cfg = 0)%nat →
    main cfg g = Raise ZeroDivisionError) ∧
   ((THINK_TIME cfg).1 < 0 → (THINK_TIME cfg).2 < 0 →
    (0 < NUM_PCS cfg)%nat → (0 < NUM_REQUESTS cfg)%nat →
    env_run cfg (initial_state cfg g) = Raise ValueError ∧
    main cfg g = Raise ValueError) ∧
   ((SERVICE_TIME cfg).1 < 0 → (SERVICE_TIME cfg).2 < 0 →
    (∀ s e rest srv i,
       heappop (env_queue s) = Some (e, rest) →
       entry_event e = Initialize (ProcHandle srv i) →
       step cfg s = Some (Raise ValueError)) ∧
    (∀ s, reachable cfg s → total_successes s = 0%nat) ∧
    (∀ s, env_run cfg (initial_state cfg g) = Ok s →
          total_successes s = 0%nat ∧
          total_losses s = (NUM_PCS cfg * NUM_REQUESTS cfg)%nat))).
Proof.
  pose proof (setup_eq cfg g) as Hs. split_and!.
  - rewrite Hs. case_decide; split; done.
  - intros e. rewrite Hs. case_decide; congruence.
  - unfold main. rewrite Hs. case_decide; [done|]. simpl.
    destruct (env_run cfg (initial_state cfg g)) as [s|e] eqn:Hrun; simpl.
    + unfold summary, throughput_value. case_decide; done.
    + pose proof (env_run_run cfg (initial_state cfg g)) as H'.
      rewrite Hrun in H'. apply run_Raise in H'.
      intros [= ->]. by destruct H' as [?|[?|[?|?]]].
  - intros Hn. split_and!.
    + by rewrite decide_False in Hs.
    + by apply (reachable_initial cfg g).
    + intros Hnil Hpcs Hreq Hth. by apply empty_choice_run.
    + intros H0. by apply idle_run.
    + intros Hlo Hhi Hpcs Hreq. by apply negative_think_run.
    + intros Hlo Hhi. split_and!.
      * intros s e rest srv i Hpop Hev.
        rewrite (step_heappop cfg _ _ _ Hpop), Hev. simpl.
        by rewrite handle_request_begin_negative.
      * intros s Hr. by destruct (reachable_unserved cfg s Hlo Hhi Hr).
      * intros s Hrun.
        destruct (env_run_accounted cfg g s Hn Hrun) as (Hr & _ & Hacc).
        destruct (reachable_unserved cfg s Hlo Hhi Hr) as [_ H0].
        split; [done|]. lia.
Qed.

End Properties.

(** * Examples

    Runs of the scripted generator [tape]. *)

#[local] Existing Instance tape.

(** C1 at the scenario: the run with the fuel that [env_run] computes and
    the run with a fuel of 20 are runs of the same simulation, and agree. *)
Lemma C1_replay_witness :
  let r1 := setup scenario seed ≫= env_run scenario in
  let r2 := default (Raise RuntimeError)
              (run scenario 20 (initial_state scenario seed)) in
  r1 = r2 ∧ (r1 ≫= summary) = (r2 ≫= summary).
Proof.
  intros r1 r2. apply (C1_replay (R := tape) scenario seed).
  - apply Simulation_computed.
  - apply (Simulation_fuel (R := tape) scenario seed 20); [reflexivity|].
    vm_compute. lia.
Defined.

(** C2 in the deployment, when the first two PCs have asked for the first
    switch: one request holds its slot, the other waits. *)
Lemma C2_held_slots_witness :
  let s := state_after deployment [] 32 in
  let sw := {| sw_class := FIFO; sw_name := "FIFO Switch 1"; sw_capacity := 1;
               sw_put_queue := PlainList; users := [request0];
               queue := [{| req_id := 1; req_proc := 1; req_key := None |}] |} in
  switches s !! 0%nat = Some sw ∧
  sw_capacity sw = SWITCH_CAPACITY deployment ∧
  Z.of_nat (length (users sw)) ≤ sw_capacity sw ∧
  (deployment = deployment → (length (users sw) ≤ 1)%nat).
Proof.
  intros s sw.
  assert (switches s !! 0%nat = Some sw) as Hsw by (vm_compute; reflexivity).
  split; [exact Hsw|].
  apply (C2_held_slots_never_exceed_capacity (R := tape) deployment s 0 sw);
    [|exact Hsw].
  apply state_after_reachable. reflexivity.
Defined.
(** C3 in the scenario, when the request has passed the loss check: it holds
    the slot, and the next step, which starts the handler, leaves the PC
    where it is. *)
Lemma C3_slot_held_witness :
  let s := state_after scenario seed 3 in
  let p := {| pc_name := "PC1"; successful_requests := 0;
              pc_frame := AtService 0 (3 * TENTH) 0 0 request0 (3 * TENTH) |} in
  pcs s !! 0%nat = Some p ∧
  (∃ switch, switches s !! 0%nat = Some switch ∧ request0 ∈ users switch) ∧
  ∀ s', step scenario s = Some (Ok s') →
    pcs s' !! 0%nat = Some p ∨
    ∃ e rest, heappop (env_queue s) = Some (e, rest) ∧
              entry_event e = Process (ProcHandle 0 0).
Proof.
  intros s p.
  assert (pcs s !! 0%nat = Some p) as Hp by (vm_compute; reflexivity).
  split; [exact Hp|].
  apply (C3_slot_held_during_service (R := tape) scenario s 0 p 0 (3 * TENTH)
           0 0 request0 (3 * TENTH)); [|exact Hp|reflexivity].
  apply state_after_reachable. reflexivity.
Defined.

(** C4 when the slot has been granted and [random()] returns 0: the step
    counts one lost FIFO request and records nothing else. *)
Lemma C4_loss_branch_witness :
  let s := state_after lossy seed_lost 2 in
  ∃ s', step lossy s = Some (Ok s') ∧
        data_loss s' = ByDiscipline 1%nat 0%nat ∧
        users <$> switches s' = [[]] ∧
        overall_latencies s' = [] ∧ overall_delays s' = [] ∧ stdout s' = [] ∧
        successful_requests <$> pcs s' = [0%nat] ∧
        pc_frame <$> pcs s' = [Finished].
Proof.
  intros s.
  destruct (C4_loss_branch (R := tape) lossy s
              (3 * TENTH, NORMAL, 2%nat, Request 0 request0) [] 0 request0)
    as (s' & switch & p & n & rt & srv & next & Hstep & _).
  - apply state_after_reachable. reflexivity.
  - simpl. lia.
  - vm_compute. reflexivity.
  - reflexivity.
  - vm_compute. reflexivity.
  - exists s'. split; [exact Hstep|].
    assert (∀ A (f : state → A),
              Some (Ok (f s')) =
              fmap (M := option) (fmap (M := result) f) (step lossy s))
      as Hf by (intros A f; by rewrite Hstep).
    split_and!.
    + specialize (Hf _ data_loss). vm_compute in Hf. injection Hf as Hf. exact Hf.
    + specialize (Hf _ (λ s, users <$> switches s)). vm_compute in Hf.
      injection Hf as Hf. exact Hf.
    + specialize (Hf _ overall_latencies). vm_compute in Hf. injection Hf as Hf. exact Hf.
    + specialize (Hf _ overall_delays). vm_compute in Hf. injection Hf as Hf. exact Hf.
    + specialize (Hf _ stdout). vm_compute in Hf. injection Hf as Hf. exact Hf.
    + specialize (Hf _ (λ s, successful_requests <$> pcs s)). vm_compute in Hf.
      injection Hf as Hf. exact Hf.
    + specialize (Hf _ (λ s, pc_frame <$> pcs s)). vm_compute in Hf.
      injection Hf as Hf. exact Hf.
Defined.
(** C5 when two requests wait for the priority switch: the head of the
    queue is the choice of both orders, and a third request is put at the
    end. *)
Lemma C5_priority_queue_witness :
  let s := state_after contended seed_contended 6 in
  let sw := {| sw_class := Priority; sw_name := "Priority Switch 1";
               sw_capacity := 1; sw_put_queue := SortedQueue;
               users := [waiter 0]; queue := [waiter 1; waiter 2] |} in
  switches s !! 0%nat = Some sw ∧
  priority_choice (queue sw) = Some (waiter 1) ∧
  first_arrival (queue sw) = Some (waiter 1) ∧
  ∀ pc, put_queue_append (sw_put_queue sw) (queue sw) (new_request sw pc s) =
        [waiter 1; waiter 2; new_request sw pc s].
Proof.
  intros s sw.
  assert (switches s !! 0%nat = Some sw) as Hsw by (vm_compute; reflexivity).
  split; [exact Hsw|].
  destruct (C5_priority_queue_grants_in_arrival_order (R := tape) contended s
              0 sw) as (_ & _ & _ & Happ & Hpf & Hfh & _).
  - apply state_after_reachable. reflexivity.
  - exact Hsw.
  - reflexivity.
  - split_and!.
    + by rewrite Hpf, Hfh.
    + by rewrite Hfh.
    + intros pc. by rewrite Happ.
Defined.

(** C6 in the scenario, when the think time is over: the step cannot raise
    [KeyError], and it appends the sample 0 under the name of the switch. *)
Lemma C6_queue_length_witness :
  let s := state_after scenario seed 1 in
  heappop (env_queue s) =
    Some ((3 * TENTH, NORMAL, 1%nat, Timeout (ProcPC 0)), []) ∧
  step scenario s ≠ Some (Raise KeyError) ∧
  ∀ s', step scenario s = Some (Ok s') →
    ∃ st, switch_stats s !! "FIFO Switch 1" = Some st ∧ queue_lengths st = [] ∧
          switch_stats s' =
            <["FIFO Switch 1" := {| queue_lengths := [0%nat];
                                    utilization := [] |}]> (switch_stats s).
Proof.
  intros s.
  assert (heappop (env_queue s) =
            Some ((3 * TENTH, NORMAL, 1%nat, Timeout (ProcPC 0)), [])) as Hpop
    by (vm_compute; reflexivity).
  split; [exact Hpop|].
  destruct (C6_queue_length_sampled_at_arrival (R := tape) scenario s _ _ 0
              (state_after_reachable (R := tape) scenario seed 1 eq_refl) Hpop eq_refl)
    as [Hkey Hok].
  split; [exact Hkey|].
  intros s' Hstep.
  destruct (Hok s' Hstep) as (switch & st & n & srv & r & p' & Hsw & Hst & Hs' & _).
  vm_compute in Hsw. injection Hsw as <-.
  exists st. split; [exact Hst|].
  assert (Some st = Some empty_stat) as Hempty.
  { rewrite <-Hst. vm_compute. reflexivity. }
  injection Hempty as ->. split; [reflexivity|]. exact Hs'.
Defined.

(** C8 in the scenario: the program returns its report, with 0 for the
    priority discipline, which has no sample, and [np.mean] of the one
    sample of the FIFO discipline. *)
Lemma C8_mean_witness :
  ∃ s rep, main scenario seed = Ok (s, rep) ∧ summary s = Ok rep ∧
           summarization_as_stated s ∧
           get Priority (latencies s) = [] ∧
           average_latency_priority rep = Mean 0 ∧
           length (get FIFO (latencies s)) = 1%nat ∧
           average_latency_fifo rep = np_mean (get FIFO (latencies s)).
Proof.
  destruct (C8_mean_of_samples (R := tape)) as (_ & Hmean & _ & H).
  destruct (H scenario seed) as (s & rep & Hmain & Hsum & Hstated).
  - unfold valid. simpl. lia.
  - simpl. lia.
  - simpl. lia.
  - simpl. lia.
  - simpl. lia.
  - exists s, rep. split; [exact Hmain|]. split; [exact Hsum|].
    split; [exact Hstated|].
    assert (∀ A (f : state * report → A),
              Ok (f (s, rep)) = fmap (M := result) f (main scenario seed))
      as Hf by (intros A f; rewrite Hmain; reflexivity).
    assert (get Priority (latencies s) = []) as Hp.
    { specialize (Hf _ (λ p, get Priority (latencies p.1))).
      vm_compute in Hf. injection Hf as Hf. exact Hf. }
    assert (length (get FIFO (latencies s)) = 1%nat) as Hl.
    { specialize (Hf _ (λ p, length (get FIFO (latencies p.1)))).
      vm_compute in Hf. injection Hf as Hf. exact Hf. }
    destruct Hstated as (rep' & Hrep' & H1 & H2 & _).
    rewrite Hsum in Hrep'. injection Hrep' as <-.
    split; [exact Hp|]. split; [rewrite H2, Hp; reflexivity|].
    split; [exact Hl|]. rewrite H1.
    destruct (get FIFO (latencies s)) as [|x l]; [discriminate Hl|].
    apply Hmean.
Defined.

(** C7 does not hold.  Without switches the construction succeeds and the
    run starts; it ends when the first PC calls [random.choice] on the empty
    list.  With a capacity of 0 simpy refuses the first switch with a
    [ValueError].  With a negative think time the construction succeeds and
    the first [timeout] raises a [ValueError].  With a negative service time
    the construction succeeds, and the run returns when every request is
    lost; it raises a [ValueError] when a request passes the loss check. *)
Lemma C7_invalid_configurations :
  (invalid no_queues ∧
   setup no_queues [] = Ok (initial_state no_queues []) ∧
   env_run no_queues (initial_state no_queues []) = Raise IndexError ∧
   ¬ construction_as_stated no_queues []) ∧
  (invalid no_capacity ∧
   setup no_capacity [] = Raise ValueError ∧
   ¬ construction_as_stated no_capacity []) ∧
  (invalid negative_think ∧
   setup negative_think [] = Ok (initial_state negative_think []) ∧
   env_run negative_think (initial_state negative_think []) = Raise ValueError ∧
   ¬ construction_as_stated negative_think []) ∧
  (invalid negative_service ∧
   setup negative_service [] = Ok (initial_state negative_service []) ∧
   (∃ s rep, main negative_service [] = Ok (s, rep)) ∧
   main negative_service seed_served = Raise ValueError ∧
   ¬ construction_as_stated negative_service []).
Proof.
  assert (setup no_queues [] = Ok (initial_state no_queues [])) as H1
    by (by apply setup_Ok).
  assert (setup no_capacity [] = Raise ValueError) as H2.
  { rewrite setup_eq. apply decide_True. simpl. lia. }
  assert (setup negative_think [] = Ok (initial_state negative_think [])) as H3
    by (by apply setup_Ok).
  assert (setup negative_service [] = Ok (initial_state negative_service []))
    as H4 by (by apply setup_Ok).
  assert (invalid no_queues) as I1 by (by left).
  assert (invalid no_capacity) as I2 by (right; left; simpl; lia).
  assert (invalid negative_think) as I3 by (right; right; left; simpl; lia).
  assert (invalid negative_service) as I4
    by (right; right; right; right; left; simpl; lia).
  assert (env_run no_queues (initial_state no_queues []) = Raise IndexError)
    as R1 by (apply raised_Some; vm_compute; reflexivity).
  assert (env_run negative_think (initial_state negative_think []) =
          Raise ValueError) as R3 by (apply raised_Some; vm_compute; reflexivity).
  assert (∃ s rep, main negative_service [] = Ok (s, rep)) as R4.
  { destruct (raised_None (main (R := tape) negative_service []))
      as [[s rep] Hm]; [vm_compute; reflexivity|].
    exists s, rep. exact Hm. }
  assert (main negative_service seed_served = Raise ValueError) as R5
    by (apply raised_Some; vm_compute; reflexivity).
  split; [|split; [|split]].
  - split; [exact I1|]. split; [exact H1|]. split; [exact R1|].
    intros H. specialize (H I1). congruence.
  - split; [exact I2|]. split; [exact H2|].
    intros H. specialize (H I2). congruence.
  - split; [exact I3|]. split; [exact H3|]. split; [exact R3|].
    intros H. specialize (H I3). congruence.
  - split; [exact I4|]. split; [exact H4|]. split; [exact R4|].
    split; [exact R5|].
    intros H. specialize (H I4). congruence.
Qed.

(** C8 does not hold as stated.  With a quota of no request the run returns
    with the clock at 0 and every sample sequence empty, and the
    summarization raises [ZeroDivisionError] at line 122 instead of
    returning 0 for them. *)
Lemma C8_division_error_with_empty_sequences :
  ∃ s, env_run no_requests (initial_state no_requests []) = Ok s ∧
       latencies s = ByDiscipline [] [] ∧ delays s = ByDiscipline [] [] ∧
       summary s = Raise ZeroDivisionError ∧
       main no_requests [] = Raise ZeroDivisionError ∧
       ¬ summarization_as_stated s.
Proof.
  assert (fmap (M := result) (λ s, (env_now s, latencies s, delays s))
            (env_run no_requests (initial_state no_requests [])) =
          Ok (0, ByDiscipline [] [], ByDiscipline [] [])) as H
    by (vm_compute; reflexivity).
  assert (main no_requests [] = Raise ZeroDivisionError) as Hmain
    by (apply raised_Some; vm_compute; reflexivity).
  destruct (env_run (R := tape) no_requests
              (initial_state (R := tape) no_requests [])) as [s|e];
    [|discriminate H].
  simpl in H. injection H as Hnow Hl Hd.
  assert (summary s = Raise ZeroDivisionError) as Hsum.
  { unfold summary, throughput_value. rewrite decide_True by exact Hnow.
    reflexivity. }
  exists s. split; [reflexivity|]. split; [exact Hl|]. split; [exact Hd|].
  split; [exact Hsum|]. split; [exact Hmain|].
  intros (rep & Hrep & _). congruence.
Qed.

(** C9 does not hold as stated.  With a think time of 0.3 and a service
    time of 1.0 the recorded latency and the recorded delay are both 1.0:
    the delay is counted from [request_time], which line 36 reads after the
    think time. *)
Lemma C9_delay_excludes_think_time :
  first_think_time scenario seed = 3 * TENTH ∧
  fmap (M := result) overall_latencies
    (env_run scenario (initial_state scenario seed)) = Ok [UNIT] ∧
  fmap (M := result) overall_delays
    (env_run scenario (initial_state scenario seed)) = Ok [UNIT] ∧
  ¬ scenario_as_stated seed.
Proof.
  assert (fmap (M := result) overall_latencies
            (env_run scenario (initial_state scenario seed)) = Ok [UNIT]) as Hl
    by (vm_compute; reflexivity).
  assert (fmap (M := result) overall_delays
            (env_run scenario (initial_state scenario seed)) = Ok [UNIT]) as Hd
    by (vm_compute; reflexivity).
  split_and!; [vm_compute; reflexivity|exact Hl|exact Hd|].
  intros (s & latency & delay & Hrun & _ & Hls & Hds & _ & _ & Hthink).
  rewrite Hrun in Hl, Hd. simpl in Hl, Hd. rewrite Hls in Hl. rewrite Hds in Hd.
  injection Hl as ->. injection Hd as ->.
  vm_compute in Hthink. by apply Hthink.
Qed.

(** X1 at the end of the scenario, where one latency and one delay have
    been recorded. *)
Lemma X1_delay_witness :
  let s := state_after scenario seed 8 in
  length (overall_latencies s) = 1%nat ∧
  Forall2 (λ latency delay, 0 ≤ latency ≤ delay)
    (overall_latencies s) (overall_delays s) ∧
  ∀ d, Forall2 (λ latency delay, 0 ≤ latency ≤ delay)
         (get d (latencies s)) (get d (delays s)).
Proof.
  intros s. split; [vm_compute; reflexivity|].
  apply (X1_no_delay_is_shorter_than_its_latency (R := tape) scenario s).
  - apply state_after_reachable. reflexivity.
  - simpl. lia.
Defined.

(** X2 at the end of the scenario: one success, one sample in each list. *)
Lemma X2_samples_witness :
  let s := state_after scenario seed 8 in
  total_successes s = 1%nat ∧
  length (overall_latencies s) = total_successes s ∧
  length (overall_delays s) = total_successes s ∧
  (length (get FIFO (latencies s)) + length (get Priority (latencies s)))%nat =
    total_successes s ∧
  ∀ d, length (get d (delays s)) = length (get d (latencies s)).
Proof.
  intros s. split; [vm_compute; reflexivity|].
  apply (X2_one_sample_per_success (R := tape) scenario s).
  apply state_after_reachable. reflexivity.
Defined.

(** X3 at the end of the scenario (no loss) and of the scenario with a loss
    probability of 1 (no success). *)
Lemma X3_extremes_witness :
  data_loss (state_after (R := tape) scenario seed 8) =
    ByDiscipline 0%nat 0%nat ∧
  total_successes (state_after (R := tape) all_lost seed 5) = 0%nat ∧
  overall_latencies (state_after (R := tape) all_lost seed 5) = [].
Proof.
  destruct (X3_loss_probability_extremes (R := tape) scenario
              (state_after (R := tape) scenario seed 8)) as [H1 _].
  { apply state_after_reachable. reflexivity. }
  destruct (X3_loss_probability_extremes (R := tape) all_lost
              (state_after (R := tape) all_lost seed 5)) as [_ H2].
  { apply state_after_reachable. reflexivity. }
  split; [apply H1; simpl; lia|].
  destruct H2 as (H2 & H3 & _); [simpl; lia|]. split; [exact H2|exact H3].
Defined.

(** X4 for the program without switches. *)
Lemma X4_exceptions_witness :
  main no_queues [] = Raise IndexError ∧
  (IndexError = ValueError ∨
   (IndexError = IndexError ∧
    ((FIFO_COUNT no_queues + PRIORITY_COUNT no_queues = 0)%nat ∨
     NUM_SERVERS no_queues = 0%nat)) ∨
   IndexError = ZeroDivisionError).
Proof.
  assert (main no_queues [] = Raise IndexError) as H
    by (apply raised_Some; vm_compute; reflexivity).
  split; [exact H|].
  exact (X4_exceptions_of_the_program (R := tape) no_queues [] IndexError H).
Defined.

(** X5 for the scenario. *)
Lemma X5_returns_witness :
  ∃ s r, main scenario seed = Ok (s, r) ∧ reachable scenario s ∧
         env_queue s = [] ∧ 0 < env_now s ∧
         throughput r =
           Qdiv (inject_Z (Z.of_nat (total_successes s) * UNIT))
                (inject_Z (env_now s)).
Proof.
  apply (X5_the_program_returns (R := tape) scenario seed).
  - unfold valid. simpl. lia.
  - simpl. lia.
  - simpl. lia.
  - simpl. lia.
  - simpl. lia.
Defined.

(** X6 for the program with a quota of no request. *)
Lemma X6_division_witness :
  (∃ s, env_run no_requests (initial_state no_requests []) = Ok s ∧
        env_now s = 0 ∧ env_queue s = []) ∧
  main no_requests [] = Raise ZeroDivisionError.
Proof.
  apply (X6_division_by_zero (R := tape) no_requests []).
  - right. reflexivity.
  - simpl. lia.
Defined.

(** X7 for the program without switches. *)
Lemma X7_choice_witness :
  env_run no_queues (initial_state no_queues []) = Raise IndexError ∧
  main no_queues [] = Raise IndexError.
Proof.
  apply (X7_choice_from_an_empty_list (R := tape) no_queues []).
  - left. reflexivity.
  - simpl. lia.
  - simpl. lia.
  - simpl. lia.
  - simpl. lia.
Defined.

(** X8 in the scenario, while the request is served. *)
Lemma X8_account_witness :
  let s := state_after scenario seed 3 in
  sum_list_with (remaining scenario) (frames s) = 1%nat ∧
  (total_successes s + total_losses s +
   sum_list_with (remaining scenario) (frames s))%nat =
  (NUM_PCS scenario * NUM_REQUESTS scenario)%nat.
Proof.
  intros s. split; [vm_compute; reflexivity|].
  apply (X8_every_request_is_counted_once (R := tape) scenario s).
  apply state_after_reachable. reflexivity.
Defined.

(** X9 at the end of the scenario with the loss probability of the
    program, where the request is lost. *)
Lemma X9_resolved_witness :
  let s := state_after lossy seed_lost 5 in
  total_losses s = 1%nat ∧
  Forall (λ f, f = Finished) (frames s) ∧
  Forall (λ switch, users switch = [] ∧ queue switch = []) (switches s) ∧
  (total_successes s + total_losses s)%nat =
  (NUM_PCS lossy * NUM_REQUESTS lossy)%nat.
Proof.
  intros s. split; [vm_compute; reflexivity|].
  apply (X9_every_request_is_resolved (R := tape) lossy s).
  - apply state_after_reachable. reflexivity.
  - vm_compute. reflexivity.
Defined.

(** X10 at the end of the scenario, for the FIFO discipline, which has one
    latency and one delay. *)
Lemma X10_averages_witness :
  let s := state_after scenario seed 8 in
  length (get FIFO (latencies s)) = 1%nat ∧
  (get FIFO (latencies s) = [] ↔ get FIFO (delays s) = []) ∧
  (get FIFO (latencies s) = [] →
   average (get FIFO (latencies s)) = Mean 0 ∧
   average (get FIFO (delays s)) = Mean 0) ∧
  (get FIFO (latencies s) ≠ [] →
   average (get FIFO (latencies s)) = np_mean (get FIFO (latencies s)) ∧
   average (get FIFO (delays s)) = np_mean (get FIFO (delays s))) ∧
  ∃ latency delay,
    average (get FIFO (latencies s)) = Mean latency ∧
    average (get FIFO (delays s)) = Mean delay ∧
    Qle 0 latency ∧ Qle latency delay.
Proof.
  intros s. split; [vm_compute; reflexivity|].
  apply (X10_reported_averages (R := tape) scenario s FIFO).
  - apply state_after_reachable. reflexivity.
  - simpl. lia.
Defined.

(** X11 from the start of the scenario to the grant of the slot. *)
Lemma X11_clock_witness :
  let s := initial_state scenario seed in
  let s' := state_after scenario seed 3 in
  env_now s' = 3 * TENTH ∧
  0 ≤ env_now s ≤ env_now s' ∧
  Forall (λ e, env_now s' ≤ entry_time e) (env_queue s').
Proof.
  intros s s'. split; [vm_compute; reflexivity|].
  apply (X11_clock_never_goes_back (R := tape) scenario s s').
  - apply (state_after_reachable (R := tape) scenario seed 0). reflexivity.
  - apply (state_after_later (R := tape) scenario seed 3). vm_compute. exact I.
Defined.

(** X12 at the end of the scenario: one line, one success. *)
Lemma X12_lines_witness :
  let s := state_after scenario seed 8 in
  stdout s = [("PC1", "Server1", 13 * TENTH)] ∧
  length (stdout s) = (total_successes s + responses_due s)%nat ∧
  (env_queue s = [] → length (stdout s) = total_successes s) ∧
  StronglySorted Z.le (line_time <$> stdout s) ∧
  Forall (λ t, 0 ≤ t ≤ env_now s) (line_time <$> stdout s).
Proof.
  intros s. split; [vm_compute; reflexivity|].
  apply (X12_one_response_line_per_success (R := tape) scenario s).
  apply state_after_reachable. reflexivity.
Defined.

(** X13 in the deployment, when the first two PCs have asked for the first
    switch: the request that holds the slot does not wait. *)
Lemma X13_slot_witness :
  let s := state_after deployment [] 32 in
  let sw := {| sw_class := FIFO; sw_name := "FIFO Switch 1"; sw_capacity := 1;
               sw_put_queue := PlainList; users := [request0];
               queue := [{| req_id := 1; req_proc := 1; req_key := None |}] |} in
  switches s !! 0%nat = Some sw ∧
  (request0 ∈ users sw → 0%nat = 0%nat ∧ request0 = request0) ∧
  request0 ∉ queue sw.
Proof.
  intros s sw.
  assert (switches s !! 0%nat = Some sw) as Hsw by (vm_compute; reflexivity).
  split; [exact Hsw|].
  apply (X13_one_slot_per_pc (R := tape) deployment s 0 0 sw sw request0 request0).
  - apply state_after_reachable. reflexivity.
  - exact Hsw.
  - exact Hsw.
  - left.
  - reflexivity.
Defined.

(** X14 when the three PCs have asked for the one switch: the third found
    one request waiting. *)
Lemma X14_samples_witness :
  let s := state_after contended seed_contended 6 in
  let st := {| queue_lengths := [0; 0; 1]%nat; utilization := [] |} in
  switch_stats s !! "Priority Switch 1" = Some st ∧
  Forall (λ k, (k < NUM_PCS contended)%nat) (queue_lengths st).
Proof.
  intros s st.
  assert (switch_stats s !! "Priority Switch 1" = Some st) as Hst
    by (vm_compute; reflexivity).
  split; [exact Hst|].
  apply (X14_queue_length_samples_are_bounded (R := tape) contended s
           "Priority Switch 1" st); [|exact Hst].
  apply state_after_reachable. reflexivity.
Defined.
